(** * ai-avatar: the audio-to-viseme synchronisation core

    A shallow embedding of

    - [hooks/useAudioMouthSync] (the Mouth-Sync Engine: the session cache
      [graph], [computeSpectralCentroid], [tick], [onPlay], [onPause] and the
      effect's cleanup), and
    - the [useFrame] callback of [components/AvatarCanvas] (the Viseme
      Selector: [mouthSmooth], [visemeTimer], [currentViseme]),

    followed by the properties the specification states about them.

    Numbers.  The modules from [JS] to [ChatBox] read a JavaScript [number]
    as an exact rational [Q]: sums, products and quotients are the
    mathematical ones, and equality of numbers is [Qeq] ([==]).  What is
    proved over them is the branch structure, the traces and the bounds that
    rounding leaves alone.  The module [Binary64] rounds every operation as
    IEEE 754 binary64 arithmetic does and has the infinities and [NaN]; the
    numeric laws that rounding can break (the range of the spectral centroid,
    the monotonicity of the cadence interval, the geometric decay of the
    smoothing) are settled over it.  A byte of a [Uint8Array] is a
    [Byte.byte].  In the exact reading an entry of the [Float32Array] filled
    by [getFloatFrequencyData] is a finite rational or minus infinity (the
    value of a silent bin); in [Binary64] it is any number. *)

From Stdlib Require Import QArith Qround Qminmax Qabs Qpower Lqa Lia.
From Stdlib.Strings Require Import Byte.
From stdpp Require Import gmap list.

Local Open Scope Q_scope.

(** ** JavaScript numbers *)

Module JS.

(** [a < b], [a > b] and [a >= b] on numbers. *)
Definition ltb (a b : Q) : bool := negb (Qle_bool b a).
Definition gtb (a b : Q) : bool := ltb b a.
Definition geb (a b : Q) : bool := Qle_bool b a.

(** [Math.min], [Math.max], [Math.abs], [Math.floor]. *)
Definition Math_min (a b : Q) : Q := Qmin a b.
Definition Math_max (a b : Q) : Q := Qmax a b.
Definition Math_abs (a : Q) : Q := Qabs a.
Definition Math_floor (a : Q) : Z := Qfloor a.

(** A length or an index, as a number. *)
Definition ofNat (n : nat) : Q := inject_Z (Z.of_nat n).

(** [arr[pos]] for a numeric [pos] that holds an integer: [undefined]
    ([None]) outside the array. *)
Definition index {A : Type} (arr : list A) (pos : Z) : option A :=
  if (pos <? 0)%Z then None else arr !! Z.to_nat pos.

(** [a || b] where [a] and [b] are numbers or [undefined]: [a] is falsy when
    it is [undefined] or [0]. *)
Definition or_else (a b : option nat) : option nat :=
  match a with
  | Some O => b
  | Some x => Some x
  | None => b
  end.

End JS.

(** ** [THREE.MathUtils]

    [clamp] and [lerp] come from the three.js library:
    [clamp(value, min, max) = Math.max(min, Math.min(max, value))] and
    [lerp(x, y, t) = (1 - t) * x + t * y]. *)

Module MathUtils.

Definition clamp (value min max : Q) : Q :=
  JS.Math_max min (JS.Math_min max value).

Definition lerp (x y t : Q) : Q := (1 - t) * x + t * y.

End MathUtils.

(** ** The Viseme Selector: [useFrame] of [AvatarCanvas] *)

Module AvatarCanvas.

(** The entries of [faceMeshes] as far as the selector reads them. *)
Record FaceMesh := {
  mouthIndex : option nat;
  shapeIndices : list nat
}.

(** [type Props = { mouth: number; ...; viseme?: number }]. *)
Record Props := {
  mouth : Q;
  viseme : option Q
}.

(** The three refs the selector owns; [currentViseme] is
    [useRef<number | null>(null)]. *)
Record Refs := {
  mouthSmooth : Q;
  visemeTimer : Q;
  currentViseme : option nat
}.

Definition initialRefs : Refs :=
  {| mouthSmooth := 0; visemeTimer := 0; currentViseme := None |}.

(** The destructuring default [viseme = 0]. *)
Definition visemeProp (p : Props) : Q :=
  match viseme p with Some c => c | None => 0 end.

(** [faceMeshes.flatMap((fm) => fm.shapeIndices)]. *)
Definition allShapeIndices (faceMeshes : list FaceMesh) : list nat :=
  flat_map shapeIndices faceMeshes.

(** [THREE.MathUtils.lerp(mouthSmooth.current, clamp(mouth, 0, 1), 0.35)]. *)
Definition smooth (prev raw : Q) : Q :=
  MathUtils.lerp prev (MathUtils.clamp raw 0 1) 0.35.

(** [v > 0.02]. *)
Definition talking (v : Q) : bool := JS.gtb v 0.02.

(** [Math.floor(clamp(x, 0, 0.9999) * allShapeIndices.length)]. *)
Definition palettePos (x : Q) (palette : list nat) : Z :=
  JS.Math_floor (MathUtils.clamp x 0 0.9999 * JS.ofNat (length palette)).

(** [allShapeIndices[pos] || allShapeIndices[0]]. *)
Definition pick (palette : list nat) (pos : Z) : option nat :=
  JS.or_else (JS.index palette pos) (JS.index palette 0%Z).

(** [THREE.MathUtils.lerp(0.24, 0.06, clamp(v, 0, 1))]. *)
Definition interval (v : Q) : Q :=
  MathUtils.lerp 0.24 0.06 (MathUtils.clamp v 0 1).

(** The body of the [useFrame] callback, on the selector's refs.  The code
    between [if (talking)] and the viseme choice switches the body animation:
    it reads [v] and writes [switchTimer], [animIndexRef] and
    [currentAction] only, none of which the selector reads, and is left
    out.  [delta] is the frame's elapsed time. *)
Definition useFrame (faceMeshes : list FaceMesh) (p : Props) (delta : Q)
    (r : Refs) : Refs :=
  let v := smooth (mouthSmooth r) (mouth p) in
  let palette := allShapeIndices faceMeshes in
  if talking v then
    if JS.gtb (visemeProp p) 0 && (0 <? length palette)%nat then
      let pos := palettePos (visemeProp p) palette in
      {| mouthSmooth := v;
         visemeTimer := visemeTimer r;
         currentViseme := pick palette pos |}
    else
      let timer := visemeTimer r + delta in
      if JS.geb timer (interval v) then
        {| mouthSmooth := v;
           visemeTimer := 0;
           currentViseme :=
             if (0 <? length palette)%nat
             then pick palette (palettePos v palette)
             else None |}
      else
        {| mouthSmooth := v;
           visemeTimer := timer;
           currentViseme := currentViseme r |}
  else
    {| mouthSmooth := v; visemeTimer := 0; currentViseme := None |}.

(** One frame's inputs, and the refs after a run of frames. *)
Record Frame := { props : Props; elapsed : Q }.

Definition runFrames (faceMeshes : list FaceMesh) (frames : list Frame)
    (r : Refs) : Refs :=
  fold_left (fun acc f => useFrame faceMeshes (props f) (elapsed f) acc)
            frames r.

(** The per-shape target the consumer blends toward:
    [currentViseme.current === idx ? v : 0]. *)
Definition target (r : Refs) (idx : nat) : Q :=
  match currentViseme r with
  | Some c => if (c =? idx)%nat then mouthSmooth r else 0
  | None => 0
  end.

End AvatarCanvas.

(** ** The Mouth-Sync Engine: [useAudioMouthSync] *)

Module MouthSync.

(** *** The session cache [graph] *)

(** Audio elements, audio contexts and audio nodes are objects; each is
    named by the number that stands for its identity. *)
Abbreviation Audio := nat (only parsing).

(** [{ ctx, src, analyser, freqData }], with the analyser's [fftSize] and
    the length of the [freqData] buffer. *)
Record AudioSession := {
  ctx : nat;
  src : nat;
  analyser : nat;
  fftSize : nat;
  freqDataLength : nat
}.

(** The native objects constructed so far. *)
Inductive Node :=
| AudioContextNode (id : nat)
| MediaElementSourceNode (id : nat) (audio : Audio)
| AnalyserNode (id : nat).

Record World := {
  graph : gmap Audio AudioSession;
  nodes : list Node;
  nextNode : nat
}.

Definition initialWorld : World :=
  {| graph := ∅; nodes := []; nextNode := 0 |}.

(** [analyser.frequencyBinCount] is half of [fftSize]. *)
Definition frequencyBinCount (fft : nat) : nat := Nat.div fft 2.

(** The cache miss branch: [new AudioContext()],
    [ctx.createMediaElementSource(audio)], [ctx.createAnalyser()],
    [analyser.fftSize = 2048], [new Float32Array(frequencyBinCount)] and
    [graph.set(audio, ...)]; the two [connect] calls wire the new nodes and
    construct nothing. *)
Definition createSession (audio : Audio) (w : World) : World * AudioSession :=
  let c := nextNode w in
  let s := S c in
  let a := S s in
  let entry :=
    {| ctx := c; src := s; analyser := a; fftSize := 2048;
       freqDataLength := frequencyBinCount 2048 |} in
  ({| graph := <[audio := entry]> (graph w);
      nodes := nodes w ++ [AudioContextNode c; MediaElementSourceNode s audio;
                           AnalyserNode a];
      nextNode := S a |},
   entry).

(** The head of the effect: [audioRef.current] may be [null], in which case
    the effect returns at once; otherwise the session is looked up and built
    on a miss. *)
Definition attach (audioRef : option Audio) (w : World)
    : World * option AudioSession :=
  match audioRef with
  | None => (w, None)
  | Some audio =>
      match graph w !! audio with
      | Some entry => (w, Some entry)
      | None => let '(w', entry) := createSession audio w in (w', Some entry)
      end
  end.

(** What a component does to the cache over its life: run the effect, or
    run the effect's cleanup, which keeps the audio graph cached. *)
Inductive HookCall :=
| Attach (audioRef : option Audio)
| Cleanup.

Definition hookCall (c : HookCall) (w : World) : World :=
  match c with
  | Attach audioRef => fst (attach audioRef w)
  | Cleanup => w
  end.

Definition runHook (calls : list HookCall) (w : World) : World :=
  fold_left (fun acc c => hookCall c acc) calls w.

(** The tap nodes ([MediaElementAudioSourceNode]) that exist for [audio]. *)
Definition isTapOf (audio : Audio) (n : Node) : bool :=
  match n with
  | MediaElementSourceNode _ a => (a =? audio)%nat
  | _ => false
  end.

Definition tapCount (audio : Audio) (w : World) : nat :=
  length (filter (fun n => isTapOf audio n = true) (nodes w)).

Definition isContext (n : Node) : bool :=
  match n with AudioContextNode _ => true | _ => false end.

Definition isAnalyser (n : Node) : bool :=
  match n with AnalyserNode _ => true | _ => false end.

Definition contextCount (w : World) : nat :=
  length (filter (fun n => isContext n = true) (nodes w)).

Definition analyserCount (w : World) : nat :=
  length (filter (fun n => isAnalyser n = true) (nodes w)).

(** Every cached session has its three native objects, and nothing else
    was constructed. *)
Definition cacheInv (w : World) : Prop :=
  (forall audio : nat,
      tapCount audio w
      = match graph w !! audio with Some _ => 1%nat | None => 0%nat end)
  /\ contextCount w = size (graph w)
  /\ analyserCount w = size (graph w).

(** *** Feature extraction *)

(** The value of a byte of [timeData]. *)
Definition byteValue (b : byte) : Q := inject_Z (Z.of_N (Byte.to_N b)).

(** The loop of [tick]: [sum += Math.abs((timeData[i] - 128) / 128)]. *)
Fixpoint sumLoop (timeData : list byte) (sum : Q) : Q :=
  match timeData with
  | [] => sum
  | b :: rest =>
      let v := (byteValue b - 128) / 128 in
      sumLoop rest (sum + JS.Math_abs v)
  end.

(** [amp]: [Math.min(1, (sum / timeData.length) * 8)]. *)
Definition amp (timeData : list byte) : Q :=
  let sum := sumLoop timeData 0 in
  let avg := sum / JS.ofNat (length timeData) in
  JS.Math_min 1 (avg * 8).

(** An entry of [freqData]. *)
Inductive Decibel :=
| Finite (q : Q)
| NegInfinity.

(** [Math.max(0, freqData[i])]. *)
Definition max0 (x : Decibel) : Q :=
  match x with
  | Finite q => JS.Math_max 0 q
  | NegInfinity => 0
  end.

(** The loop of [computeSpectralCentroid], from index [i] on. *)
Fixpoint centroidLoop (freqData : list Decibel) (i : nat) (num den : Q)
    : Q * Q :=
  match freqData with
  | [] => (num, den)
  | x :: rest =>
      let val := max0 x in
      centroidLoop rest (S i) (num + val * JS.ofNat i) (den + val)
  end.

(** The rest of [computeSpectralCentroid], on the filled buffer. *)
Definition spectralCentroid (freqData : list Decibel) : Q :=
  let '(num, den) := centroidLoop freqData 0 0 0 in
  if Qeq_bool den 0 then 0
  else
    let centroid := num / den in
    centroid / JS.Math_max 1 (JS.ofNat (length freqData) - 1).

(** [analyser.getFloatFrequencyData(freqData)] either throws or fills the
    buffer. *)
Inductive FreqRead :=
| Throws
| Fills (freqData : list Decibel).

(** The outcome of a call that may throw. *)
Inductive Result (A : Type) :=
| Returned (a : A)
| Thrown.
Arguments Returned {A} a.
Arguments Thrown {A}.

Definition computeSpectralCentroid (r : FreqRead) : Result Q :=
  match r with
  | Throws => Thrown
  | Fills freqData => Returned (spectralCentroid freqData)
  end.

(** *** The subscription: the sampling loop and the playback listeners *)

(** What the subscription does to the outside, in the order it does it. *)
Inductive Event :=
| SetMouth (v : Q)
| SetViseme (v : Q)
| CancelFrame (handle : nat)
| RequestFrame (handle : nat)
| Resume.

(** The closure variable [raf], the frame callbacks the browser holds for
    this subscription ([pending]), the browser's next frame handle, whether
    [ctx.state] is ['suspended'], and whether the three listeners are
    registered. *)
Record Sub := {
  raf : nat;
  pending : list nat;
  nextHandle : nat;
  suspended : bool;
  listening : bool
}.

(** A computation on the subscription that logs its events. *)
Definition M (A : Type) : Type := Sub -> A * Sub * list Event.

Definition ret {A : Type} (a : A) : M A := fun s => (a, s, []).

Definition bind {A B : Type} (m : M A) (k : A -> M B) : M B :=
  fun s =>
    let '(a, s1, t1) := m s in
    let '(b, s2, t2) := k a s1 in
    (b, s2, t1 ++ t2).

#[local] Instance sub_ret : MRet M := @ret.
#[local] Instance sub_bind : MBind M := fun A B k m => bind m k.

Definition emit (e : Event) : M unit := fun s => (tt, s, [e]).

Definition when (b : bool) (m : M unit) : M unit := if b then m else ret tt.

Definition stateOf {A : Type} (r : A * Sub * list Event) : Sub := snd (fst r).
Definition traceOf {A : Type} (r : A * Sub * list Event) : list Event := snd r.

(** [requestAnimationFrame(tick)]: a fresh non-zero handle. *)
Definition requestAnimationFrame : M nat :=
  fun s =>
    let h := nextHandle s in
    (h,
     {| raf := raf s; pending := pending s ++ [h]; nextHandle := S h;
        suspended := suspended s; listening := listening s |},
     [RequestFrame h]).

(** [cancelAnimationFrame(handle)]: nothing happens for a handle that is not
    pending. *)
Definition cancelAnimationFrame (h : nat) : M unit :=
  fun s =>
    (tt,
     {| raf := raf s; pending := filter (fun x => x <> h) (pending s);
        nextHandle := nextHandle s; suspended := suspended s;
        listening := listening s |},
     [CancelFrame h]).

Definition getRaf : M nat := fun s => (raf s, s, []).

Definition setRaf (h : nat) : M unit :=
  fun s =>
    (tt,
     {| raf := h; pending := pending s; nextHandle := nextHandle s;
        suspended := suspended s; listening := listening s |},
     []).

(** [if (ctx.state === 'suspended') ctx.resume()]. *)
Definition resumeIfSuspended : M unit :=
  fun s =>
    if suspended s then
      (tt,
       {| raf := raf s; pending := pending s; nextHandle := nextHandle s;
          suspended := false; listening := listening s |},
       [Resume])
    else (tt, s, []).

Definition setListening (b : bool) : M unit :=
  fun s =>
    (tt,
     {| raf := raf s; pending := pending s; nextHandle := nextHandle s;
        suspended := suspended s; listening := b |},
     []).

(** [setMouth] is always supplied; [setViseme] may be absent. *)
Record Callbacks := { hasSetViseme : bool }.

(** [tick], given what the analyser delivers on this frame. *)
Definition tick (cb : Callbacks) (timeData : list byte) (freq : FreqRead)
    : M unit :=
  emit (SetMouth (amp timeData));;
  when (hasSetViseme cb)
    (match computeSpectralCentroid freq with
     | Returned cent => emit (SetViseme cent)
     | Thrown => ret tt
     end);;
  h ← requestAnimationFrame;
  setRaf h.

Definition onPlay : M unit :=
  resumeIfSuspended;;
  r ← getRaf;
  cancelAnimationFrame r;;
  h ← requestAnimationFrame;
  setRaf h.

Definition onPause (cb : Callbacks) : M unit :=
  r ← getRaf;
  cancelAnimationFrame r;;
  emit (SetMouth 0);;
  when (hasSetViseme cb) (emit (SetViseme 0)).

(** The function the effect returns. *)
Definition cleanup (cb : Callbacks) : M unit :=
  setListening false;;
  r ← getRaf;
  cancelAnimationFrame r;;
  emit (SetMouth 0);;
  when (hasSetViseme cb) (emit (SetViseme 0)).

(** The tail of the effect, from [let raf = 0] on: the listeners are added
    and [onPlay] runs at once when the audio is already playing
    ([!audio.paused && audio.currentTime > 0]). *)
Definition subscribe (alreadyPlaying : bool) : M unit :=
  setRaf 0;;
  setListening true;;
  when alreadyPlaying onPlay.

Definition newSub (ctxSuspended : bool) : Sub :=
  {| raf := 0; pending := []; nextHandle := 1; suspended := ctxSuspended;
     listening := false |}.

(** What can happen to a subscription: an event of the audio element, an
    animation frame, on which the browser runs the pending callbacks, or the
    component's detach. *)
Inductive Input :=
| Play
| Pause
| Ended
| AnimationFrame (timeData : list byte) (freq : FreqRead)
| Detach.

Definition takePending : M (list nat) :=
  fun s =>
    (pending s,
     {| raf := raf s; pending := []; nextHandle := nextHandle s;
        suspended := suspended s; listening := listening s |},
     []).

Fixpoint forEach {A : Type} (l : list A) (m : M unit) : M unit :=
  match l with
  | [] => ret tt
  | _ :: rest => m;; forEach rest m
  end.

Definition handle (cb : Callbacks) (i : Input) : M unit :=
  match i with
  | Play => fun s => if listening s then onPlay s else ret tt s
  | Pause | Ended => fun s => if listening s then onPause cb s else ret tt s
  | AnimationFrame timeData freq =>
      due ← takePending;
      forEach due (tick cb timeData freq)
  | Detach => cleanup cb
  end.

(** A run of inputs: the subscription afterwards and everything it did. *)
Fixpoint run (cb : Callbacks) (inputs : list Input) : M unit :=
  match inputs with
  | [] => ret tt
  | i :: rest => handle cb i;; run cb rest
  end.

(** The sampling loop runs while a frame callback is pending. *)
Definition sampling (s : Sub) : bool :=
  match pending s with [] => false | _ => true end.

(** At most one callback is pending, and it is the one [raf] names. *)
Definition oneLoop (s : Sub) : Prop :=
  pending s = [] \/ pending s = [raf s].

(** The pending callbacks after the events of a trace, read off the trace
    alone. *)
Definition replay (p : list nat) (e : Event) : list nat :=
  match e with
  | RequestFrame h => p ++ [h]
  | CancelFrame h => filter (fun x => x <> h) p
  | _ => p
  end.

Definition pendingAfter (p : list nat) (t : list Event) : list nat :=
  fold_left replay t p.

(** The values passed to [setMouth] and to [setViseme] in a trace. *)
Definition mouthValues (t : list Event) : list Q :=
  omap (fun e => match e with SetMouth v => Some v | _ => None end) t.

Definition visemeValues (t : list Event) : list Q :=
  omap (fun e => match e with SetViseme v => Some v | _ => None end) t.

Definition isCancel (e : Event) : bool :=
  match e with CancelFrame _ => true | _ => false end.

Definition isZeroCall (e : Event) : bool :=
  match e with
  | SetMouth v | SetViseme v => Qeq_bool v 0
  | _ => false
  end.

(** [occursBefore a b t]: in [t] an event satisfying [a] comes earlier than
    an event satisfying [b]. *)
Fixpoint occursBefore (a b : Event -> bool) (t : list Event) : bool :=
  match t with
  | [] => false
  | e :: rest => if a e then existsb b rest else occursBefore a b rest
  end.

(** A subscription as the hook sets it up and a run of inputs drives it. *)
Definition session (cb : Callbacks) (ctxSuspended alreadyPlaying : bool)
    (inputs : list Input) : unit * Sub * list Event :=
  (subscribe alreadyPlaying;; run cb inputs) (newSub ctxSuspended).

(** *** The specification's formulas *)

Definition Qsum (l : list Q) : Q := foldr Qplus 0 l.

(** A sample normalised to [[-1,1]]. *)
Definition normalized (b : byte) : Q := (byteValue b - 128) / 128.

(** The mean of the absolute normalised samples, times the gain 8, clamped
    to [[0,1]]. *)
Definition loudnessSpec (timeData : list byte) : Q :=
  let mean :=
    Qsum (map (fun b => Qabs (normalized b)) timeData)
    / JS.ofNat (length timeData) in
  Qmax 0 (Qmin 1 (mean * 8)).

(** The distance of a byte from the centre 128, and its sum over a window. *)
Definition absDeviation (b : byte) : Z := Z.abs (Z.of_N (Byte.to_N b) - 128).

Definition absDeviationSum (timeData : list byte) : Z :=
  foldr Z.add 0%Z (map absDeviation timeData).

(** The sum of [bin_index * max(0, magnitude)] and the sum of
    [max(0, magnitude)] over the bins. *)
Definition weightedEnergy (freqData : list Decibel) : Q :=
  Qsum (imap (fun i m => JS.ofNat i * max0 m) freqData).

(** The same sum when the first bin of the list has index [i]. *)
Definition weightedFrom (i : nat) (l : list Decibel) : Q :=
  Qsum (imap (fun k m => JS.ofNat (i + k) * max0 m) l).

Definition totalEnergy (freqData : list Decibel) : Q :=
  Qsum (map max0 freqData).

End MouthSync.

(** ** Concrete inputs *)

Module Examples.

Import AvatarCanvas MouthSync.

Definition twoShapes : list FaceMesh :=
  [ {| mouthIndex := None; shapeIndices := [5; 7]%nat |} ].

Definition shapeZeroSecond : list FaceMesh :=
  [ {| mouthIndex := None; shapeIndices := [5; 0]%nat |} ].

Definition quietProps : Props := {| mouth := 0; viseme := Some 0.5 |}.
Definition fadingRefs : Refs :=
  {| mouthSmooth := 0.03; visemeTimer := 0.1; currentViseme := Some 7%nat |}.

Definition steadyProps : Props := {| mouth := 0.5; viseme := None |}.
Definition steadyRefs : Refs :=
  {| mouthSmooth := 0.5; visemeTimer := 0.1; currentViseme := Some 7%nat |}.

Definition brightProps : Props := {| mouth := 1; viseme := Some 0.75 |}.

Definition bothCallbacks : Callbacks := {| hasSetViseme := true |}.

(** A 2048-byte window alternating between the centre and one step above
    it. *)
Definition softWindow : list byte :=
  List.concat (repeat [x80; x81] 1024).

Definition fourBins : list Decibel :=
  [Finite 0; Finite 1; NegInfinity; Finite 3].

(** The subscription after a [play] event. *)
Definition playing : Sub :=
  stateOf (session bothCallbacks false false [Play]).

End Examples.

(** ** Runs of the subscription *)

Module Runs.

Import MouthSync.

Definition isDetach (i : Input) : bool :=
  match i with Detach => true | _ => false end.

Definition isPlay (i : Input) : bool :=
  match i with Play => true | _ => false end.

(** The window of an animation frame holds at least one sample (the hook's
    [Uint8Array] has 2048). *)
Definition windowFilled (i : Input) : Prop :=
  match i with
  | AnimationFrame timeData _ => timeData <> []
  | _ => True
  end.

(** A value handed to [setMouth] lies in [[0,1]]. *)
Definition mouthInUnit (e : Event) : Prop :=
  match e with
  | SetMouth v => 0 <= v <= 1
  | _ => True
  end.

Definition unitInterval (v : Q) : Prop := 0 <= v <= 1.

(** What the analyser delivers on one frame, and a run of animation frames
    with nothing in between. *)
Definition Reading : Type := list byte * FreqRead.

Definition frames (readings : list Reading) : list Input :=
  map (fun r => AnimationFrame (fst r) (snd r)) readings.

(** The argument of the [setViseme] call of a tick, if the tick makes one. *)
Definition centroidOf (cb : Callbacks) (freq : FreqRead) : list Q :=
  if hasSetViseme cb then
    match freq with
    | Fills freqData => [spectralCentroid freqData]
    | Throws => []
    end
  else [].

(** The handle [raf] names was issued by the browser, or is the initial 0. *)
Definition issued (s : Sub) : Prop := (raf s < nextHandle s)%nat.

(** Once the listeners are removed nothing is pending. *)
Definition quietWhenDetached (s : Sub) : Prop :=
  listening s = false -> pending s = [].

(** The three invariants together. *)
Definition wellFormed (s : Sub) : Prop :=
  oneLoop s /\ issued s /\ quietWhenDetached s.

End Runs.

(** ** Morph target influences: the end of [useFrame] *)

Module Morph.

Import AvatarCanvas.

(** An entry of [mesh.morphTargetInfluences] as the blend reads it: a number,
    or [None] for what arithmetic turns into [NaN] (a hole, [undefined], or
    [NaN] itself). *)
Definition Influence : Type := option Q.

(** [influences[idx]], and [influences[idx] = x], which fills the gap with
    holes when [idx] lies beyond the end. *)
Definition read (a : list Influence) (idx : nat) : Influence :=
  match a !! idx with
  | Some x => x
  | None => None
  end.

Definition write (a : list Influence) (idx : nat) (x : Influence)
    : list Influence :=
  if (idx <? length a)%nat then <[idx := x]> a
  else a ++ replicate (idx - length a) None ++ [x].

(** [THREE.MathUtils.lerp(influences[idx], target, 0.35)]. *)
Definition blend (x : Influence) (target : Q) : Influence :=
  match x with
  | Some q => Some (MathUtils.lerp q target 0.35)
  | None => None
  end.

(** The body of [shapeIndices.forEach]: the target is [v] for the current
    viseme and 0 for every other shape. *)
Definition blendShape (r : Refs) (a : list Influence) (idx : nat)
    : list Influence :=
  write a idx (blend (read a idx) (target r idx)).

(** A face mesh with its influences array, which may be missing. *)
Record MeshState := {
  face : FaceMesh;
  influences : option (list Influence)
}.

(** The body of [faceMeshes.forEach]. *)
Definition applyMesh (r : Refs) (m : MeshState) : MeshState :=
  match influences m with
  | None => m
  | Some a =>
      if (0 <? length (shapeIndices (face m)))%nat then
        {| face := face m;
           influences := Some (fold_left (blendShape r) (shapeIndices (face m)) a) |}
      else
        match mouthIndex (face m) with
        | Some mi =>
            {| face := face m;
               influences :=
                 Some (write a mi (blend (read a mi) (mouthSmooth r))) |}
        | None => m
        end
  end.

(** The selector's refs together with the meshes it drives, and one frame of
    [useFrame] on both. *)
Definition renderFrame (p : Props) (delta : Q) (st : Refs * list MeshState)
    : Refs * list MeshState :=
  let r := useFrame (map face (snd st)) p delta (fst st) in
  (r, map (applyMesh r) (snd st)).

Definition render (frames : list Frame) (st : Refs * list MeshState)
    : Refs * list MeshState :=
  fold_left (fun acc f => renderFrame (props f) (elapsed f) acc) frames st.

(** Every index the blend may touch lies inside the array, and the array
    holds numbers in [[0,1]]. *)
Definition unitNumber (x : Influence) : Prop :=
  match x with
  | Some q => 0 <= q <= 1
  | None => False
  end.

Definition meshOk (m : MeshState) : Prop :=
  match influences m with
  | None => True
  | Some a =>
      Forall unitNumber a
      /\ Forall (fun idx => (idx < length a)%nat) (shapeIndices (face m))
      /\ match mouthIndex (face m) with
         | Some mi => (mi < length a)%nat
         | None => True
         end
  end.

(** [m'] is what frames have made of [m]: the same shape table; no array
    if [m] has none; otherwise an array of the length of [m]'s that holds
    numbers in [[0,1]]. *)
Definition sameShape (m m' : MeshState) : Prop :=
  face m' = face m
  /\ match influences m, influences m' with
     | Some a, Some a' => length a' = length a /\ Forall unitNumber a'
     | None, None => True
     | _, _ => False
     end.

End Morph.

(** ** Body animation switching: the head of [useFrame] *)

From Stdlib Require Strings.String Strings.Ascii.

Module Animation.

Import Stdlib.Strings.String Stdlib.Strings.Ascii.
Local Open Scope string_scope.

(** [/idle/i.test(name)]: the name contains the letters [idle] in a row, in
    either case.  Only the ASCII letters have the other case of a pattern
    letter. *)
Definition lower (c : ascii) : ascii :=
  let n := nat_of_ascii c in
  if (65 <=? n)%nat && (n <=? 90)%nat then ascii_of_nat (n + 32) else c.

Fixpoint startsWithCI (pat s : string) : bool :=
  match pat, s with
  | EmptyString, _ => true
  | String p pat', String c s' =>
      Ascii.eqb (lower p) (lower c) && startsWithCI pat' s'
  | String _ _, EmptyString => false
  end.

Fixpoint containsCI (pat s : string) : bool :=
  startsWithCI pat s
  || match s with
     | EmptyString => false
     | String _ s' => containsCI pat s'
     end.

Definition isIdleName (n : string) : bool := containsCI "idle" n.

Definition IdleName : string := "Idle".

(** An entry of [actions]: the clip's name and whether the action object is
    there ([act] is not [undefined]). *)
Record Action := {
  name : string;
  present : bool
}.

(** [availableNames = Object.keys(actions)]. *)
Definition availableNames (actions : list Action) : list string :=
  map name actions.

(** [switchTimer], [animIndexRef] and [currentAction]. *)
Record AnimRefs := {
  switchTimer : Q;
  animIndexRef : nat;
  currentAction : option string
}.

Definition initialAnimRefs : AnimRefs :=
  {| switchTimer := 0; animIndexRef := 0; currentAction := None |}.

(** [next === currentAction.current], where [next] is [undefined] when the
    index misses the pool. *)
Definition sameClip (next cur : option string) : bool :=
  match next, cur with
  | Some a, Some b => String.eqb a b
  | _, _ => false
  end.

(** What the frame asks of the mixer: [act.reset().fadeIn(s)...play()] and
    [act.fadeOut(s)]. *)
Inductive AnimEvent :=
| FadeIn (clip : string) (seconds : Q)
| FadeOut (clip : string) (seconds : Q).

(** [Object.entries(actions).forEach(...)]: start [next], fade the others
    out; a missing action object is skipped. *)
Definition crossFade (actions : list Action) (next : option string)
    (seconds : Q) : list AnimEvent :=
  flat_map
    (fun a =>
       if negb (present a) then []
       else if sameClip (Some (name a)) next then [FadeIn (name a) seconds]
       else [FadeOut (name a) seconds])
    actions.

(** [actions['Idle']] is there. *)
Definition hasIdle (actions : list Action) : bool :=
  match List.find (fun a => String.eqb (name a) IdleName) actions with
  | Some a => present a
  | None => false
  end.

(** [currentAction.current && /idle/i.test(currentAction.current)]. *)
Definition onIdleClip (cur : option string) : bool :=
  match cur with
  | Some c => negb (String.eqb c "") && isIdleName c
  | None => false
  end.

(** [availableNames.filter((n) => !/idle/i.test(n))]. *)
Definition pool (actions : list Action) : list string :=
  List.filter (fun n => negb (isIdleName n)) (availableNames actions).

(** [THREE.MathUtils.lerp(4.0, 2.0, clamp(v, 0, 1))]. *)
Definition animInterval (v : Q) : Q :=
  MathUtils.lerp 4 2 (MathUtils.clamp v 0 1).

(** The part of [useFrame] that switches the body animation, for the
    smoothed amplitude [v] of this frame. *)
Definition animFrame (actions : list Action) (v delta : Q) (r : AnimRefs)
    : AnimRefs * list AnimEvent :=
  if AvatarCanvas.talking v then
    let timer := switchTimer r + delta in
    if onIdleClip (currentAction r) || JS.geb timer (animInterval v) then
      let pool := pool actions in
      if (0 <? List.length pool)%nat then
        let nextIdx := Nat.modulo (animIndexRef r) (List.length pool) in
        let next := pool !! nextIdx in
        let '(next, index) :=
          if sameClip next (currentAction r) then
            let altIdx := Nat.modulo (nextIdx + 1) (List.length pool) in
            (pool !! altIdx, S altIdx)
          else (next, S nextIdx) in
        if negb (sameClip next (currentAction r)) then
          ({| switchTimer := 0; animIndexRef := index; currentAction := next |},
           crossFade actions next 0.2)
        else
          ({| switchTimer := 0; animIndexRef := index;
              currentAction := currentAction r |}, [])
      else
        ({| switchTimer := 0; animIndexRef := animIndexRef r;
            currentAction := currentAction r |}, [])
    else
      ({| switchTimer := timer; animIndexRef := animIndexRef r;
          currentAction := currentAction r |}, [])
  else
    if negb (sameClip (Some IdleName) (currentAction r)) && hasIdle actions then
      ({| switchTimer := 0; animIndexRef := animIndexRef r;
          currentAction := Some IdleName |},
       crossFade actions (Some IdleName) 0.25)
    else
      ({| switchTimer := 0; animIndexRef := animIndexRef r;
          currentAction := currentAction r |}, []).

Definition isFadeIn (e : AnimEvent) : bool :=
  match e with FadeIn _ _ => true | FadeOut _ _ => false end.

Definition clipOf (e : AnimEvent) : string :=
  match e with FadeIn c _ | FadeOut c _ => c end.

(** A run of frames, each with its smoothed amplitude and elapsed time. *)
Definition animRun (actions : list Action) (frames : list (Q * Q))
    (r : AnimRefs) : AnimRefs :=
  fold_left (fun acc f => fst (animFrame actions (fst f) (snd f) acc)) frames r.

(** The effect that starts the first clip once the mixer exists: [Idle] when
    it is there, else the first available name when that is not empty. *)
Definition startClip (actions : list Action) (r : AnimRefs)
    : AnimRefs * list AnimEvent :=
  if hasIdle actions then
    ({| switchTimer := switchTimer r; animIndexRef := animIndexRef r;
        currentAction := Some IdleName |},
     [FadeIn IdleName 0.2])
  else
    match actions with
    | a :: _ =>
        if String.eqb (name a) "" then (r, [])
        else
          ({| switchTimer := switchTimer r; animIndexRef := animIndexRef r;
              currentAction := Some (name a) |},
           if present a then [FadeIn (name a) 0.2] else [])
    | [] => (r, [])
    end.

End Animation.

(** ** Discovering the face meshes: the [faceMeshes] memo *)

Module FaceMeshes.

Import Stdlib.Strings.String Stdlib.Strings.Ascii.
Import AvatarCanvas Morph.
Local Open Scope string_scope.

(** [mesh.morphTargetDictionary]: the entries in [Object.keys] order. *)
Definition Dict : Type := list (string * nat).

(** [dict[k]]. *)
Definition get (d : Dict) (k : string) : option nat :=
  match List.find (fun e => String.eqb (fst e) k) d with
  | Some e => Some (snd e)
  | None => None
  end.

Definition TALKING_SHAPES : list string :=
  ["1"; "2"; "3"; "4"; "5"; "6"; "7"; "8"; "9"; "10"; "11"; "21"].

Definition mouthCandidates : list string :=
  ["mouthOpen"; "jawOpen"; "MouthOpen"; "JawOpen"; "viseme_aa"; "viseme_oh";
   "viseme_ee"; "vrc.v_aa"; "A"; "E"; "I"; "O"; "U"].

(** Character classes of the key pattern. *)
Definition isDigit (c : ascii) : bool :=
  let n := nat_of_ascii c in (48 <=? n)%nat && (n <=? 57)%nat.

Definition isWordChar (c : ascii) : bool :=
  let n := nat_of_ascii c in
  isDigit c
  || ((65 <=? n)%nat && (n <=? 90)%nat)
  || ((97 <=? n)%nat && (n <=? 122)%nat)
  || (n =? 95)%nat.

Fixpoint startsWith (pat s : string) : bool :=
  match pat, s with
  | EmptyString, _ => true
  | String p pat', String c s' => Ascii.eqb p c && startsWith pat' s'
  | String _ _, EmptyString => false
  end.

Fixpoint contains (pat s : string) : bool :=
  startsWith pat s
  || match s with
     | EmptyString => false
     | String _ s' => contains pat s'
     end.

(** [v_\d+] somewhere in the key. *)
Fixpoint containsVDigit (s : string) : bool :=
  match s with
  | EmptyString => false
  | String c s' =>
      (Ascii.eqb c "v"
       && match s' with
          | String u (String dgt _) => Ascii.eqb u "_" && isDigit dgt
          | _ => false
          end)
      || containsVDigit s'
  end.

(** From here on: digits, then the end of the key or a character that is not
    a word character. *)
Fixpoint digitsToBoundary (s : string) : bool :=
  match s with
  | EmptyString => true
  | String c s' => if isDigit c then digitsToBoundary s' else negb (isWordChar c)
  end.

(** [\b[0-9]+\b] somewhere in the key; [afterWord] tells whether the
    character before is a word character. *)
Fixpoint containsNumber (afterWord : bool) (s : string) : bool :=
  match s with
  | EmptyString => false
  | String c s' =>
      (negb afterWord && isDigit c && digitsToBoundary s')
      || containsNumber (isWordChar c) s'
  end.

(** [/viseme|vrc\.|phoneme|mouth|jaw|v_\d+|\b[0-9]+\b/.test(k)]. *)
Definition shapeKey (k : string) : bool :=
  contains "viseme" k || contains "vrc." k || contains "phoneme" k
  || contains "mouth" k || contains "jaw" k
  || containsVDigit k || containsNumber false k.

(** The numeric speaking shapes that exist, in [TALKING_SHAPES] order. *)
Definition talkingIndices (d : Dict) : list nat :=
  omap (get d) TALKING_SHAPES.

(** [mouthCandidates.map((n) => dict[n]).find((i) => i !== undefined)]. *)
Definition mouthIndexOf (d : Dict) : option nat :=
  head (omap (get d) mouthCandidates).

(** The keys that look like mouth shapes, in key order. *)
Definition fallbackIndices (d : Dict) : list nat :=
  omap (fun e => if shapeKey (fst e) then get d (fst e) else None) d.

Definition shapeIndicesOf (d : Dict) : list nat :=
  match talkingIndices d with
  | [] => fallbackIndices d
  | found => found
  end.

(** An object of the scene as the traversal sees it. *)
Record SceneObject := {
  isMesh : bool;
  morphTargetDictionary : option Dict;
  morphTargetInfluences : option (list Influence)
}.

(** The body of the traversal callback: the entry pushed to [result], if
    any. *)
Definition faceMeshOf (obj : SceneObject) : option MeshState :=
  if negb (isMesh obj) then None
  else
    match morphTargetDictionary obj, morphTargetInfluences obj with
    | Some d, Some a =>
        let shapes := shapeIndicesOf d in
        let mi := mouthIndexOf d in
        if (0 <? List.length shapes)%nat || bool_decide (is_Some mi) then
          Some {| face := {| mouthIndex := mi; shapeIndices := shapes |};
                  influences := Some a |}
        else None
    | _, _ => None
    end.

Definition buildFaceMeshes (scene : list SceneObject) : list MeshState :=
  omap faceMeshOf scene.

(** The indices the dictionary hands out. *)
Definition indicesOf (d : Dict) : list nat := map snd d.

Definition keysOf (d : Dict) : list string := map fst d.

(** A scene object whose dictionary, if it has one together with an
    influences array, hands out positions of that array, the array holding
    numbers in [[0,1]]. *)
Definition sceneObjectOk (obj : SceneObject) : Prop :=
  match morphTargetDictionary obj, morphTargetInfluences obj with
  | Some d, Some a =>
      Forall unitNumber a
      /\ Forall (fun i => (i < List.length a)%nat) (indicesOf d)
  | _, _ => True
  end.

Definition drivesSomething (m : MeshState) : Prop :=
  shapeIndices (face m) <> [] \/ mouthIndex (face m) <> None.

(** The entry [m] was pushed for the mesh [obj] of the scene: it carries
    the influences array of [obj], and every index it drives is one the
    dictionary of [obj] hands out. *)
Definition recordedFrom (scene : list SceneObject) (m : MeshState) : Prop :=
  exists (obj : SceneObject) (d : Dict) (a : list Influence),
    In obj scene
    /\ faceMeshOf obj = Some m
    /\ isMesh obj = true
    /\ morphTargetDictionary obj = Some d
    /\ morphTargetInfluences obj = Some a
    /\ influences m = Some a
    /\ Forall (fun i => In i (indicesOf d)) (shapeIndices (face m))
    /\ match mouthIndex (face m) with
       | Some mi => In mi (indicesOf d)
       | None => True
       end.

End FaceMeshes.

(** ** The chat box's text helpers *)

Module ChatBox.

(** A JavaScript string: its UTF-16 code units. *)
Definition Text : Type := list N.

Definition LF : N := 10%N.
Definition AMP : N := 38%N.
Definition LT : N := 60%N.
Definition GT : N := 62%N.

(** ["&amp;"], ["&lt;"] and ["&gt;"]. *)
Definition ampEntity : Text := [38; 97; 109; 112; 59]%N.
Definition ltEntity : Text := [38; 108; 116; 59]%N.
Definition gtEntity : Text := [38; 103; 116; 59]%N.

(** [s.replace(/c/g, rep)] for a single code unit [c]. *)
Definition replaceAll (c : N) (rep : Text) (s : Text) : Text :=
  flat_map (fun x => if (x =? c)%N then rep else [x]) s.

(** [esc]. *)
Definition esc (s : Text) : Text :=
  replaceAll GT gtEntity (replaceAll LT ltEntity (replaceAll AMP ampEntity s)).

(** What [esc] turns one code unit into. *)
Definition escUnit (c : N) : Text :=
  if (c =? AMP)%N then ampEntity
  else if (c =? LT)%N then ltEntity
  else if (c =? GT)%N then gtEntity
  else [c].

(** White space and line terminators, which [trim] strips. *)
Definition isWhiteSpace (c : N) : bool :=
  ((9 <=? c) && (c <=? 13))%N
  || (c =? 32)%N || (c =? 160)%N || (c =? 5760)%N
  || ((8192 <=? c) && (c <=? 8202))%N
  || (c =? 8232)%N || (c =? 8233)%N || (c =? 8239)%N || (c =? 8287)%N
  || (c =? 12288)%N || (c =? 65279)%N.

Fixpoint dropSpace (s : Text) : Text :=
  match s with
  | c :: rest => if isWhiteSpace c then dropSpace rest else s
  | [] => []
  end.

(** [s.trim()]. *)
Definition trim (s : Text) : Text := rev (dropSpace (rev (dropSpace s))).

(** [l.trim() !== '']. *)
Definition notBlank (l : Text) : bool :=
  match trim l with [] => false | _ => true end.

(** [text.split('\n')]. *)
Fixpoint splitLines (s : Text) : list Text :=
  match s with
  | [] => [[]]
  | c :: rest =>
      if (c =? LF)%N then [] :: splitLines rest
      else
        match splitLines rest with
        | l :: ls => (c :: l) :: ls
        | [] => [[c]]
        end
  end.

(** [lines.join('\n')]. *)
Fixpoint joinLines (lines : list Text) : Text :=
  match lines with
  | [] => []
  | [l] => l
  | l :: rest => l ++ LF :: joinLines rest
  end.

(** [limitReplyLines]. *)
Definition limitReplyLines (text : Text) (isBrief : bool) : Text :=
  let lines := List.filter notBlank (splitLines text) in
  let max := if isBrief then 15%nat else 5%nat in
  joinLines (take max lines).

(** The lines of a reply that are not blank. *)
Definition replyLines (text : Text) : list Text :=
  List.filter notBlank (splitLines text).

End ChatBox.

(** ** Runs of the selector *)

Module SelectorRuns.

Import AvatarCanvas.

(** The factor [1 - 0.35] by which a frame shrinks the distance between the
    smoothed amplitude and its input, [n] frames in a row. *)
Fixpoint decay (n : nat) : Q :=
  match n with
  | O => 1
  | S k => 0.65 * decay k
  end.

(** A frame whose raw amplitude clamps to [c]. *)
Definition rawIs (c : Q) (f : Frame) : Prop :=
  MathUtils.clamp (mouth (props f)) 0 1 == c.

(** A frame on which the engine reports silence. *)
Definition silent (f : Frame) : Prop := mouth (props f) <= 0.

Definition selectionInPalette (faceMeshes : list FaceMesh) (r : Refs) : Prop :=
  match currentViseme r with
  | Some x => In x (allShapeIndices faceMeshes)
  | None => True
  end.

End SelectorRuns.

(** ** The cache's sessions *)

Module Sessions.

Import MouthSync.

(** The three native objects of a session. *)
Definition nodeIds (e : AudioSession) : list nat := [ctx e; src e; analyser e].

(** A session as [createSession] builds it: window 2048, 1024 bins, three
    consecutive objects, all constructed already, and its tap node taps the
    element it is cached for. *)
Definition sessionOk (w : World) (audio : nat) (e : AudioSession) : Prop :=
  fftSize e = 2048%nat
  /\ freqDataLength e = 1024%nat
  /\ src e = S (ctx e)
  /\ analyser e = S (S (ctx e))
  /\ (analyser e < nextNode w)%nat
  /\ In (MediaElementSourceNode (src e) audio) (nodes w).

Definition apart (e1 e2 : AudioSession) : Prop :=
  (ctx e1 + 3 <= ctx e2)%nat \/ (ctx e2 + 3 <= ctx e1)%nat.

Definition sessionsInv (w : World) : Prop :=
  (forall (audio : nat) (e : AudioSession),
      graph w !! audio = Some e -> sessionOk w audio e)
  /\ (forall (a b : nat) (ea eb : AudioSession),
        a <> b -> graph w !! a = Some ea -> graph w !! b = Some eb ->
        apart ea eb).

End Sessions.

(** ** More concrete inputs *)

Module MoreExamples.

Import AvatarCanvas MouthSync Runs.

Definition loudWindow : list byte := repeat xff 2048.

Definition threeReadings : list Reading :=
  [ (Examples.softWindow, Fills Examples.fourBins);
    (loudWindow, Throws);
    (Examples.softWindow, Fills [NegInfinity; NegInfinity]) ].

Definition brightFrames : list Frame :=
  [ {| props := Examples.brightProps; elapsed := 0.016 |};
    {| props := Examples.steadyProps; elapsed := 0.016 |} ].

Definition silentFrame : Frame :=
  {| props := {| mouth := 0; viseme := Some 0 |}; elapsed := 0.016 |}.

Definition halfFrame : Frame :=
  {| props := Examples.steadyProps; elapsed := 0.016 |}.

Definition restingArray : list Morph.Influence := [Some 0; Some 0.5; Some 1].

Definition shortArray : list Morph.Influence := [Some 0.5].

Definition restingMesh : Morph.MeshState :=
  {| Morph.face := {| mouthIndex := Some 2%nat; shapeIndices := [0; 1]%nat |};
     Morph.influences := Some restingArray |}.

Definition hotRefs : Refs :=
  {| mouthSmooth := 0.8; visemeTimer := 0; currentViseme := Some 1%nat |}.

Definition twoElements : list HookCall :=
  [Attach (Some 7%nat); Cleanup; Attach None; Attach (Some 3%nat);
   Attach (Some 7%nat)].

Definition playThenPause : list Input :=
  [Play; AnimationFrame Examples.softWindow (Fills Examples.fourBins); Pause].

End MoreExamples.

Module AnimationExamples.

Import Stdlib.Strings.String.
Import Animation.
Local Open Scope string_scope.

(** The clips the avatar's animation file is said to hold. *)
Definition nanami : list Action :=
  [ {| name := "Idle"; present := true |};
    {| name := "Talking"; present := true |};
    {| name := "Talking2"; present := true |};
    {| name := "Thinking"; present := true |} ].

Definition resting : AnimRefs :=
  {| switchTimer := 0; animIndexRef := 0; currentAction := Some "Idle" |}.

Definition chatting : AnimRefs :=
  {| switchTimer := 3.99; animIndexRef := 1; currentAction := Some "Talking" |}.

Definition talkingClip : string := "Talking".
Definition talking2Clip : string := "Talking2".

End AnimationExamples.

Module FaceMeshExamples.

Import Stdlib.Strings.String.
Import FaceMeshes.
Local Open Scope string_scope.

(** A head whose numeric shapes come after two named ones. *)
Definition headDict : Dict :=
  [ ("1", 2%nat); ("2", 3%nat); ("mouthOpen", 0%nat); ("blink", 1%nat) ].

Definition head : SceneObject :=
  {| isMesh := true;
     morphTargetDictionary := Some headDict;
     morphTargetInfluences := Some [Some 0; Some 0; Some 0; Some 0] |}.

(** A mesh with named visemes only. *)
Definition visemeDict : Dict :=
  [ ("blink", 0%nat); ("viseme_aa", 1%nat); ("v_12", 2%nat); ("x2", 3%nat);
    ("shape 7", 4%nat) ].

End FaceMeshExamples.

Module ChatExamples.

Import ChatBox.

(** ["a<b&c"] and ["x\n\n y \nz"]. *)
Definition markup : Text := [97; 60; 98; 38; 99]%N.
Definition gappy : Text := [120; 10; 10; 32; 121; 32; 10; 122]%N.

End ChatExamples.

(** ** Binary64 arithmetic

    The numbers of the program are IEEE 754 binary64 values and every
    operation rounds to nearest, ties to even.  The modules above read the
    arithmetic exactly; this one rounds.  A finite binary64 value is the
    rational it denotes, so the result of an operation is the exact result
    sent through [round].  The sign of zero is not kept: no operation of
    the embedded code tells the two zeros apart ([!den], [Math.max] and the
    comparisons treat them alike and nothing divides by zero). *)

Module Binary64.

Import MouthSync.

Definition pow2 (e : Z) : Q := 2 ^ e.

(** The exponent of a positive rational, [floor (log2 q)]. *)
Definition ilog2 (q : Q) : Z :=
  let e0 := (Z.log2 (Qnum q) - Z.log2 (Zpos (Qden q)))%Z in
  if Qle_bool (pow2 e0) q then e0 else (e0 - 1)%Z.

(** The nearest integer, ties to even. *)
Definition nearest (x : Q) : Z :=
  let f := Qfloor x in
  match Qcompare (x - inject_Z f) (1 # 2) with
  | Lt => f
  | Gt => (f + 1)%Z
  | Eq => if Z.even f then f else (f + 1)%Z
  end.

(** The unit in the last place: 53 bits of precision, and the exponent
    never below -1022 (the subnormal range). *)
Definition ulp (q : Q) : Q := pow2 (Z.max (ilog2 (Qabs q)) (-1022) - 52).

(** The nearest multiple of the unit in the last place. *)
Definition round (q : Q) : Q :=
  if Qeq_bool q 0 then 0
  else Qred (inject_Z (nearest (q / ulp q)) * ulp q).

Inductive number :=
| Fin (q : Q)
| PInf
| NInf
| NaN.

(** The binary64 value of an exact result: it overflows to an infinity
    when it rounds to [2 ^ 1024] or beyond. *)
Definition fin (q : Q) : number :=
  let r := round q in
  if Qle_bool (pow2 1024) r then PInf
  else if Qle_bool r (- pow2 1024) then NInf
  else Fin r.

(** A decimal literal of the source text. *)
Definition lit (q : Q) : number := fin q.

(** A length or an index: an integer below [2 ^ 53], which is a binary64
    value as it stands. *)
Definition ofNat (n : nat) : number := Fin (JS.ofNat n).

Definition sign (a : number) : comparison :=
  match a with
  | Fin x => Qcompare x 0
  | PInf => Gt
  | NInf => Lt
  | NaN => Eq
  end.

Definition times (c d : comparison) : comparison :=
  match c, d with
  | Eq, _ | _, Eq => Eq
  | Lt, Lt | Gt, Gt => Gt
  | _, _ => Lt
  end.

(** The infinity of a sign; an undetermined sign ([0 * Infinity], [0 / 0])
    gives [NaN]. *)
Definition signed (c : comparison) : number :=
  match c with
  | Lt => NInf
  | Gt => PInf
  | Eq => NaN
  end.

Definition neg (a : number) : number :=
  match a with
  | Fin x => Fin (- x)
  | PInf => NInf
  | NInf => PInf
  | NaN => NaN
  end.

(** [a + b]. *)
Definition add (a b : number) : number :=
  match a, b with
  | NaN, _ | _, NaN => NaN
  | PInf, NInf | NInf, PInf => NaN
  | PInf, _ | _, PInf => PInf
  | NInf, _ | _, NInf => NInf
  | Fin x, Fin y => fin (x + y)
  end.

(** [a - b]. *)
Definition sub (a b : number) : number := add a (neg b).

(** [a * b]. *)
Definition mul (a b : number) : number :=
  match a, b with
  | NaN, _ | _, NaN => NaN
  | Fin x, Fin y => fin (x * y)
  | _, _ => signed (times (sign a) (sign b))
  end.

(** [a / b]; a zero divisor counts as [+0]. *)
Definition div (a b : number) : number :=
  match a, b with
  | NaN, _ | _, NaN => NaN
  | Fin x, Fin y =>
      if Qeq_bool y 0 then signed (Qcompare x 0) else fin (x / y)
  | Fin _, _ => Fin 0
  | _, Fin y =>
      signed (times (sign a) (if Qeq_bool y 0 then Gt else Qcompare y 0))
  | _, _ => NaN
  end.

(** [a < b]: false when either is [NaN]. *)
Definition ltb (a b : number) : bool :=
  match a, b with
  | NaN, _ | _, NaN => false
  | Fin x, Fin y => negb (Qle_bool y x)
  | NInf, NInf => false
  | NInf, _ => true
  | PInf, PInf => false
  | _, PInf => true
  | _, _ => false
  end.

(** [Math.max] and [Math.min]: [NaN] when either argument is. *)
Definition Math_max (a b : number) : number :=
  match a, b with
  | NaN, _ | _, NaN => NaN
  | _, _ => if ltb a b then b else a
  end.

Definition Math_min (a b : number) : number :=
  match a, b with
  | NaN, _ | _, NaN => NaN
  | _, _ => if ltb b a then b else a
  end.

(** [!x] on a number: zero and [NaN] are falsy. *)
Definition falsy (x : number) : bool :=
  match x with
  | Fin q => Qeq_bool q 0
  | NaN => true
  | _ => false
  end.

(** [THREE.MathUtils.clamp] and [THREE.MathUtils.lerp]. *)
Definition clamp (value min max : number) : number :=
  Math_max min (Math_min max value).

Definition lerp (x y t : number) : number :=
  add (mul (sub (Fin 1) t) x) (mul t y).

(** [THREE.MathUtils.lerp(0.24, 0.06, clamp(v, 0, 1))]. *)
Definition interval (v : number) : number :=
  lerp (lit 0.24) (lit 0.06) (clamp v (Fin 0) (Fin 1)).

(** [THREE.MathUtils.lerp(mouthSmooth.current, clamp(mouth, 0, 1), 0.35)]. *)
Definition smooth (prev raw : number) : number :=
  lerp prev (clamp raw (Fin 0) (Fin 1)) (lit 0.35).

(** [mouthSmooth.current] after a run of frames with these [mouth] props. *)
Definition smoothRun (raws : list number) (prev : number) : number :=
  fold_left smooth raws prev.

(** The loop of [computeSpectralCentroid], from index [i] on. *)
Fixpoint centroidLoop (freqData : list number) (i : nat) (num den : number)
    : number * number :=
  match freqData with
  | [] => (num, den)
  | x :: rest =>
      let val := Math_max (Fin 0) x in
      centroidLoop rest (S i) (add num (mul val (ofNat i))) (add den val)
  end.

(** The rest of [computeSpectralCentroid], on the filled buffer. *)
Definition spectralCentroid (freqData : list number) : number :=
  let '(num, den) := centroidLoop freqData 0 (Fin 0) (Fin 0) in
  if falsy den then Fin 0
  else
    let centroid := div num den in
    div centroid (Math_max (Fin 1) (sub (ofNat (length freqData)) (Fin 1))).

(** [analyser.getFloatFrequencyData(freqData)] either throws or fills the
    buffer; an entry of the [Float32Array] is any of the four kinds of
    number. *)
Inductive FreqRead :=
| Throws
| Fills (freqData : list number).

Definition computeSpectralCentroid (r : FreqRead) : Result number :=
  match r with
  | Throws => Thrown
  | Fills freqData => Returned (spectralCentroid freqData)
  end.

(** The viseme part of [tick]: the values it passes to [setViseme] on one
    frame. *)
Definition tickViseme (cb : Callbacks) (freq : FreqRead) : list number :=
  if hasSetViseme cb then
    match computeSpectralCentroid freq with
    | Returned cent => [cent]
    | Thrown => []
    end
  else [].

(** A decibel entry as a number. *)
Definition ofDecibel (m : Decibel) : number :=
  match m with
  | Finite q => Fin q
  | NegInfinity => NInf
  end.

(** A bin that holds minus infinity or a finite value of the range of a
    Float32: not above zero, or from the least positive value [2 ^ -149]
    up to [2 ^ 128]. *)
Definition float32Bin (m : Decibel) : Prop :=
  match m with
  | Finite q => q <= 0 \/ pow2 (-149) <= q <= pow2 128
  | NegInfinity => True
  end.

(** The unit roundoff and the half of the least subnormal step. *)
Definition u : Q := pow2 (-53).
Definition eta : Q := pow2 (-1075).

(** How far [k] roundings in a row can scale a value up, and down. *)
Definition up (k : nat) : Q := 1 + 2 * JS.ofNat k * u.
Definition lo (k : nat) : Q := 1 - JS.ofNat k * u.

(** The accumulators of the centroid loop against the exact sums [W] and
    [E] after [i] bins. *)
Definition loopInv (i : nat) (n d W E : Q) : Prop :=
  lo i * E <= d <= up i * E
  /\ lo (2 * i) * W <= n <= up (2 * i) * W
  /\ (E == 0 \/ pow2 (-149) <= E)
  /\ (W == 0 \/ pow2 (-149) <= W)
  /\ E <= JS.ofNat i * pow2 128
  /\ W <= 1024 * E.

(** The relative distance the binary64 centroid of at most 1024 bins can
    have from the exact one. *)
Definition eps : Q := pow2 (-40).


End Binary64.

Module Binary64Examples.

Import Binary64.

(** A window whose absolute deviations from 128 sum to 1467, and the
    loudness the engine publishes for it, [1467 / 32768]
    ([0.044769287109375]). *)
Definition faintWindow : list byte :=
  replicate 1467 Byte.x81 ++ replicate 581 Byte.x80.

Definition faintMouth : Q := 1467 # 32768.

(** A hundred frames at that loudness from the initial refs, and the same
    after a hundred frames at full loudness. *)
Definition fromSilence : list number := replicate 100 (Fin faintMouth).

Definition fromLoud : list number :=
  replicate 100 (Fin 1) ++ replicate 100 (Fin faintMouth).

(** The smoothed amplitudes the two runs end with,
    [0.044769287109374986] and [0.044769287109375], and their switching
    intervals, [0.23194152832031248] and [0.2319415283203125]. *)
Definition quieter : Q := 3225967115894783 # 72057594037927936.
Definition louder : Q := 1467 # 32768.
Definition quieterInterval : Q := 8356574244120821 # 36028797018963968.
Definition louderInterval : Q := 4178287122060411 # 18014398509481984.

(** Two adjacent binary64 amplitudes, [0.33732] and
    [0.33732000000000006], and their switching intervals,
    [0.17928239999999995] and [0.17928239999999998]. *)
Definition below : Q := 6076616905218463 # 18014398509481984.
Definition above : Q := 189894278288077 # 562949953421312.
Definition belowInterval : Q := 100927018729261 # 562949953421312.
Definition aboveInterval : Q := 6459329198672705 # 36028797018963968.




End Binary64Examples.

(** * Properties *)

(** ** Numbers *)

Section Numbers.

Lemma gtb_true (a b : Q) : JS.gtb a b = true <-> b < a.
Proof.
  unfold JS.gtb, JS.ltb. rewrite negb_true_iff.
  split; intros H.
  - apply Qnot_le_lt. intros Hle. apply Qle_bool_iff in Hle. congruence.
  - destruct (Qle_bool a b) eqn:E; [|reflexivity].
    apply Qle_bool_iff in E. apply Qle_not_lt in E. contradiction.
Qed.

Lemma gtb_false (a b : Q) : JS.gtb a b = false <-> a <= b.
Proof.
  unfold JS.gtb, JS.ltb. rewrite negb_false_iff. apply Qle_bool_iff.
Qed.

Lemma geb_true (a b : Q) : JS.geb a b = true <-> b <= a.
Proof. unfold JS.geb. apply Qle_bool_iff. Qed.

Lemma geb_false (a b : Q) : JS.geb a b = false <-> a < b.
Proof.
  unfold JS.geb. split; intros H.
  - apply Qnot_le_lt. intros Hle. apply Qle_bool_iff in Hle. congruence.
  - destruct (Qle_bool b a) eqn:E; [|reflexivity].
    apply Qle_bool_iff in E. apply Qle_not_lt in E. contradiction.
Qed.

Lemma clamp_bounds (v lo hi : Q) :
  lo <= hi -> lo <= MathUtils.clamp v lo hi <= hi.
Proof.
  intros Hlh. unfold MathUtils.clamp, JS.Math_max, JS.Math_min.
  destruct (Q.min_spec hi v) as [[? Hm]|[? Hm]];
    destruct (Q.max_spec lo (Qmin hi v)) as [[? HM]|[? HM]];
    rewrite HM; try rewrite Hm; split; lra.
Qed.

Lemma clamp_id (v lo hi : Q) :
  lo <= v <= hi -> MathUtils.clamp v lo hi == v.
Proof.
  intros [Hl Hh]. unfold MathUtils.clamp, JS.Math_max, JS.Math_min.
  destruct (Q.min_spec hi v) as [[? Hm]|[? Hm]];
    destruct (Q.max_spec lo (Qmin hi v)) as [[? HM]|[? HM]];
    rewrite HM; try rewrite Hm; lra.
Qed.

Lemma clamp_monotone (v1 v2 lo hi : Q) :
  v1 <= v2 -> MathUtils.clamp v1 lo hi <= MathUtils.clamp v2 lo hi.
Proof.
  intros Hv. unfold MathUtils.clamp, JS.Math_max, JS.Math_min.
  destruct (Q.min_spec hi v1) as [[? Hm1]|[? Hm1]];
    destruct (Q.min_spec hi v2) as [[? Hm2]|[? Hm2]];
    destruct (Q.max_spec lo (Qmin hi v1)) as [[? HM1]|[? HM1]];
    destruct (Q.max_spec lo (Qmin hi v2)) as [[? HM2]|[? HM2]];
    rewrite HM1, HM2; try rewrite Hm1; try rewrite Hm2; lra.
Qed.

(** [lerp] written as a step from [x] toward [y]. *)
Lemma lerp_step (x y t : Q) : MathUtils.lerp x y t == x + t * (y - x).
Proof. unfold MathUtils.lerp. ring. Qed.

Lemma floor_scaled_range (c : Q) (n : Z) :
  0 <= c -> c < 1 -> (0 < n)%Z ->
  (0 <= Qfloor (c * inject_Z n) < n)%Z.
Proof.
  intros Hc0 Hc1 Hn.
  assert (Hn' : 0 < inject_Z n) by (rewrite (Zlt_Qlt 0 n) in Hn; exact Hn).
  pose proof (Qfloor_le (c * inject_Z n)) as Hlo.
  pose proof (Qlt_floor (c * inject_Z n)) as Hhi.
  assert (H0 : 0 <= c * inject_Z n) by (apply Qmult_le_0_compat; lra).
  assert (H1 : c * inject_Z n < inject_Z n) by nra.
  split.
  - assert (H : inject_Z 0 < inject_Z (Qfloor (c * inject_Z n) + 1)).
    { change (inject_Z 0) with 0. lra. }
    rewrite <- Zlt_Qlt in H. lia.
  - rewrite Zlt_Qlt. lra.
Qed.

End Numbers.

(** ** The Viseme Selector *)

Section Selector.

Import AvatarCanvas.

Variable faceMeshes : list FaceMesh.

(** Every branch of [useFrame] stores the freshly smoothed amplitude. *)
Lemma useFrame_mouthSmooth (p : Props) (delta : Q) (r : Refs) :
  mouthSmooth (useFrame faceMeshes p delta r)
  = smooth (mouthSmooth r) (mouth p).
Proof.
  unfold useFrame.
  destruct (talking _); [|reflexivity].
  destruct (_ && _); [reflexivity|].
  destruct (JS.geb _ _); reflexivity.
Qed.

Lemma smooth_bounds (prev raw : Q) :
  0 <= prev <= 1 -> 0 <= smooth prev raw <= 1.
Proof.
  intros Hp. unfold smooth.
  pose proof (clamp_bounds raw 0 1 ltac:(lra)) as Hc.
  rewrite lerp_step. split; lra.
Qed.

Lemma runFrames_bounds (frames : list Frame) (r : Refs) :
  0 <= mouthSmooth r <= 1 ->
  0 <= mouthSmooth (runFrames faceMeshes frames r) <= 1.
Proof.
  revert r. induction frames as [|f frames IH]; intros r Hr; [exact Hr|].
  cbn [runFrames fold_left]. apply IH.
  rewrite useFrame_mouthSmooth. apply smooth_bounds, Hr.
Qed.

(** C10.  The smoothed amplitude starts at 0, each frame replaces it by
    [v + 0.35 * (clamp(raw, 0, 1) - v)], and after any finite run of frames,
    whatever the raw amplitudes (and the other inputs) were, it lies in
    [[0,1]]. *)
Theorem mouthSmooth_in_unit_interval :
  mouthSmooth initialRefs = 0
  /\ (forall (p : Props) (delta : Q) (r : Refs),
        mouthSmooth (useFrame faceMeshes p delta r)
        == mouthSmooth r
           + 0.35 * (MathUtils.clamp (mouth p) 0 1 - mouthSmooth r))
  /\ (forall frames : list Frame,
        0 <= mouthSmooth (runFrames faceMeshes frames initialRefs) <= 1).
Proof.
  split; [reflexivity|]. split.
  - intros p delta r. rewrite useFrame_mouthSmooth. apply lerp_step.
  - intros frames. apply runFrames_bounds. cbn. split; lra.
Qed.

Lemma interval_linear (v : Q) :
  interval v == 0.24 - 0.18 * MathUtils.clamp v 0 1.
Proof. unfold interval. rewrite lerp_step. ring. Qed.

(** In exact arithmetic the switching interval is the interpolation from
    0.24 at [v = 0] to 0.06 at [v = 1] of [clamp(v, 0, 1)], a louder
    amplitude never gets a longer interval, and at [v = 0.5] the interval is
    0.15.  The interval the program computes in binary64 is
    treated with the binary64 arithmetic below. *)
Lemma interval_antitone_exact (v1 v2 : Q) :
  0.02 < v1 -> v1 < v2 ->
  interval v2 <= interval v1
  /\ interval v1 == 0.24 + MathUtils.clamp v1 0 1 * (0.06 - 0.24)
  /\ interval v2 == 0.24 + MathUtils.clamp v2 0 1 * (0.06 - 0.24)
  /\ interval 0 == 0.24
  /\ interval 1 == 0.06
  /\ interval 0.5 == 0.15.
Proof.
  intros _ Hlt.
  assert (Hc : MathUtils.clamp v1 0 1 <= MathUtils.clamp v2 0 1)
    by (apply clamp_monotone; lra).
  repeat split; try reflexivity.
  - rewrite !interval_linear. lra.
  - rewrite interval_linear. ring.
  - rewrite interval_linear. ring.
Qed.

(** C7.  On a tick whose smoothed amplitude is at most 0.02 the cadence
    timer is 0 and no viseme is selected when the tick ends, whatever they
    were before. *)
Theorem not_talking_resets (p : Props) (delta : Q) (r : Refs) :
  mouthSmooth (useFrame faceMeshes p delta r) <= 0.02 ->
  visemeTimer (useFrame faceMeshes p delta r) = 0
  /\ currentViseme (useFrame faceMeshes p delta r) = None.
Proof.
  rewrite useFrame_mouthSmooth. intros Hv.
  apply gtb_false in Hv.
  unfold useFrame, talking. rewrite Hv. split; reflexivity.
Qed.

(** C9.  On a talking tick that takes the cadence path (no centroid above 0,
    or no palette to map it to) and whose advanced timer is still below the
    interval, the viseme selection is the one of the previous tick. *)
Theorem cadence_wait_keeps_viseme (p : Props) (delta : Q) (r : Refs) :
  0.02 < mouthSmooth (useFrame faceMeshes p delta r) ->
  visemeProp p <= 0 \/ allShapeIndices faceMeshes = [] ->
  visemeTimer r + delta
    < interval (mouthSmooth (useFrame faceMeshes p delta r)) ->
  currentViseme (useFrame faceMeshes p delta r) = currentViseme r
  /\ visemeTimer (useFrame faceMeshes p delta r) = visemeTimer r + delta.
Proof.
  rewrite useFrame_mouthSmooth. intros Hv Hno Ht.
  apply gtb_true in Hv. apply geb_false in Ht.
  unfold useFrame, talking. rewrite Hv.
  assert (Hc : JS.gtb (visemeProp p) 0
               && (0 <? length (allShapeIndices faceMeshes))%nat = false).
  { destruct Hno as [Hle|Hnil].
    - apply gtb_false in Hle. rewrite Hle. reflexivity.
    - rewrite Hnil. apply andb_false_r. }
  rewrite Hc, Ht. split; reflexivity.
Qed.

End Selector.

Lemma not_talking_resets_witness :
  AvatarCanvas.visemeTimer
    (AvatarCanvas.useFrame Examples.twoShapes Examples.quietProps 0.016
       Examples.fadingRefs) = 0
  /\ AvatarCanvas.currentViseme
       (AvatarCanvas.useFrame Examples.twoShapes Examples.quietProps 0.016
          Examples.fadingRefs) = None.
Proof.
  apply (not_talking_resets Examples.twoShapes Examples.quietProps 0.016
           Examples.fadingRefs).
  vm_compute. discriminate.
Defined.

Lemma cadence_wait_keeps_viseme_witness :
  AvatarCanvas.currentViseme
    (AvatarCanvas.useFrame Examples.twoShapes Examples.steadyProps 0.016
       Examples.steadyRefs) = Some 7%nat
  /\ AvatarCanvas.visemeTimer
       (AvatarCanvas.useFrame Examples.twoShapes Examples.steadyProps 0.016
          Examples.steadyRefs) = 0.1 + 0.016.
Proof.
  apply (cadence_wait_keeps_viseme Examples.twoShapes Examples.steadyProps
           0.016 Examples.steadyRefs).
  - reflexivity.
  - left. vm_compute. discriminate.
  - reflexivity.
Defined.

Section CentroidPath.

Import AvatarCanvas.

Variable faceMeshes : list FaceMesh.

Lemma palettePos_in_range (x : Q) (palette : list nat) :
  palette <> [] ->
  (0 <= palettePos x palette < Z.of_nat (length palette))%Z.
Proof.
  intros Hne. unfold palettePos, JS.Math_floor.
  pose proof (clamp_bounds x 0 0.9999 ltac:(lra)) as [Hlo Hhi].
  apply floor_scaled_range; [exact Hlo|lra|].
  destruct palette; [congruence|cbn [length]; lia].
Qed.

(** With a palette position inside the palette, [pick] is the entry at that
    position unless the entry is the shape index 0: then it is the entry at
    position 0. *)
Lemma pick_in_range (palette : list nat) (pos : Z) (x : nat) :
  (0 <= pos)%Z -> palette !! Z.to_nat pos = Some x ->
  pick palette pos = if (x =? 0)%nat then palette !! 0%nat else Some x.
Proof.
  intros Hpos Hx. unfold pick, JS.index.
  destruct (Z.ltb_spec pos 0); [lia|].
  rewrite Hx. cbn. destruct x; reflexivity.
Qed.

(** On a talking tick with a centroid above 0 and a palette, the cadence
    timer plays no part: the position is computed from the centroid alone,
    lies inside the palette, and the selection is [pick] at it. *)
Lemma centroid_path (p : Props) (delta : Q) (r : Refs) :
  0.02 < mouthSmooth (useFrame faceMeshes p delta r) ->
  0 < visemeProp p ->
  allShapeIndices faceMeshes <> [] ->
  let palette := allShapeIndices faceMeshes in
  let pos := palettePos (visemeProp p) palette in
  (0 <= pos < Z.of_nat (length palette))%Z
  /\ currentViseme (useFrame faceMeshes p delta r) = pick palette pos
  /\ visemeTimer (useFrame faceMeshes p delta r) = visemeTimer r.
Proof.
  rewrite useFrame_mouthSmooth. intros Hv Hc Hne palette pos.
  split; [apply palettePos_in_range, Hne|].
  apply gtb_true in Hv. apply gtb_true in Hc.
  unfold useFrame, talking. rewrite Hv, Hc.
  assert (Hl : (0 <? length (allShapeIndices faceMeshes))%nat = true).
  { apply Nat.ltb_lt. destruct (allShapeIndices faceMeshes);
      [congruence|cbn; lia]. }
  rewrite Hl. split; reflexivity.
Qed.

(** The selection is the palette entry at the computed position whenever
    that entry is not the shape index 0. *)
Lemma centroid_path_nonzero_entry (p : Props) (delta : Q) (r : Refs) (x : nat) :
  0.02 < mouthSmooth (useFrame faceMeshes p delta r) ->
  0 < visemeProp p ->
  allShapeIndices faceMeshes
    !! Z.to_nat (palettePos (visemeProp p) (allShapeIndices faceMeshes))
    = Some x ->
  x <> 0%nat ->
  currentViseme (useFrame faceMeshes p delta r) = Some x.
Proof.
  intros Hv Hc Hx Hnz.
  assert (Hne : allShapeIndices faceMeshes <> []).
  { intros E. rewrite E in Hx. discriminate. }
  destruct (centroid_path p delta r Hv Hc Hne) as ([Hpos _] & Hcur & _).
  rewrite Hcur, (pick_in_range _ _ x Hpos Hx).
  destruct x; [congruence|reflexivity].
Qed.

End CentroidPath.

(** C5.  The palette [[5; 0]] with centroid 0.75 on a talking tick: the
    position is [floor(0.75 * 2) = 1], inside the palette, and the entry at
    position 1 is the shape index 0; the selection is the entry at position 0,
    shape 5, and shape 0 gets no influence target. *)
Theorem centroid_pick_skips_shape_zero :
  let r := AvatarCanvas.useFrame Examples.shapeZeroSecond Examples.brightProps
             0.016 AvatarCanvas.initialRefs in
  AvatarCanvas.talking (AvatarCanvas.mouthSmooth r) = true
  /\ AvatarCanvas.allShapeIndices Examples.shapeZeroSecond = [5; 0]%nat
  /\ AvatarCanvas.palettePos 0.75 [5; 0]%nat = 1%Z
  /\ [5; 0]%nat !! 1%nat = Some 0%nat
  /\ AvatarCanvas.currentViseme r = Some 5%nat
  /\ AvatarCanvas.currentViseme r <> [5; 0]%nat !! 1%nat
  /\ AvatarCanvas.target r 0%nat = 0.
Proof.
  vm_compute. repeat split; congruence.
Qed.

(** ** Loudness *)

Section Loudness.

Import MouthSync.

Lemma ofNat_S (n : nat) : JS.ofNat (S n) == JS.ofNat n + 1.
Proof.
  unfold JS.ofNat. rewrite Nat2Z.inj_succ, <- Z.add_1_r, inject_Z_plus.
  reflexivity.
Qed.

Lemma ofNat_nonneg (n : nat) : 0 <= JS.ofNat n.
Proof.
  unfold JS.ofNat. change 0 with (inject_Z 0). rewrite <- Zle_Qle. lia.
Qed.

Lemma ofNat_pos (n : nat) : (0 < n)%nat -> 0 < JS.ofNat n.
Proof.
  intros H. unfold JS.ofNat. change 0 with (inject_Z 0).
  rewrite <- Zlt_Qlt. lia.
Qed.

Lemma div_nonneg (a b : Q) : 0 <= a -> 0 < b -> 0 <= a / b.
Proof. intros Ha Hb. apply Qle_shift_div_l; [exact Hb|lra]. Qed.

Lemma Qsum_cons (x : Q) (l : list Q) : Qsum (x :: l) = x + Qsum l.
Proof. reflexivity. Qed.

(** The accumulating loop adds the sum of the absolute normalised samples
    to its accumulator. *)
Lemma sumLoop_spec (timeData : list byte) (acc : Q) :
  sumLoop timeData acc
  == acc + Qsum (map (fun b => Qabs (normalized b)) timeData).
Proof.
  revert acc. induction timeData as [|b rest IH]; intros acc.
  - cbn. ring.
  - cbn [sumLoop map]. rewrite IH, Qsum_cons.
    unfold JS.Math_abs, normalized. ring.
Qed.

Lemma absSum_nonneg (timeData : list byte) :
  0 <= Qsum (map (fun b => Qabs (normalized b)) timeData).
Proof.
  induction timeData as [|b rest IH]; [cbn; lra|].
  cbn [map]. rewrite Qsum_cons.
  pose proof (Qabs_nonneg (normalized b)). lra.
Qed.

Lemma amp_spec (timeData : list byte) :
  timeData <> [] ->
  amp timeData == loudnessSpec timeData /\ 0 <= amp timeData <= 1.
Proof.
  intros Hne. unfold amp, loudnessSpec, JS.Math_min.
  assert (Hn : 0 < JS.ofNat (length timeData)).
  { apply ofNat_pos. destruct timeData; [congruence|cbn; lia]. }
  pose proof (absSum_nonneg timeData) as Hs.
  assert (Hsum : sumLoop timeData 0
                 == Qsum (map (fun b => Qabs (normalized b)) timeData))
    by (rewrite sumLoop_spec; ring).
  rewrite Hsum.
  set (total := Qsum (map (fun b => Qabs (normalized b)) timeData)) in *.
  set (n := JS.ofNat (length timeData)) in *.
  assert (Havg : 0 <= total / n) by (apply div_nonneg; assumption).
  destruct (Q.min_spec 1 (total / n * 8)) as [[? Hm]|[? Hm]];
    destruct (Q.max_spec 0 (Qmin 1 (total / n * 8))) as [[? HM]|[? HM]];
    rewrite HM; rewrite ?Hm; repeat split; lra.
Qed.

(** The loudness arithmetic stays on the grid of multiples of [1/128]: the
    sum is an integer count of 128ths, at most 128 per sample, so for a
    2048-byte window no value of the loop needs more than 19 bits and
    binary64 arithmetic computes it without rounding. *)
Lemma normalized_abs (b : byte) :
  Qabs (normalized b) == inject_Z (absDeviation b) / 128.
Proof. destruct b; reflexivity. Qed.

Lemma absDeviation_range (b : byte) : (0 <= absDeviation b <= 128)%Z.
Proof.
  unfold absDeviation. pose proof (Byte.to_N_bounded b). lia.
Qed.

Lemma absDeviationSum_range (timeData : list byte) :
  (0 <= absDeviationSum timeData <= 128 * Z.of_nat (length timeData))%Z.
Proof.
  induction timeData as [|b rest IH]; [cbn; lia|].
  unfold absDeviationSum in *. cbn [map foldr length].
  pose proof (absDeviation_range b). lia.
Qed.

Lemma sumLoop_dyadic (timeData : list byte) :
  sumLoop timeData 0 == inject_Z (absDeviationSum timeData) / 128.
Proof.
  rewrite sumLoop_spec, Qplus_0_l.
  induction timeData as [|b rest IH]; [reflexivity|].
  cbn [map]. rewrite Qsum_cons, IH, normalized_abs.
  unfold absDeviationSum. cbn [map foldr]. rewrite inject_Z_plus.
  field.
Qed.

Lemma amp_dyadic (timeData : list byte) :
  length timeData = 2048%nat ->
  amp timeData == Qmin 1 (inject_Z (absDeviationSum timeData) / 32768)
  /\ (0 <= absDeviationSum timeData <= 262144)%Z.
Proof.
  intros Hlen. split.
  - unfold amp, JS.Math_min. rewrite sumLoop_dyadic, Hlen.
    apply Q.min_compat; [reflexivity|].
    change (JS.ofNat 2048) with 2048. field.
  - pose proof (absDeviationSum_range timeData) as H. rewrite Hlen in H. lia.
Qed.

Lemma tick_trace (cb : Callbacks) (timeData : list byte) (freq : FreqRead)
    (s : Sub) :
  traceOf (tick cb timeData freq s)
  = SetMouth (amp timeData)
    :: (if hasSetViseme cb then
          match freq with
          | Fills freqData => [SetViseme (spectralCentroid freqData)]
          | Throws => []
          end
        else [])
    ++ [RequestFrame (nextHandle s)].
Proof.
  unfold tick. destruct cb as [[|]]; destruct freq; reflexivity.
Qed.

Lemma tick_state (cb : Callbacks) (timeData : list byte) (freq : FreqRead)
    (s : Sub) :
  stateOf (tick cb timeData freq s)
  = {| raf := nextHandle s; pending := pending s ++ [nextHandle s];
       nextHandle := S (nextHandle s); suspended := suspended s;
       listening := listening s |}.
Proof.
  unfold tick. destruct cb as [[|]]; destruct freq; reflexivity.
Qed.

(** C1.  On a tick over a 2048-byte window [onMouth] is called once, with
    the mean of [|(sample - 128) / 128|] times 8 clamped to [[0,1]]; the
    value lies in [[0,1]] and is computed from this tick's window alone,
    whatever state the subscription is in. *)
Theorem tick_publishes_loudness (cb : Callbacks) (timeData : list byte)
    (freq : FreqRead) (s : Sub) :
  length timeData = 2048%nat ->
  mouthValues (traceOf (tick cb timeData freq s)) = [amp timeData]
  /\ amp timeData == loudnessSpec timeData
  /\ 0 <= amp timeData <= 1.
Proof.
  intros Hlen. split.
  - rewrite tick_trace. destruct cb as [[|]]; destruct freq; reflexivity.
  - apply amp_spec. intros E. rewrite E in Hlen. discriminate.
Qed.

End Loudness.

Lemma tick_publishes_loudness_witness :
  MouthSync.mouthValues
    (MouthSync.traceOf
       (MouthSync.tick Examples.bothCallbacks Examples.softWindow
          (MouthSync.Fills Examples.fourBins) Examples.playing))
  = [MouthSync.amp Examples.softWindow]
  /\ MouthSync.amp Examples.softWindow
     == MouthSync.loudnessSpec Examples.softWindow
  /\ 0 <= MouthSync.amp Examples.softWindow <= 1.
Proof.
  apply (tick_publishes_loudness Examples.bothCallbacks Examples.softWindow
           (MouthSync.Fills Examples.fourBins) Examples.playing).
  vm_compute. reflexivity.
Defined.

(** ** Spectral centroid *)

Section Centroid.

Import MouthSync.

Lemma ofNat_add (a b : nat) : JS.ofNat (a + b) == JS.ofNat a + JS.ofNat b.
Proof.
  unfold JS.ofNat. rewrite Nat2Z.inj_add, inject_Z_plus. reflexivity.
Qed.

Lemma max0_nonneg (m : Decibel) : 0 <= max0 m.
Proof.
  destruct m as [q|]; cbn; [|lra].
  unfold JS.Math_max. apply Q.le_max_l.
Qed.

Lemma weightedFrom_cons (i : nat) (x : Decibel) (l : list Decibel) :
  weightedFrom i (x :: l) == JS.ofNat i * max0 x + weightedFrom (S i) l.
Proof.
  unfold weightedFrom. cbn [imap]. rewrite Qsum_cons, Nat.add_0_r.
  rewrite (imap_ext _ (fun k m => JS.ofNat (S i + k) * max0 m) l).
  - reflexivity.
  - intros k m _. cbn. rewrite Nat.add_succ_r. reflexivity.
Qed.

Lemma weightedFrom_0 (l : list Decibel) : weightedFrom 0 l = weightedEnergy l.
Proof. reflexivity. Qed.

Lemma totalEnergy_cons (x : Decibel) (l : list Decibel) :
  totalEnergy (x :: l) = max0 x + totalEnergy l.
Proof. reflexivity. Qed.

Lemma centroidLoop_spec (l : list Decibel) (i : nat) (num den : Q) :
  fst (centroidLoop l i num den) == num + weightedFrom i l
  /\ snd (centroidLoop l i num den) == den + totalEnergy l.
Proof.
  revert i num den. induction l as [|x rest IH]; intros i num den.
  - cbn. split; ring.
  - cbn [centroidLoop].
    destruct (IH (S i) (num + max0 x * JS.ofNat i) (den + max0 x))
      as [Hn Hd].
    rewrite Hn, Hd, weightedFrom_cons, totalEnergy_cons. split; ring.
Qed.

Lemma totalEnergy_nonneg (l : list Decibel) : 0 <= totalEnergy l.
Proof.
  induction l as [|x rest IH]; [cbn; lra|].
  rewrite totalEnergy_cons. pose proof (max0_nonneg x). lra.
Qed.

Lemma weightedFrom_nonneg (l : list Decibel) (i : nat) : 0 <= weightedFrom i l.
Proof.
  revert i. induction l as [|x rest IH]; intros i; [cbn; lra|].
  rewrite weightedFrom_cons.
  pose proof (max0_nonneg x). pose proof (ofNat_nonneg i).
  pose proof (IH (S i)). nra.
Qed.

(** No bin weighs more than the last index. *)
Lemma weightedFrom_le (l : list Decibel) (i : nat) :
  weightedFrom i l <= (JS.ofNat (i + length l) - 1) * totalEnergy l.
Proof.
  revert i. induction l as [|x rest IH]; intros i.
  - cbn. lra.
  - rewrite weightedFrom_cons, totalEnergy_cons. cbn [length].
    specialize (IH (S i)).
    replace (S i + length rest)%nat with (i + S (length rest))%nat in IH
      by lia.
    rewrite ofNat_add in *. rewrite ofNat_S in *.
    pose proof (max0_nonneg x). pose proof (ofNat_nonneg (length rest)).
    pose proof (totalEnergy_nonneg rest). nra.
Qed.

Lemma totalEnergy_all_zero (l : list Decibel) :
  Forall (fun m => max0 m == 0) l -> totalEnergy l == 0.
Proof.
  induction 1 as [|x rest Hx _ IH]; [reflexivity|].
  rewrite totalEnergy_cons, Hx, IH. reflexivity.
Qed.

Lemma spectralCentroid_zero (freqData : list Decibel) :
  totalEnergy freqData == 0 -> spectralCentroid freqData = 0.
Proof.
  intros Hz. unfold spectralCentroid.
  destruct (centroidLoop_spec freqData 0 0 0) as [_ Hd].
  destruct (centroidLoop freqData 0 0 0) as [num den]. cbn [snd] in Hd.
  assert (E : Qeq_bool den 0 = true)
    by (apply Qeq_bool_iff; rewrite Hd, Hz; ring).
  rewrite E. reflexivity.
Qed.

Lemma spectralCentroid_nonzero (freqData : list Decibel) :
  ~ totalEnergy freqData == 0 ->
  spectralCentroid freqData
  == weightedEnergy freqData / totalEnergy freqData
     / JS.Math_max 1 (JS.ofNat (length freqData) - 1).
Proof.
  intros Hnz. unfold spectralCentroid.
  destruct (centroidLoop_spec freqData 0 0 0) as [Hn Hd].
  destruct (centroidLoop freqData 0 0 0) as [num den].
  cbn [fst snd] in Hn, Hd. rewrite weightedFrom_0 in Hn.
  rewrite Qplus_0_l in Hn, Hd.
  assert (E : Qeq_bool den 0 = false).
  { destruct (Qeq_bool den 0) eqn:E; [|reflexivity].
    apply Qeq_bool_iff in E. exfalso. apply Hnz. rewrite <- Hd. exact E. }
  rewrite E, Hn, Hd. reflexivity.
Qed.

(** With two bins or more the divisor [Math.max(1, length - 1)] is
    [length - 1]. *)
Lemma divisor_two_bins (n : nat) :
  (2 <= n)%nat -> JS.Math_max 1 (JS.ofNat n - 1) == JS.ofNat n - 1.
Proof.
  intros Hn. unfold JS.Math_max. apply Q.max_r.
  destruct n as [|[|k]]; try lia.
  rewrite !ofNat_S. pose proof (ofNat_nonneg k). lra.
Qed.

Lemma spectralCentroid_bounds (freqData : list Decibel) :
  0 <= spectralCentroid freqData <= 1.
Proof.
  destruct (Qeq_dec (totalEnergy freqData) 0) as [Hz|Hnz].
  - rewrite (spectralCentroid_zero _ Hz). split; lra.
  - rewrite (spectralCentroid_nonzero _ Hnz).
    pose proof (totalEnergy_nonneg freqData) as HE.
    assert (HE' : 0 < totalEnergy freqData) by lra.
    pose proof (weightedFrom_nonneg freqData 0) as HW.
    pose proof (weightedFrom_le freqData 0) as HWle.
    rewrite weightedFrom_0 in HW, HWle. cbn [Nat.add] in HWle.
    set (d := JS.Math_max 1 (JS.ofNat (length freqData) - 1)).
    assert (Hd1 : 1 <= d) by apply Q.le_max_l.
    assert (Hd2 : JS.ofNat (length freqData) - 1 <= d) by apply Q.le_max_r.
    split.
    + apply div_nonneg; [apply div_nonneg; assumption|lra].
    + apply Qle_shift_div_r; [lra|].
      apply Qle_shift_div_r; [exact HE'|]. nra.
Qed.

(** In exact arithmetic the value passed to [onViseme] is
    [sum(i * max(0, m_i)) / sum(max(0, m_i)) / (bins - 1)] when the total
    energy is not zero (the buffer having at least two bins; the analyser's
    has 1024) and exactly 0 when it is zero, in particular when every
    [max(0, m_i)] is zero, and it lies in [[0,1]].  The value the program
    computes in binary64 is treated with the binary64 arithmetic below. *)
Lemma spectralCentroid_exact (freqData : list Decibel) :
  ((2 <= length freqData)%nat ->
   ~ totalEnergy freqData == 0 ->
   spectralCentroid freqData
   == weightedEnergy freqData / totalEnergy freqData
      / (JS.ofNat (length freqData) - 1))
  /\ (totalEnergy freqData == 0 -> spectralCentroid freqData = 0)
  /\ (Forall (fun m => max0 m == 0) freqData ->
        spectralCentroid freqData = 0)
  /\ 0 <= spectralCentroid freqData <= 1
  /\ (forall (timeData : list byte) (s : Sub),
        visemeValues
          (traceOf (tick {| hasSetViseme := true |} timeData
                      (Fills freqData) s))
        = [spectralCentroid freqData]).
Proof.
  split.
  { intros Hlen Hnz.
    rewrite (spectralCentroid_nonzero _ Hnz), (divisor_two_bins _ Hlen).
    reflexivity. }
  split; [apply spectralCentroid_zero|].
  split.
  { intros Hall. apply spectralCentroid_zero, totalEnergy_all_zero, Hall. }
  split; [apply spectralCentroid_bounds|].
  intros timeData s. rewrite tick_trace. reflexivity.
Qed.

End Centroid.

(** ** The sampling loop *)

Section SamplingLoop.

Import MouthSync.

Variable cb : Callbacks.

Lemma filter_own (h : nat) : filter (fun x => x <> h) [h] = [].
Proof. rewrite filter_cons, decide_False by tauto. reflexivity. Qed.

Lemma cancel_own (s : Sub) :
  oneLoop s -> filter (fun x => x <> raf s) (pending s) = [].
Proof. intros [E|E]; rewrite E; [reflexivity|apply filter_own]. Qed.

Lemma onPause_trace (s : Sub) :
  traceOf (onPause cb s)
  = CancelFrame (raf s) :: SetMouth 0
    :: (if hasSetViseme cb then [SetViseme 0] else []).
Proof. unfold onPause. destruct cb as [[|]]; reflexivity. Qed.

Lemma onPause_state (s : Sub) :
  stateOf (onPause cb s)
  = {| raf := raf s; pending := filter (fun x => x <> raf s) (pending s);
       nextHandle := nextHandle s; suspended := suspended s;
       listening := listening s |}.
Proof. unfold onPause. destruct cb as [[|]]; reflexivity. Qed.

Lemma cleanup_state (s : Sub) :
  stateOf (cleanup cb s)
  = {| raf := raf s; pending := filter (fun x => x <> raf s) (pending s);
       nextHandle := nextHandle s; suspended := suspended s;
       listening := false |}.
Proof. unfold cleanup. destruct cb as [[|]]; reflexivity. Qed.

Lemma onPlay_state (s : Sub) :
  stateOf (onPlay s)
  = {| raf := nextHandle s;
       pending := filter (fun x => x <> raf s) (pending s) ++ [nextHandle s];
       nextHandle := S (nextHandle s); suspended := false;
       listening := listening s |}.
Proof. unfold onPlay. destruct s as [r p n [|] l]; reflexivity. Qed.

Lemma frame_idle (timeData : list byte) (freq : FreqRead) (s : Sub) :
  pending s = [] ->
  handle cb (AnimationFrame timeData freq) s = (tt, s, []).
Proof. destruct s as [r p n su l]; cbn. intros ->. reflexivity. Qed.

Lemma frame_sampling (timeData : list byte) (freq : FreqRead) (s : Sub)
    (h : nat) :
  pending s = [h] ->
  traceOf (handle cb (AnimationFrame timeData freq) s)
  = traceOf (tick cb timeData freq s)
  /\ stateOf (handle cb (AnimationFrame timeData freq) s)
     = {| raf := nextHandle s; pending := [nextHandle s];
          nextHandle := S (nextHandle s); suspended := suspended s;
          listening := listening s |}.
Proof.
  destruct s as [r p n su l]; cbn [pending]. intros ->.
  destruct cb as [[|]]; destruct freq; split; reflexivity.
Qed.

Lemma handle_oneLoop (i : Input) (s : Sub) :
  oneLoop s -> oneLoop (stateOf (handle cb i s)).
Proof.
  intros Hs. destruct i.
  - cbn [handle]. destruct (listening s); [|exact Hs].
    rewrite onPlay_state, (cancel_own s Hs). right. reflexivity.
  - cbn [handle]. destruct (listening s); [|exact Hs].
    rewrite onPause_state, (cancel_own s Hs). left. reflexivity.
  - cbn [handle]. destruct (listening s); [|exact Hs].
    rewrite onPause_state, (cancel_own s Hs). left. reflexivity.
  - destruct Hs as [E|E].
    + rewrite (frame_idle _ _ _ E). left. exact E.
    + destruct (frame_sampling timeData freq s _ E) as [_ ->].
      right. reflexivity.
  - cbn [handle]. rewrite cleanup_state, (cancel_own s Hs). left. reflexivity.
Qed.

Lemma run_oneLoop (inputs : list Input) (s : Sub) :
  oneLoop s -> oneLoop (stateOf (run cb inputs s)).
Proof.
  revert s. induction inputs as [|i rest IH]; intros s Hs; [exact Hs|].
  cbn [run]. unfold mbind, sub_bind, bind.
  pose proof (handle_oneLoop i s Hs) as H1.
  destruct (handle cb i s) as [[[] s1] t1]. cbn [stateOf fst snd] in H1.
  specialize (IH s1 H1).
  destruct (run cb rest s1) as [[[] s2] t2]. exact IH.
Qed.

Lemma session_oneLoop (ctxSuspended alreadyPlaying : bool)
    (inputs : list Input) :
  oneLoop (stateOf (session cb ctxSuspended alreadyPlaying inputs)).
Proof.
  unfold session, mbind, sub_bind, bind.
  destruct (subscribe alreadyPlaying (newSub ctxSuspended))
    as [[[] s0] t0] eqn:E0.
  assert (H0 : oneLoop s0).
  { destruct alreadyPlaying, ctxSuspended; inversion E0; subst;
      [right|right|left|left]; reflexivity. }
  pose proof (run_oneLoop inputs s0 H0) as H1.
  destruct (run cb inputs s0) as [[[] s1] t1]. exact H1.
Qed.

End SamplingLoop.

(** C8.  A frame of the running loop on which the centroid computation
    throws: [onMouth] is called with this frame's loudness, [onViseme] is not
    called, the next frame is requested, and the next frame publishes its
    loudness again. *)
Theorem centroid_failure_skips_only_viseme (cb : MouthSync.Callbacks)
    (timeData timeData' : list byte) (freq' : MouthSync.FreqRead)
    (s : MouthSync.Sub) :
  MouthSync.pending s = [MouthSync.raf s] ->
  let r := MouthSync.handle cb (MouthSync.AnimationFrame timeData MouthSync.Throws) s in
  MouthSync.traceOf r
  = [MouthSync.SetMouth (MouthSync.amp timeData);
     MouthSync.RequestFrame (MouthSync.nextHandle s)]
  /\ MouthSync.visemeValues (MouthSync.traceOf r) = []
  /\ MouthSync.sampling (MouthSync.stateOf r) = true
  /\ MouthSync.pending (MouthSync.stateOf r)
     = [MouthSync.raf (MouthSync.stateOf r)]
  /\ MouthSync.mouthValues
       (MouthSync.traceOf
          (MouthSync.handle cb (MouthSync.AnimationFrame timeData' freq')
             (MouthSync.stateOf r)))
     = [MouthSync.amp timeData'].
Proof.
  intros Hp r.
  destruct (frame_sampling cb timeData MouthSync.Throws s _ Hp) as [Ht Hs].
  fold r in Ht, Hs. rewrite Ht, Hs, tick_trace.
  assert (Htr : [MouthSync.SetMouth (MouthSync.amp timeData);
                 MouthSync.RequestFrame (MouthSync.nextHandle s)]
                = MouthSync.SetMouth (MouthSync.amp timeData)
                  :: (if MouthSync.hasSetViseme cb then [] else [])
                  ++ [MouthSync.RequestFrame (MouthSync.nextHandle s)])
    by (destruct (MouthSync.hasSetViseme cb); reflexivity).
  rewrite <- Htr. repeat split.
  match goal with
  | |- context [MouthSync.handle cb ?i ?s1] =>
      destruct (frame_sampling cb timeData' freq' s1 _ eq_refl) as [Ht' _];
      rewrite Ht', tick_trace
  end.
  destruct (MouthSync.hasSetViseme cb); destruct freq'; reflexivity.
Qed.

Lemma centroid_failure_skips_only_viseme_witness :
  MouthSync.traceOf
    (MouthSync.handle Examples.bothCallbacks
       (MouthSync.AnimationFrame Examples.softWindow MouthSync.Throws)
       Examples.playing)
  = [MouthSync.SetMouth (MouthSync.amp Examples.softWindow);
     MouthSync.RequestFrame (MouthSync.nextHandle Examples.playing)]
  /\ MouthSync.visemeValues
       (MouthSync.traceOf
          (MouthSync.handle Examples.bothCallbacks
             (MouthSync.AnimationFrame Examples.softWindow MouthSync.Throws)
             Examples.playing)) = []
  /\ MouthSync.sampling
       (MouthSync.stateOf
          (MouthSync.handle Examples.bothCallbacks
             (MouthSync.AnimationFrame Examples.softWindow MouthSync.Throws)
             Examples.playing)) = true
  /\ MouthSync.pending
       (MouthSync.stateOf
          (MouthSync.handle Examples.bothCallbacks
             (MouthSync.AnimationFrame Examples.softWindow MouthSync.Throws)
             Examples.playing))
     = [MouthSync.raf
          (MouthSync.stateOf
             (MouthSync.handle Examples.bothCallbacks
                (MouthSync.AnimationFrame Examples.softWindow MouthSync.Throws)
                Examples.playing))]
  /\ MouthSync.mouthValues
       (MouthSync.traceOf
          (MouthSync.handle Examples.bothCallbacks
             (MouthSync.AnimationFrame Examples.softWindow
                (MouthSync.Fills Examples.fourBins))
             (MouthSync.stateOf
                (MouthSync.handle Examples.bothCallbacks
                   (MouthSync.AnimationFrame Examples.softWindow
                      MouthSync.Throws)
                   Examples.playing))))
     = [MouthSync.amp Examples.softWindow].
Proof.
  apply (centroid_failure_skips_only_viseme Examples.bothCallbacks
           Examples.softWindow Examples.softWindow
           (MouthSync.Fills Examples.fourBins) Examples.playing).
  reflexivity.
Defined.

(** C3 as the specification words it, at a subscription that is sampling
    after a [play] event: the [pause] handler's trace is the cancellation
    followed by the two zero calls, so no zero call comes before the
    cancellation, and the loop has no pending callback left once the
    cancellation, the first event, has happened. *)
Lemma pause_zero_calls_follow_cancel :
  MouthSync.listening Examples.playing = true
  /\ MouthSync.sampling Examples.playing = true
  /\ MouthSync.traceOf
       (MouthSync.handle Examples.bothCallbacks MouthSync.Pause
          Examples.playing)
     = [MouthSync.CancelFrame 1; MouthSync.SetMouth 0; MouthSync.SetViseme 0]
  /\ MouthSync.occursBefore MouthSync.isZeroCall MouthSync.isCancel
       (MouthSync.traceOf
          (MouthSync.handle Examples.bothCallbacks MouthSync.Pause
             Examples.playing)) = false
  /\ MouthSync.pendingAfter (MouthSync.pending Examples.playing)
       [MouthSync.CancelFrame 1] = [].
Proof.
  vm_compute. repeat split.
Qed.

(** C3.  On a [pause] or [ended] event while the listeners are registered,
    in any state a run of inputs leads to, the handler first cancels the
    callback [raf] names, which leaves no callback pending, and then calls
    [onMouth] with 0 and, when [onViseme] was supplied, [onViseme] with 0;
    it does nothing else. *)
Theorem pause_cancels_then_zeroes (cb : MouthSync.Callbacks)
    (ctxSuspended alreadyPlaying : bool) (inputs : list MouthSync.Input)
    (ev : MouthSync.Input) :
  ev = MouthSync.Pause \/ ev = MouthSync.Ended ->
  let s := MouthSync.stateOf
             (MouthSync.session cb ctxSuspended alreadyPlaying inputs) in
  MouthSync.listening s = true ->
  MouthSync.traceOf (MouthSync.handle cb ev s)
  = MouthSync.CancelFrame (MouthSync.raf s) :: MouthSync.SetMouth 0
    :: (if MouthSync.hasSetViseme cb then [MouthSync.SetViseme 0] else [])
  /\ MouthSync.pendingAfter (MouthSync.pending s)
       [MouthSync.CancelFrame (MouthSync.raf s)] = []
  /\ MouthSync.sampling (MouthSync.stateOf (MouthSync.handle cb ev s)) = false
  /\ MouthSync.occursBefore MouthSync.isCancel MouthSync.isZeroCall
       (MouthSync.traceOf (MouthSync.handle cb ev s)) = true
  /\ MouthSync.occursBefore MouthSync.isZeroCall MouthSync.isCancel
       (MouthSync.traceOf (MouthSync.handle cb ev s)) = false.
Proof.
  intros Hev s Hl.
  pose proof (session_oneLoop cb ctxSuspended alreadyPlaying inputs) as Hone.
  fold s in Hone.
  assert (Hh : MouthSync.handle cb ev s = MouthSync.onPause cb s).
  { destruct Hev as [-> | ->]; cbn [MouthSync.handle]; rewrite Hl;
      reflexivity. }
  rewrite Hh, onPause_trace, onPause_state.
  cbn [MouthSync.pendingAfter fold_left MouthSync.replay].
  rewrite (cancel_own s Hone).
  repeat split; destruct (MouthSync.hasSetViseme cb); reflexivity.
Qed.

Lemma pause_cancels_then_zeroes_witness :
  MouthSync.traceOf
    (MouthSync.handle Examples.bothCallbacks MouthSync.Ended Examples.playing)
  = MouthSync.CancelFrame (MouthSync.raf Examples.playing)
    :: MouthSync.SetMouth 0
    :: (if MouthSync.hasSetViseme Examples.bothCallbacks
        then [MouthSync.SetViseme 0] else [])
  /\ MouthSync.pendingAfter (MouthSync.pending Examples.playing)
       [MouthSync.CancelFrame (MouthSync.raf Examples.playing)] = []
  /\ MouthSync.sampling
       (MouthSync.stateOf
          (MouthSync.handle Examples.bothCallbacks MouthSync.Ended
             Examples.playing)) = false
  /\ MouthSync.occursBefore MouthSync.isCancel MouthSync.isZeroCall
       (MouthSync.traceOf
          (MouthSync.handle Examples.bothCallbacks MouthSync.Ended
             Examples.playing)) = true
  /\ MouthSync.occursBefore MouthSync.isZeroCall MouthSync.isCancel
       (MouthSync.traceOf
          (MouthSync.handle Examples.bothCallbacks MouthSync.Ended
             Examples.playing)) = false.
Proof.
  apply (pause_cancels_then_zeroes Examples.bothCallbacks false false
           [MouthSync.Play] MouthSync.Ended).
  - right. reflexivity.
  - reflexivity.
Defined.

(** ** The session cache *)

Section SessionCache.

Import MouthSync.

Lemma cacheInv_initial : cacheInv initialWorld.
Proof.
  split; [|split].
  - intros audio. cbn. rewrite lookup_empty. reflexivity.
  - cbn. rewrite map_size_empty. reflexivity.
  - cbn. rewrite map_size_empty. reflexivity.
Qed.

Lemma attach_hit (audio : nat) (entry : AudioSession) (w : World) :
  graph w !! audio = Some entry -> attach (Some audio) w = (w, Some entry).
Proof. intros H. cbn. rewrite H. reflexivity. Qed.

Lemma tapCount_create (audio a : nat) (w : World) :
  tapCount a (fst (createSession audio w))
  = (tapCount a w + if (audio =? a)%nat then 1 else 0)%nat.
Proof.
  unfold tapCount. cbn [createSession fst nodes].
  rewrite filter_app, length_app. f_equal.
  rewrite !filter_cons. cbn [isTapOf].
  destruct (audio =? a)%nat; reflexivity.
Qed.

Lemma contextCount_create (audio : nat) (w : World) :
  contextCount (fst (createSession audio w)) = S (contextCount w).
Proof.
  unfold contextCount. cbn [createSession fst nodes].
  rewrite filter_app, length_app.
  match goal with |- (_ + ?x)%nat = _ => change x with 1%nat end. lia.
Qed.

Lemma analyserCount_create (audio : nat) (w : World) :
  analyserCount (fst (createSession audio w)) = S (analyserCount w).
Proof.
  unfold analyserCount. cbn [createSession fst nodes].
  rewrite filter_app, length_app.
  match goal with |- (_ + ?x)%nat = _ => change x with 1%nat end. lia.
Qed.

Lemma hookCall_miss (audio : nat) (w : World) :
  graph w !! audio = None ->
  hookCall (Attach (Some audio)) w = fst (createSession audio w).
Proof. intros H. cbn [hookCall attach]. rewrite H. reflexivity. Qed.

Lemma hookCall_hit (audio : nat) (w : World) :
  is_Some (graph w !! audio) -> hookCall (Attach (Some audio)) w = w.
Proof. intros [e H]. cbn [hookCall attach]. rewrite H. reflexivity. Qed.

Lemma hookCall_inv (c : HookCall) (w : World) :
  cacheInv w -> cacheInv (hookCall c w).
Proof.
  intros (Htap & Hctx & Han).
  destruct c as [[audio|]|]; [|split; [|split]; assumption..].
  destruct (graph w !! audio) as [e|] eqn:E.
  { rewrite hookCall_hit by (rewrite E; eauto).
    split; [|split]; assumption. }
  rewrite (hookCall_miss _ _ E). split; [|split].
  - intros a. rewrite tapCount_create, Htap. cbn [createSession fst graph].
    destruct (Nat.eqb_spec audio a) as [->|Hne].
    + rewrite lookup_insert_eq, E. reflexivity.
    + rewrite lookup_insert_ne by exact Hne.
      destruct (graph w !! a); reflexivity.
  - rewrite contextCount_create, Hctx. cbn [createSession fst graph].
    rewrite map_size_insert_None by exact E. reflexivity.
  - rewrite analyserCount_create, Han. cbn [createSession fst graph].
    rewrite map_size_insert_None by exact E. reflexivity.
Qed.

(** A cached session is never replaced. *)
Lemma hookCall_keeps (c : HookCall) (w : World) (audio : nat)
    (entry : AudioSession) :
  graph w !! audio = Some entry ->
  graph (hookCall c w) !! audio = Some entry.
Proof.
  intros H. destruct c as [[a|]|]; [|exact H..].
  destruct (graph w !! a) as [e|] eqn:E.
  - rewrite hookCall_hit by (rewrite E; eauto). exact H.
  - rewrite (hookCall_miss _ _ E). cbn [createSession fst graph].
    rewrite lookup_insert_ne; [exact H|]. intros ->. congruence.
Qed.

Lemma hookCall_attached (audio : nat) (w : World) :
  is_Some (graph (hookCall (Attach (Some audio)) w) !! audio).
Proof.
  destruct (graph w !! audio) as [e|] eqn:E.
  - rewrite hookCall_hit by (rewrite E; eauto). rewrite E. eauto.
  - rewrite (hookCall_miss _ _ E). cbn [createSession fst graph].
    rewrite lookup_insert_eq. eauto.
Qed.

Lemma runHook_inv (calls : list HookCall) (w : World) :
  cacheInv w -> cacheInv (runHook calls w).
Proof.
  revert w. induction calls as [|c rest IH]; intros w Hw; [exact Hw|].
  cbn [runHook fold_left]. apply IH, hookCall_inv, Hw.
Qed.

Lemma runHook_keeps (calls : list HookCall) (w : World) (audio : nat)
    (entry : AudioSession) :
  graph w !! audio = Some entry ->
  graph (runHook calls w) !! audio = Some entry.
Proof.
  revert w. induction calls as [|c rest IH]; intros w Hw; [exact Hw|].
  cbn [runHook fold_left]. apply IH, hookCall_keeps, Hw.
Qed.

Lemma runHook_attached (calls : list HookCall) (w : World) (audio : nat) :
  In (Attach (Some audio)) calls ->
  is_Some (graph (runHook calls w) !! audio).
Proof.
  revert w. induction calls as [|c rest IH]; intros w Hin; [destruct Hin|].
  cbn [runHook fold_left]. destruct Hin as [->|Hin].
  - destruct (hookCall_attached audio w) as [e He].
    exists e. apply runHook_keeps, He.
  - apply IH, Hin.
Qed.

(** C4.  After any sequence of effect runs and cleanups, for every audio
    element: at most one tap node exists for it, and exactly one once it
    has been attached; a further attach returns the cached session and
    constructs nothing; the cached session stays the same one through all
    later calls; and there are as many audio contexts and analysers as
    cached sessions. *)
Theorem attach_reuses_session (calls : list HookCall) (audio : nat) :
  let w := runHook calls initialWorld in
  (tapCount audio w <= 1)%nat
  /\ (In (Attach (Some audio)) calls ->
        tapCount audio w = 1%nat /\ is_Some (graph w !! audio))
  /\ (forall entry : AudioSession,
        graph w !! audio = Some entry ->
        attach (Some audio) w = (w, Some entry))
  /\ (forall (entry : AudioSession) (more : list HookCall),
        graph w !! audio = Some entry ->
        graph (runHook more w) !! audio = Some entry
        /\ nodes (runHook (Attach (Some audio) :: more) w)
           = nodes (runHook more w)
        /\ tapCount audio (runHook more w) = 1%nat)
  /\ contextCount w = size (graph w)
  /\ analyserCount w = size (graph w).
Proof.
  intros w.
  pose proof (runHook_inv calls initialWorld cacheInv_initial) as Hinv.
  fold w in Hinv. destruct Hinv as (Htap & Hctx & Han).
  split; [rewrite Htap; destruct (graph w !! audio); lia|].
  split.
  { intros Hin. destruct (runHook_attached calls initialWorld audio Hin)
      as [e He]. fold w in He.
    split; [rewrite Htap, He; reflexivity|rewrite He; eauto]. }
  split; [intros entry; apply attach_hit|].
  split; [|split; assumption].
  intros entry more He. split; [apply runHook_keeps, He|]. split.
  - cbn [runHook fold_left]. rewrite hookCall_hit by (rewrite He; eauto).
    reflexivity.
  - assert (Hw : cacheInv w) by (split; [|split]; assumption).
    destruct (runHook_inv more w Hw) as (Htap' & _).
    rewrite Htap', (runHook_keeps more w audio entry He). reflexivity.
Qed.

End SessionCache.

(** * Further properties of the engine *)

Section Runs.

Import MouthSync Runs.

Variable cb : Callbacks.

Lemma run_app (xs ys : list Input) (s : Sub) :
  stateOf (run cb (xs ++ ys) s) = stateOf (run cb ys (stateOf (run cb xs s)))
  /\ traceOf (run cb (xs ++ ys) s)
     = traceOf (run cb xs s) ++ traceOf (run cb ys (stateOf (run cb xs s))).
Proof.
  revert s. induction xs as [|x xs IH]; intros s.
  - cbn. split; reflexivity.
  - cbn [app run]. unfold mbind, sub_bind, bind.
    destruct (handle cb x s) as [[[] s1] t1]. cbn [stateOf traceOf fst snd].
    specialize (IH s1).
    destruct (run cb (xs ++ ys) s1) as [[[] s2] t2].
    destruct (run cb xs s1) as [[[] s3] t3].
    cbn [stateOf traceOf fst snd] in *.
    destruct IH as [-> ->]. split; [reflexivity|].
    rewrite app_assoc. reflexivity.
Qed.

Lemma run_cons (i : Input) (rest : list Input) (s : Sub) :
  stateOf (run cb (i :: rest) s) = stateOf (run cb rest (stateOf (handle cb i s)))
  /\ traceOf (run cb (i :: rest) s)
     = traceOf (handle cb i s)
       ++ traceOf (run cb rest (stateOf (handle cb i s))).
Proof.
  cbn [run]. unfold mbind, sub_bind, bind.
  destruct (handle cb i s) as [[[] s1] t1]. cbn [stateOf traceOf fst snd].
  destruct (run cb rest s1) as [[[] s2] t2]. split; reflexivity.
Qed.

Lemma session_run (ctxSuspended alreadyPlaying : bool) (inputs : list Input) :
  stateOf (session cb ctxSuspended alreadyPlaying inputs)
  = stateOf (run cb inputs
               (stateOf (subscribe alreadyPlaying (newSub ctxSuspended))))
  /\ traceOf (session cb ctxSuspended alreadyPlaying inputs)
     = traceOf (subscribe alreadyPlaying (newSub ctxSuspended))
       ++ traceOf (run cb inputs
                     (stateOf (subscribe alreadyPlaying (newSub ctxSuspended)))).
Proof.
  unfold session, mbind, sub_bind, bind.
  destruct (subscribe alreadyPlaying (newSub ctxSuspended)) as [[[] s0] t0].
  cbn [stateOf traceOf fst snd].
  destruct (run cb inputs s0) as [[[] s1] t1]. split; reflexivity.
Qed.

Lemma onPlay_trace (s : Sub) :
  traceOf (onPlay s)
  = (if suspended s then [Resume] else [])
    ++ [CancelFrame (raf s); RequestFrame (nextHandle s)].
Proof. unfold onPlay. destruct s as [r p n [|] l]; reflexivity. Qed.

Lemma cleanup_trace (s : Sub) :
  traceOf (cleanup cb s)
  = CancelFrame (raf s) :: SetMouth 0
    :: (if hasSetViseme cb then [SetViseme 0] else []).
Proof. unfold cleanup. destruct cb as [[|]]; reflexivity. Qed.

Lemma handle_issued (i : Input) (s : Sub) :
  oneLoop s -> issued s -> issued (stateOf (handle cb i s)).
Proof.
  unfold issued. intros Hone Hs. destruct i.
  - cbn [handle]. destruct (listening s); [|exact Hs].
    rewrite onPlay_state. cbn. lia.
  - cbn [handle]. destruct (listening s); [|exact Hs].
    rewrite onPause_state. exact Hs.
  - cbn [handle]. destruct (listening s); [|exact Hs].
    rewrite onPause_state. exact Hs.
  - destruct Hone as [E|E].
    + rewrite (frame_idle cb _ _ _ E). exact Hs.
    + destruct (frame_sampling cb timeData freq s _ E) as [_ ->]. cbn. lia.
  - cbn [handle]. rewrite cleanup_state. exact Hs.
Qed.

Lemma handle_quiet (i : Input) (s : Sub) :
  oneLoop s -> quietWhenDetached s ->
  quietWhenDetached (stateOf (handle cb i s)).
Proof.
  unfold quietWhenDetached. intros Hone Hs. destruct i.
  - cbn [handle]. destruct (listening s) eqn:El.
    + rewrite onPlay_state. cbn. congruence.
    + intros _. apply Hs. reflexivity.
  - cbn [handle]. destruct (listening s) eqn:El.
    + rewrite onPause_state. cbn. congruence.
    + intros _. apply Hs. reflexivity.
  - cbn [handle]. destruct (listening s) eqn:El.
    + rewrite onPause_state. cbn. congruence.
    + intros _. apply Hs. reflexivity.
  - destruct Hone as [E|E].
    + rewrite (frame_idle cb _ _ _ E). exact Hs.
    + destruct (frame_sampling cb timeData freq s _ E) as [_ ->]. cbn.
      intros Hl. specialize (Hs Hl). congruence.
  - cbn [handle]. rewrite cleanup_state. cbn. intros _.
    apply (cancel_own s Hone).
Qed.

Lemma handle_wellFormed (i : Input) (s : Sub) :
  wellFormed s -> wellFormed (stateOf (handle cb i s)).
Proof.
  intros (H1 & H2 & H3). split; [|split].
  - apply handle_oneLoop, H1.
  - apply handle_issued; assumption.
  - apply handle_quiet; assumption.
Qed.

Lemma run_wellFormed (inputs : list Input) (s : Sub) :
  wellFormed s -> wellFormed (stateOf (run cb inputs s)).
Proof.
  revert s. induction inputs as [|i rest IH]; intros s Hs; [exact Hs|].
  destruct (run_cons i rest s) as [-> _]. apply IH, handle_wellFormed, Hs.
Qed.

Lemma subscribe_wellFormed (ctxSuspended alreadyPlaying : bool) :
  wellFormed (stateOf (subscribe alreadyPlaying (newSub ctxSuspended))).
Proof.
  unfold wellFormed, oneLoop, issued, quietWhenDetached.
  destruct alreadyPlaying, ctxSuspended; cbn;
    (split; [|split]); try lia; try discriminate;
    first [right; reflexivity | left; reflexivity].
Qed.

Lemma session_wellFormed (ctxSuspended alreadyPlaying : bool)
    (inputs : list Input) :
  wellFormed (stateOf (session cb ctxSuspended alreadyPlaying inputs)).
Proof.
  destruct (session_run ctxSuspended alreadyPlaying inputs) as [-> _].
  apply run_wellFormed, subscribe_wellFormed.
Qed.

End Runs.

Section Lifecycle.

Import MouthSync Runs.

Variable cb : Callbacks.

Lemma values_app (t1 t2 : list Event) :
  mouthValues (t1 ++ t2) = mouthValues t1 ++ mouthValues t2
  /\ visemeValues (t1 ++ t2) = visemeValues t1 ++ visemeValues t2.
Proof. unfold mouthValues, visemeValues. rewrite !omap_app. auto. Qed.

Lemma mouthInUnit_values (t : list Event) :
  Forall mouthInUnit t -> Forall unitInterval (mouthValues t).
Proof.
  induction 1 as [|e t He _ IH]; [constructor|].
  destruct e; cbn; try assumption. constructor; assumption.
Qed.

Lemma tick_values (timeData : list byte) (freq : FreqRead) (s : Sub) :
  mouthValues (traceOf (tick cb timeData freq s)) = [amp timeData]
  /\ visemeValues (traceOf (tick cb timeData freq s)) = centroidOf cb freq.
Proof.
  rewrite tick_trace. unfold centroidOf.
  destruct (hasSetViseme cb); destruct freq; split; reflexivity.
Qed.

Lemma handle_mouthInUnit (i : Input) (s : Sub) :
  oneLoop s -> windowFilled i -> Forall mouthInUnit (traceOf (handle cb i s)).
Proof.
  intros Hone Hw.
  assert (Hzero : Forall mouthInUnit
            (CancelFrame (raf s) :: SetMouth 0
             :: (if hasSetViseme cb then [SetViseme 0] else []))).
  { destruct (hasSetViseme cb); repeat constructor; cbn; lra. }
  destruct i.
  - cbn [handle]. destruct (listening s); [|constructor].
    rewrite onPlay_trace. destruct (suspended s); repeat constructor.
  - cbn [handle]. destruct (listening s); [|constructor].
    rewrite onPause_trace. exact Hzero.
  - cbn [handle]. destruct (listening s); [|constructor].
    rewrite onPause_trace. exact Hzero.
  - destruct Hone as [E|E].
    + rewrite (frame_idle cb _ _ _ E). constructor.
    + destruct (frame_sampling cb timeData freq s _ E) as [-> _].
      rewrite tick_trace. cbn in Hw.
      constructor; [cbn; apply amp_spec, Hw|].
      apply Forall_app. split; [|repeat constructor].
      destruct (hasSetViseme cb); [|constructor].
      destruct freq; repeat constructor.
  - cbn [handle]. rewrite cleanup_trace. exact Hzero.
Qed.

Lemma run_mouthInUnit (inputs : list Input) (s : Sub) :
  oneLoop s -> Forall windowFilled inputs ->
  Forall mouthInUnit (traceOf (run cb inputs s)).
Proof.
  revert s. induction inputs as [|i rest IH]; intros s Hs Hw; [constructor|].
  destruct (run_cons cb i rest s) as [_ ->].
  apply Forall_cons in Hw as [Hi Hrest].
  apply Forall_app. split; [apply handle_mouthInUnit; assumption|].
  apply IH; [apply handle_oneLoop, Hs|exact Hrest].
Qed.

(** X1.  Whatever happens to a subscription, at most one frame callback is
    pending; the pending callback is the one [raf] names and carries a handle
    the browser issued; after the listeners are removed none is pending; and
    a [play] event leaves exactly one, the freshly requested one. *)
Theorem single_sampling_loop (ctxSuspended alreadyPlaying : bool)
    (inputs : list Input) :
  let s := stateOf (session cb ctxSuspended alreadyPlaying inputs) in
  (length (pending s) <= 1)%nat
  /\ (forall h : nat,
        In h (pending s) -> h = raf s /\ (h < nextHandle s)%nat)
  /\ (listening s = false -> pending s = [])
  /\ (listening s = true ->
        pending (stateOf (handle cb Play s)) = [nextHandle s]).
Proof.
  intros s.
  destruct (session_wellFormed cb ctxSuspended alreadyPlaying inputs)
    as (Hone & Hiss & Hquiet).
  fold s in Hone, Hiss, Hquiet.
  split; [destruct Hone as [E|E]; rewrite E; cbn; lia|].
  split.
  { intros h Hin. destruct Hone as [E|E]; rewrite E in Hin; [destruct Hin|].
    destruct Hin as [<-|[]]. split; [reflexivity|exact Hiss]. }
  split; [exact Hquiet|].
  intros Hl. cbn [handle]. rewrite Hl, onPlay_state, (cancel_own s Hone).
  reflexivity.
Qed.

(** X2.  Every value the subscription ever hands to [onMouth] lies in
    [[0,1]], provided each frame's window holds at least one sample. *)
Theorem mouth_values_in_unit_interval (ctxSuspended alreadyPlaying : bool)
    (inputs : list Input) :
  Forall windowFilled inputs ->
  Forall unitInterval
    (mouthValues (traceOf (session cb ctxSuspended alreadyPlaying inputs))).
Proof.
  intros Hw. apply mouthInUnit_values.
  destruct (session_run cb ctxSuspended alreadyPlaying inputs) as [_ ->].
  apply Forall_app. split.
  - destruct alreadyPlaying, ctxSuspended; repeat constructor.
  - apply run_mouthInUnit; [|exact Hw].
    apply (subscribe_wellFormed ctxSuspended alreadyPlaying).
Qed.

Lemma quiet_handle (i : Input) (s : Sub) :
  listening s = false -> pending s = [] -> isDetach i = false ->
  handle cb i s = (tt, s, []).
Proof.
  intros Hl Hp Hi. destruct i; try discriminate; cbn [handle].
  - rewrite Hl. reflexivity.
  - rewrite Hl. reflexivity.
  - rewrite Hl. reflexivity.
  - apply frame_idle, Hp.
Qed.

Lemma quiet_run (inputs : list Input) (s : Sub) :
  listening s = false -> pending s = [] ->
  forallb (fun i => negb (isDetach i)) inputs = true ->
  run cb inputs s = (tt, s, []).
Proof.
  intros Hl Hp. induction inputs as [|i rest IH]; intros Hall; [reflexivity|].
  cbn [forallb] in Hall. apply andb_true_iff in Hall as [Hi Hrest].
  apply negb_true_iff in Hi.
  cbn [run]. unfold mbind, sub_bind, bind.
  rewrite (quiet_handle i s Hl Hp Hi), (IH Hrest). reflexivity.
Qed.

(** X3.  After the cleanup has run, no event of the audio element and no
    animation frame makes the subscription do anything: it calls neither
    callback, requests no frame, and its state stays as the cleanup left it.
    The last value [onMouth] received is the cleanup's 0. *)
Theorem detached_subscription_is_silent (ctxSuspended alreadyPlaying : bool)
    (inputs more : list Input) :
  forallb (fun i => negb (isDetach i)) more = true ->
  let r := session cb ctxSuspended alreadyPlaying (inputs ++ [Detach]) in
  run cb more (stateOf r) = (tt, stateOf r, [])
  /\ traceOf (session cb ctxSuspended alreadyPlaying
                (inputs ++ Detach :: more)) = traceOf r
  /\ last (mouthValues (traceOf r)) = Some 0.
Proof.
  intros Hmore r.
  set (s0 := stateOf (subscribe alreadyPlaying (newSub ctxSuspended))).
  assert (Hwf0 : wellFormed s0) by apply subscribe_wellFormed.
  pose proof (run_wellFormed cb inputs s0 Hwf0) as (Hone & _ & _).
  set (s1 := stateOf (run cb inputs s0)) in *.
  assert (Hr : stateOf r = stateOf (cleanup cb s1)
               /\ traceOf r
                  = traceOf (subscribe alreadyPlaying (newSub ctxSuspended))
                    ++ traceOf (run cb inputs s0) ++ traceOf (cleanup cb s1)).
  { unfold r.
    destruct (session_run cb ctxSuspended alreadyPlaying (inputs ++ [Detach]))
      as [-> ->].
    fold s0. destruct (run_app cb inputs [Detach] s0) as [-> ->]. fold s1.
    destruct (run_cons cb Detach [] s1) as [-> ->].
    cbn [run handle]. unfold ret. cbn [stateOf traceOf fst snd].
    rewrite app_nil_r. split; reflexivity. }
  destruct Hr as [Hst Htr].
  assert (Hl : listening (stateOf r) = false)
    by (rewrite Hst, cleanup_state; reflexivity).
  assert (Hp : pending (stateOf r) = [])
    by (rewrite Hst, cleanup_state; cbn; apply (cancel_own s1 Hone)).
  pose proof (quiet_run more (stateOf r) Hl Hp Hmore) as Hq.
  split; [exact Hq|]. split.
  - destruct (session_run cb ctxSuspended alreadyPlaying
                (inputs ++ Detach :: more)) as [_ ->].
    fold s0.
    change (inputs ++ Detach :: more) with (inputs ++ [Detach] ++ more).
    rewrite app_assoc.
    destruct (run_app cb (inputs ++ [Detach]) more s0) as [_ ->].
    destruct (session_run cb ctxSuspended alreadyPlaying (inputs ++ [Detach]))
      as [Hs' Ht'].
    fold s0 in Hs', Ht'. fold r in Hs', Ht'.
    rewrite <- Hs', Hq. cbn [traceOf snd]. rewrite app_nil_r, Ht'.
    reflexivity.
  - rewrite Htr, cleanup_trace.
    destruct (values_app
                (traceOf (subscribe alreadyPlaying (newSub ctxSuspended)))
                (traceOf (run cb inputs s0)
                 ++ CancelFrame (raf s1) :: SetMouth 0
                    :: (if hasSetViseme cb then [SetViseme 0] else [])))
      as [-> _].
    destruct (values_app (traceOf (run cb inputs s0))
                (CancelFrame (raf s1) :: SetMouth 0
                 :: (if hasSetViseme cb then [SetViseme 0] else [])))
      as [-> _].
    assert (Hz : mouthValues
                   (CancelFrame (raf s1) :: SetMouth 0
                    :: (if hasSetViseme cb then [SetViseme 0] else []))
                 = [0])
      by (destruct (hasSetViseme cb); reflexivity).
    rewrite Hz, app_assoc. apply last_snoc.
Qed.

Lemma frames_idle (readings : list Reading) (s : Sub) :
  pending s = [] -> run cb (frames readings) s = (tt, s, []).
Proof.
  intros Hp. induction readings as [|r rest IH]; [reflexivity|].
  cbn [frames map run]. unfold mbind, sub_bind, bind.
  rewrite (frame_idle cb _ _ _ Hp). fold (frames rest). rewrite IH.
  reflexivity.
Qed.

Lemma frames_sampling (readings : list Reading) (s : Sub) :
  pending s = [raf s] ->
  mouthValues (traceOf (run cb (frames readings) s))
  = map (fun r => amp (fst r)) readings
  /\ visemeValues (traceOf (run cb (frames readings) s))
     = flat_map (fun r => centroidOf cb (snd r)) readings
  /\ pending (stateOf (run cb (frames readings) s))
     = [raf (stateOf (run cb (frames readings) s))]
  /\ nextHandle (stateOf (run cb (frames readings) s))
     = (nextHandle s + length readings)%nat.
Proof.
  revert s. induction readings as [|[timeData freq] rest IH]; intros s Hp.
  - cbn. rewrite Nat.add_0_r. auto.
  - cbn [frames map fst snd]. fold (frames rest).
    destruct (run_cons cb (AnimationFrame timeData freq) (frames rest) s)
      as [-> ->].
    destruct (frame_sampling cb timeData freq s _ Hp) as [Ht Hs].
    rewrite Ht, Hs.
    match goal with
    | |- context [run cb (frames rest) ?s1] =>
        destruct (IH s1 eq_refl) as (Hm & Hv & Hpend & Hnext)
    end.
    destruct (values_app (traceOf (tick cb timeData freq s))
                (traceOf (run cb (frames rest)
                   {| raf := nextHandle s; pending := [nextHandle s];
                      nextHandle := S (nextHandle s);
                      suspended := suspended s;
                      listening := listening s |}))) as [-> ->].
    destruct (tick_values timeData freq s) as [-> ->].
    rewrite Hm, Hv, Hpend, Hnext. cbn [nextHandle length flat_map map fst snd].
    repeat split; try reflexivity. lia.
Qed.

Lemma stop_empties_pending (ev : Input) (s : Sub) :
  wellFormed s -> ev = Pause \/ ev = Ended \/ ev = Detach ->
  pending (stateOf (handle cb ev s)) = [].
Proof.
  intros (Hone & _ & Hquiet) Hev.
  destruct Hev as [-> | [-> | ->]]; cbn [handle].
  - destruct (listening s) eqn:El; [|apply Hquiet, El].
    rewrite onPause_state. apply (cancel_own s Hone).
  - destruct (listening s) eqn:El; [|apply Hquiet, El].
    rewrite onPause_state. apply (cancel_own s Hone).
  - rewrite cleanup_state. apply (cancel_own s Hone).
Qed.

(** X4.  After a [pause] or [ended] event, or the detach, animation frames reach
    no tick: however many frames follow, neither callback is called and no
    frame is requested, so the zero the stop published stays the last
    value. *)
Theorem stopped_loop_publishes_nothing (ctxSuspended alreadyPlaying : bool)
    (inputs : list Input) (ev : Input) (readings : list Reading) :
  ev = Pause \/ ev = Ended \/ ev = Detach ->
  let s := stateOf (session cb ctxSuspended alreadyPlaying inputs) in
  sampling (stateOf (handle cb ev s)) = false
  /\ run cb (frames readings) (stateOf (handle cb ev s))
     = (tt, stateOf (handle cb ev s), []).
Proof.
  intros Hev s.
  pose proof (session_wellFormed cb ctxSuspended alreadyPlaying inputs) as Hwf.
  fold s in Hwf.
  pose proof (stop_empties_pending ev s Hwf Hev) as Hp.
  split; [unfold sampling; rewrite Hp; reflexivity|].
  apply frames_idle, Hp.
Qed.

(** X5.  While the loop is sampling, a run of animation frames publishes one
    loudness value per frame, in frame order, each computed from that frame's
    window; [onViseme] receives the centroid of every frame whose read did not
    throw, in the same order; the loop is still sampling afterwards. *)
Theorem sampling_publishes_every_frame (ctxSuspended alreadyPlaying : bool)
    (inputs : list Input) (readings : list Reading) :
  let s := stateOf (session cb ctxSuspended alreadyPlaying inputs) in
  sampling s = true ->
  mouthValues (traceOf (run cb (frames readings) s))
  = map (fun r => amp (fst r)) readings
  /\ visemeValues (traceOf (run cb (frames readings) s))
     = flat_map (fun r => centroidOf cb (snd r)) readings
  /\ sampling (stateOf (run cb (frames readings) s)) = true.
Proof.
  intros s Hs.
  destruct (session_wellFormed cb ctxSuspended alreadyPlaying inputs)
    as (Hone & _).
  fold s in Hone.
  assert (Hp : pending s = [raf s]).
  { destruct Hone as [E|E]; [|exact E].
    unfold sampling in Hs. rewrite E in Hs. discriminate. }
  destruct (frames_sampling readings s Hp) as (Hm & Hv & Hpend & _).
  split; [exact Hm|]. split; [exact Hv|].
  unfold sampling. rewrite Hpend. reflexivity.
Qed.

(** X6.  Attaching to an element that is not playing does nothing until a [play]
    event: animation frames alone produce no call at all.  Attaching to one
    that is already playing starts the loop at once: the context is resumed
    if it was suspended, one frame is requested, and every following frame
    publishes its loudness. *)
Theorem attach_starts_loop_only_when_playing (ctxSuspended : bool)
    (readings : list Reading) :
  traceOf (session cb ctxSuspended false (frames readings)) = []
  /\ traceOf (subscribe true (newSub ctxSuspended))
     = (if ctxSuspended then [Resume] else [])
       ++ [CancelFrame 0; RequestFrame 1]
  /\ mouthValues (traceOf (session cb ctxSuspended true (frames readings)))
     = map (fun r => amp (fst r)) readings.
Proof.
  split; [|split].
  - destruct (session_run cb ctxSuspended false (frames readings)) as [_ ->].
    rewrite frames_idle by reflexivity. reflexivity.
  - destruct ctxSuspended; reflexivity.
  - destruct (session_run cb ctxSuspended true (frames readings)) as [_ ->].
    destruct (values_app (traceOf (subscribe true (newSub ctxSuspended)))
                (traceOf (run cb (frames readings)
                   (stateOf (subscribe true (newSub ctxSuspended))))))
      as [-> _].
    destruct (frames_sampling readings
                (stateOf (subscribe true (newSub ctxSuspended))))
      as (-> & _).
    + destruct ctxSuspended; reflexivity.
    + destruct ctxSuspended; reflexivity.
Qed.

End Lifecycle.

Lemma mouth_values_in_unit_interval_witness :
  Forall Runs.unitInterval
    (MouthSync.mouthValues
       (MouthSync.traceOf
          (MouthSync.session Examples.bothCallbacks true false
             MoreExamples.playThenPause))).
Proof.
  apply (mouth_values_in_unit_interval Examples.bothCallbacks true false
           MoreExamples.playThenPause).
  repeat constructor. vm_compute. discriminate.
Defined.

Lemma detached_subscription_is_silent_witness :
  MouthSync.run Examples.bothCallbacks MoreExamples.playThenPause
    (MouthSync.stateOf
       (MouthSync.session Examples.bothCallbacks true false
          (MoreExamples.playThenPause ++ [MouthSync.Detach])))
  = (tt,
     MouthSync.stateOf
       (MouthSync.session Examples.bothCallbacks true false
          (MoreExamples.playThenPause ++ [MouthSync.Detach])),
     [])
  /\ MouthSync.traceOf
       (MouthSync.session Examples.bothCallbacks true false
          (MoreExamples.playThenPause
           ++ MouthSync.Detach :: MoreExamples.playThenPause))
     = MouthSync.traceOf
         (MouthSync.session Examples.bothCallbacks true false
            (MoreExamples.playThenPause ++ [MouthSync.Detach]))
  /\ last
       (MouthSync.mouthValues
          (MouthSync.traceOf
             (MouthSync.session Examples.bothCallbacks true false
                (MoreExamples.playThenPause ++ [MouthSync.Detach]))))
     = Some 0.
Proof.
  apply (detached_subscription_is_silent Examples.bothCallbacks true false
           MoreExamples.playThenPause MoreExamples.playThenPause).
  reflexivity.
Defined.

Lemma stopped_loop_publishes_nothing_witness :
  MouthSync.sampling
    (MouthSync.stateOf
       (MouthSync.handle Examples.bothCallbacks MouthSync.Ended
          (MouthSync.stateOf
             (MouthSync.session Examples.bothCallbacks false false
                [MouthSync.Play])))) = false
  /\ MouthSync.run Examples.bothCallbacks
       (Runs.frames MoreExamples.threeReadings)
       (MouthSync.stateOf
          (MouthSync.handle Examples.bothCallbacks MouthSync.Ended
             (MouthSync.stateOf
                (MouthSync.session Examples.bothCallbacks false false
                   [MouthSync.Play]))))
     = (tt,
        MouthSync.stateOf
          (MouthSync.handle Examples.bothCallbacks MouthSync.Ended
             (MouthSync.stateOf
                (MouthSync.session Examples.bothCallbacks false false
                   [MouthSync.Play]))),
        []).
Proof.
  apply (stopped_loop_publishes_nothing Examples.bothCallbacks false false
           [MouthSync.Play] MouthSync.Ended MoreExamples.threeReadings).
  right. left. reflexivity.
Defined.

Lemma sampling_publishes_every_frame_witness :
  MouthSync.mouthValues
    (MouthSync.traceOf
       (MouthSync.run Examples.bothCallbacks
          (Runs.frames MoreExamples.threeReadings)
          (MouthSync.stateOf
             (MouthSync.session Examples.bothCallbacks false false
                [MouthSync.Play]))))
  = map (fun r => MouthSync.amp (fst r)) MoreExamples.threeReadings
  /\ MouthSync.visemeValues
       (MouthSync.traceOf
          (MouthSync.run Examples.bothCallbacks
             (Runs.frames MoreExamples.threeReadings)
             (MouthSync.stateOf
                (MouthSync.session Examples.bothCallbacks false false
                   [MouthSync.Play]))))
     = flat_map (fun r => Runs.centroidOf Examples.bothCallbacks (snd r))
         MoreExamples.threeReadings
  /\ MouthSync.sampling
       (MouthSync.stateOf
          (MouthSync.run Examples.bothCallbacks
             (Runs.frames MoreExamples.threeReadings)
             (MouthSync.stateOf
                (MouthSync.session Examples.bothCallbacks false false
                   [MouthSync.Play])))) = true.
Proof.
  apply (sampling_publishes_every_frame Examples.bothCallbacks false false
           [MouthSync.Play] MoreExamples.threeReadings).
  reflexivity.
Defined.

(** * Further properties of the session cache *)

Section CacheContents.

Import MouthSync Sessions.

Lemma hookCall_origin (c : HookCall) (w : World) (audio : nat)
    (e : AudioSession) :
  graph (hookCall c w) !! audio = Some e ->
  graph w !! audio = Some e \/ c = Attach (Some audio).
Proof.
  destruct c as [[a|]|]; cbn [hookCall attach fst]; auto.
  destruct (graph w !! a) as [e0|] eqn:E; cbn [fst]; auto.
  cbn [createSession fst graph].
  destruct (decide (a = audio)) as [->|Hne]; [auto|].
  rewrite lookup_insert_ne by exact Hne. auto.
Qed.

Lemma runHook_origin (calls : list HookCall) (w : World) (audio : nat)
    (e : AudioSession) :
  graph (runHook calls w) !! audio = Some e ->
  graph w !! audio = Some e \/ In (Attach (Some audio)) calls.
Proof.
  revert w. induction calls as [|c rest IH]; intros w H; [auto|].
  cbn [runHook fold_left] in H. destruct (IH _ H) as [H1|H1].
  - destruct (hookCall_origin c w audio e H1) as [H2| ->];
      [auto|right; left; reflexivity].
  - right. right. exact H1.
Qed.

(** X7.  The cache holds a session for exactly the elements the effect has run
    on: an effect run with [audioRef.current] null adds nothing, and a
    cleanup evicts nothing. *)
Theorem cache_holds_attached_elements (calls : list HookCall) (audio : nat) :
  is_Some (graph (runHook calls initialWorld) !! audio)
  <-> In (Attach (Some audio)) calls.
Proof.
  split.
  - intros [e He]. destruct (runHook_origin calls initialWorld audio e He)
      as [H|H]; [|exact H].
    cbn in H. rewrite lookup_empty in H. discriminate.
  - apply runHook_attached.
Qed.

Lemma sessionOk_grow (w : World) (audio a : nat) (e : AudioSession) :
  sessionOk w a e -> sessionOk (fst (createSession audio w)) a e.
Proof.
  intros (H1 & H2 & H3 & H4 & H5 & H6). repeat split; try assumption.
  - cbn. lia.
  - cbn. apply in_or_app. left. exact H6.
Qed.

Lemma hookCall_sessionsInv (c : HookCall) (w : World) :
  sessionsInv w -> sessionsInv (hookCall c w).
Proof.
  intros [Hok Hapart]. destruct c as [[audio|]|]; [|split; assumption..].
  destruct (graph w !! audio) as [e0|] eqn:E.
  { rewrite hookCall_hit by (rewrite E; eauto). split; assumption. }
  rewrite (hookCall_miss _ _ E). split.
  - intros a e. cbn [createSession fst graph].
    destruct (decide (audio = a)) as [->|Hne].
    + rewrite lookup_insert_eq. intros [= <-].
      repeat split; cbn; try lia.
      apply in_or_app. right. right. left. reflexivity.
    + rewrite lookup_insert_ne by exact Hne. intros He.
      apply sessionOk_grow, Hok, He.
  - intros a b ea eb Hab. cbn [createSession fst graph].
    destruct (decide (audio = a)) as [Ea|Hna];
      destruct (decide (audio = b)) as [Eb|Hnb].
    + congruence.
    + subst a. rewrite lookup_insert_eq, lookup_insert_ne by exact Hnb.
      intros [= <-] Hb. destruct (Hok b eb Hb) as (_ & _ & _ & Han & Hlt & _).
      unfold apart. cbn. lia.
    + subst b. rewrite lookup_insert_ne by exact Hna.
      rewrite lookup_insert_eq.
      intros Ha [= <-]. destruct (Hok a ea Ha) as (_ & _ & _ & Han & Hlt & _).
      unfold apart. cbn. lia.
    + rewrite !lookup_insert_ne by assumption. apply Hapart, Hab.
Qed.

Lemma runHook_sessionsInv (calls : list HookCall) (w : World) :
  sessionsInv w -> sessionsInv (runHook calls w).
Proof.
  revert w. induction calls as [|c rest IH]; intros w Hw; [exact Hw|].
  cbn [runHook fold_left]. apply IH, hookCall_sessionsInv, Hw.
Qed.

Lemma sessionsInv_initial : sessionsInv initialWorld.
Proof.
  split.
  - intros a e H. cbn in H. rewrite lookup_empty in H. discriminate.
  - intros a b ea eb _ H. cbn in H. rewrite lookup_empty in H. discriminate.
Qed.

(** X8.  Every cached session analyses a 2048-sample window into 1024 bins and
    owns the tap node of the element it is cached for; the sessions of two
    different elements share no audio context, tap or analyser. *)
Theorem cached_sessions_are_configured_and_disjoint (calls : list HookCall)
    (a b : nat) (ea eb : AudioSession) :
  let w := runHook calls initialWorld in
  graph w !! a = Some ea ->
  graph w !! b = Some eb ->
  fftSize ea = 2048%nat
  /\ freqDataLength ea = frequencyBinCount (fftSize ea)
  /\ In (MediaElementSourceNode (src ea) a) (nodes w)
  /\ NoDup (nodeIds ea)
  /\ (a <> b -> forall id : nat, In id (nodeIds ea) -> ~ In id (nodeIds eb)).
Proof.
  intros w Ha Hb.
  destruct (runHook_sessionsInv calls initialWorld sessionsInv_initial)
    as [Hok Hapart].
  fold w in Hok, Hapart.
  destruct (Hok a ea Ha) as (Hfft & Hlen & Hsrc & Han & _ & Htap).
  destruct (Hok b eb Hb) as (_ & _ & Hsrc' & Han' & _ & _).
  split; [exact Hfft|]. split; [rewrite Hfft, Hlen; reflexivity|].
  split; [exact Htap|]. split.
  - unfold nodeIds. rewrite Hsrc, Han.
    repeat (apply NoDup_cons_2 || apply NoDup_nil_2);
      rewrite ?elem_of_cons, ?elem_of_nil; lia.
  - intros Hab id Hin Hin'. specialize (Hapart a b ea eb Hab Ha Hb).
    unfold nodeIds, apart in *. cbn in Hin, Hin'. lia.
Qed.

End CacheContents.

Lemma cached_sessions_are_configured_and_disjoint_witness :
  exists ea eb : MouthSync.AudioSession,
    MouthSync.graph (MouthSync.runHook MoreExamples.twoElements
                       MouthSync.initialWorld) !! 7%nat = Some ea
    /\ MouthSync.graph (MouthSync.runHook MoreExamples.twoElements
                          MouthSync.initialWorld) !! 3%nat = Some eb
    /\ MouthSync.fftSize ea = 2048%nat
    /\ MouthSync.freqDataLength ea
       = MouthSync.frequencyBinCount (MouthSync.fftSize ea)
    /\ In (MouthSync.MediaElementSourceNode (MouthSync.src ea) 7)
         (MouthSync.nodes (MouthSync.runHook MoreExamples.twoElements
                             MouthSync.initialWorld))
    /\ NoDup (Sessions.nodeIds ea)
    /\ (7%nat <> 3%nat ->
        forall id : nat,
          In id (Sessions.nodeIds ea) -> ~ In id (Sessions.nodeIds eb)).
Proof.
  eexists. eexists.
  split; [vm_compute; reflexivity|]. split; [vm_compute; reflexivity|].
  apply (cached_sessions_are_configured_and_disjoint MoreExamples.twoElements
           7%nat 3%nat); vm_compute; reflexivity.
Defined.

(** * Further properties of the selector *)

Section SelectorRuns.

Import AvatarCanvas SelectorRuns.

Variable faceMeshes : list FaceMesh.

Lemma index_member {A : Type} (l : list A) (pos : Z) (x : A) :
  JS.index l pos = Some x -> In x l.
Proof.
  unfold JS.index. destruct (pos <? 0)%Z; [discriminate|].
  intros H. apply list_elem_of_In. eapply list_elem_of_lookup_2, H.
Qed.

Lemma pick_member (palette : list nat) (pos : Z) (x : nat) :
  pick palette pos = Some x -> In x palette.
Proof.
  unfold pick, JS.or_else.
  destruct (JS.index palette pos) as [[|y]|] eqn:E.
  - apply index_member.
  - intros [= <-]. apply (index_member _ _ _ E).
  - apply index_member.
Qed.

Lemma pick_some (palette : list nat) (pos : Z) :
  palette <> [] -> (0 <= pos < Z.of_nat (length palette))%Z ->
  exists x, pick palette pos = Some x /\ In x palette.
Proof.
  intros Hne Hpos.
  assert (H : is_Some (pick palette pos)).
  { unfold pick, JS.or_else, JS.index.
    destruct (Z.ltb_spec pos 0); [lia|].
    destruct (palette !! Z.to_nat pos) as [[|y]|] eqn:E; [|eauto|].
    - destruct palette; [congruence|cbn; eauto].
    - apply lookup_ge_None in E. lia. }
  destruct H as [x Hx]. exists x. split; [exact Hx|].
  apply (pick_member _ _ _ Hx).
Qed.

Lemma useFrame_selection (p : Props) (delta : Q) (r : Refs) :
  selectionInPalette faceMeshes r ->
  selectionInPalette faceMeshes (useFrame faceMeshes p delta r).
Proof.
  unfold selectionInPalette, useFrame. intros Hr.
  repeat match goal with
         | |- context [if ?b then _ else _] => destruct b
         end; cbn; try exact I; try exact Hr;
    (destruct (pick _ _) eqn:E; [apply (pick_member _ _ _ E)|exact I]).
Qed.

Lemma runFrames_selection (frames : list Frame) (r : Refs) :
  selectionInPalette faceMeshes r ->
  selectionInPalette faceMeshes (runFrames faceMeshes frames r).
Proof.
  revert r. induction frames as [|f rest IH]; intros r Hr; [exact Hr|].
  cbn [runFrames fold_left]. apply IH, useFrame_selection, Hr.
Qed.

(** X9.  The selector never selects a shape outside the palette: after any run of
    frames the current viseme, if there is one, is one of the palette's shape
    indices.  With an empty palette there is never a selection. *)
Theorem selection_stays_in_palette (frames : list Frame) (x : nat) :
  currentViseme (runFrames faceMeshes frames initialRefs) = Some x ->
  In x (allShapeIndices faceMeshes).
Proof.
  intros H.
  pose proof (runFrames_selection frames initialRefs I) as Hsel.
  unfold selectionInPalette in Hsel. rewrite H in Hsel. exact Hsel.
Qed.

Lemma interval_le_max (v : Q) : interval v <= 0.24.
Proof.
  rewrite interval_linear.
  pose proof (clamp_bounds v 0 1 ltac:(lra)). lra.
Qed.

Lemma interval_ge_min (v : Q) : 0.06 <= interval v.
Proof.
  rewrite interval_linear.
  pose proof (clamp_bounds v 0 1 ltac:(lra)). lra.
Qed.

Lemma useFrame_timer (p : Props) (delta : Q) (r : Refs) :
  visemeTimer r < 0.24 ->
  visemeTimer (useFrame faceMeshes p delta r) < 0.24
  /\ (0 <= delta -> 0 <= visemeTimer r ->
      0 <= visemeTimer (useFrame faceMeshes p delta r)).
Proof.
  intros Hr. unfold useFrame.
  destruct (talking _); [|cbn; split; [reflexivity|intros; lra]].
  destruct (_ && _); [cbn; split; [exact Hr|auto]|].
  destruct (JS.geb _ _) eqn:E; cbn; [split; [reflexivity|intros; lra]|].
  apply geb_false in E. split.
  - eapply Qlt_le_trans; [exact E|apply interval_le_max].
  - intros. lra.
Qed.

Lemma runFrames_timer (frames : list Frame) (r : Refs) :
  visemeTimer r < 0.24 ->
  visemeTimer (runFrames faceMeshes frames r) < 0.24
  /\ (Forall (fun f => 0 <= elapsed f) frames -> 0 <= visemeTimer r ->
      0 <= visemeTimer (runFrames faceMeshes frames r)).
Proof.
  revert r. induction frames as [|f rest IH]; intros r Hr.
  - cbn. auto.
  - cbn [runFrames fold_left].
    destruct (useFrame_timer (props f) (elapsed f) r Hr) as [H1 H2].
    destruct (IH _ H1) as [H3 H4]. split; [exact H3|].
    intros Hall H0. apply Forall_cons in Hall as [Hf Hrest].
    apply H4; [exact Hrest|]. apply H2; assumption.
Qed.

(** X10.  The cadence timer never reaches the longest switching interval: after
    any run of frames it is below 0.24, and it is not negative when no frame
    reports a negative elapsed time. *)
Theorem cadence_timer_stays_below_longest_interval (frames : list Frame) :
  visemeTimer (runFrames faceMeshes frames initialRefs) < 0.24
  /\ (Forall (fun f => 0 <= elapsed f) frames ->
      0 <= visemeTimer (runFrames faceMeshes frames initialRefs)).
Proof.
  destruct (runFrames_timer frames initialRefs ltac:(reflexivity))
    as [H1 H2].
  split; [exact H1|]. intros Hall. apply H2; [exact Hall|]. cbn. lra.
Qed.

(** X11.  On a talking tick without a usable centroid, once the advanced
    timer has reached the interval the timer restarts from 0 and the viseme
    is chosen from the smoothed amplitude.  With a palette the position
    [floor(clamp(v, 0, 0.9999) * paletteSize)] lies inside the palette and
    the selection is [allShapeIndices[pos] || allShapeIndices[0]]: the entry
    at that position unless that entry is the shape index 0, and the first
    entry of the palette when it is; either way one of the palette's shapes.
    Without a palette the selection is cleared. *)
Theorem cadence_switch_picks_by_amplitude (p : Props) (delta : Q) (r : Refs) :
  0.02 < mouthSmooth (useFrame faceMeshes p delta r) ->
  visemeProp p <= 0 \/ allShapeIndices faceMeshes = [] ->
  interval (mouthSmooth (useFrame faceMeshes p delta r))
    <= visemeTimer r + delta ->
  let r' := useFrame faceMeshes p delta r in
  let palette := allShapeIndices faceMeshes in
  visemeTimer r' = 0
  /\ (palette = [] -> currentViseme r' = None)
  /\ (palette <> [] ->
      (0 <= palettePos (mouthSmooth r') palette < Z.of_nat (length palette))%Z
      /\ currentViseme r' = pick palette (palettePos (mouthSmooth r') palette)
      /\ (exists entry first : nat,
            palette !! Z.to_nat (palettePos (mouthSmooth r') palette)
            = Some entry
            /\ palette !! 0%nat = Some first
            /\ currentViseme r'
               = Some (if (entry =? 0)%nat then first else entry))
      /\ exists x, currentViseme r' = Some x /\ In x palette).
Proof.
  intros Hv Hno Ht r' palette.
  assert (Hms : mouthSmooth r' = smooth (mouthSmooth r) (mouth p))
    by apply useFrame_mouthSmooth.
  unfold r' in Hms |- *. rewrite Hms in *.
  apply gtb_true in Hv. apply geb_true in Ht.
  assert (Hc : JS.gtb (visemeProp p) 0
               && (0 <? length (allShapeIndices faceMeshes))%nat = false).
  { destruct Hno as [Hle|Hnil].
    - apply gtb_false in Hle. rewrite Hle. reflexivity.
    - rewrite Hnil. apply andb_false_r. }
  unfold useFrame, talking. rewrite Hv, Hc, Ht.
  cbn [visemeTimer currentViseme mouthSmooth].
  split; [reflexivity|]. split.
  - intros E. fold palette. rewrite E. reflexivity.
  - intros Hne. fold palette.
    assert (Hl : (0 <? length palette)%nat = true).
    { apply Nat.ltb_lt. destruct palette; [congruence|cbn; lia]. }
    rewrite Hl.
    pose proof (palettePos_in_range (smooth (mouthSmooth r) (mouth p))
                  palette Hne) as Hpos.
    split; [exact Hpos|]. split; [reflexivity|]. split.
    + set (pos := palettePos (smooth (mouthSmooth r) (mouth p)) palette)
        in *.
      destruct (palette !! Z.to_nat pos) as [entry|] eqn:Ee;
        [|apply lookup_ge_None in Ee; lia].
      destruct (palette !! 0%nat) as [first|] eqn:Ef;
        [|apply lookup_ge_None in Ef; lia].
      exists entry, first. split; [reflexivity|]. split; [reflexivity|].
      rewrite (pick_in_range palette pos entry ltac:(lia) Ee), Ef.
      destruct (entry =? 0)%nat; reflexivity.
    + apply pick_some; assumption.
Qed.

Lemma runFrames_app (xs ys : list Frame) (r : Refs) :
  runFrames faceMeshes (xs ++ ys) r
  = runFrames faceMeshes ys (runFrames faceMeshes xs r).
Proof. unfold runFrames. apply fold_left_app. Qed.

Lemma decay_range (n : nat) : 0 < decay n <= 1.
Proof.
  induction n as [|k [IH1 IH2]]; cbn [decay]; split; lra.
Qed.

Lemma decay_antitone (n m : nat) : (n <= m)%nat -> decay m <= decay n.
Proof.
  induction 1 as [|m _ IH]; [lra|].
  cbn [decay]. pose proof (decay_range m). lra.
Qed.

(** In exact arithmetic, while the raw amplitude clamps to the same value
    [c] on every frame, the distance of the smoothed amplitude from [c]
    after [n] frames is [0.65 ^ n] times the distance it started with. *)
Lemma smooth_run_exact (c : Q) (frames : list Frame) (r : Refs) :
  Forall (rawIs c) frames ->
  mouthSmooth (runFrames faceMeshes frames r) - c
  == decay (length frames) * (mouthSmooth r - c).
Proof.
  revert r. induction frames as [|f rest IH]; intros r Hall.
  - cbn. ring.
  - apply Forall_cons in Hall as [Hf Hrest].
    cbn [runFrames fold_left length decay].
    fold (runFrames faceMeshes rest (useFrame faceMeshes (props f) (elapsed f) r)).
    rewrite (IH _ Hrest), useFrame_mouthSmooth.
    unfold smooth. rewrite lerp_step. unfold rawIs in Hf. rewrite Hf. ring.
Qed.

Lemma silent_rawIs (f : Frame) : silent f -> rawIs 0 f.
Proof.
  unfold silent, rawIs, MathUtils.clamp, JS.Math_max, JS.Math_min.
  intros H.
  destruct (Q.min_spec 1 (mouth (props f))) as [[? Hm]|[? Hm]];
    destruct (Q.max_spec 0 (Qmin 1 (mouth (props f)))) as [[? HM]|[? HM]];
    rewrite HM; rewrite ?Hm; lra.
Qed.

Lemma useFrame_quiet (p : Props) (delta : Q) (r : Refs) :
  mouthSmooth (useFrame faceMeshes p delta r) <= 0.02 ->
  visemeTimer (useFrame faceMeshes p delta r) = 0
  /\ currentViseme (useFrame faceMeshes p delta r) = None.
Proof.
  rewrite useFrame_mouthSmooth. intros Hv. apply gtb_false in Hv.
  unfold useFrame, talking. rewrite Hv. split; reflexivity.
Qed.

(** X13.  Once the engine reports silence, the mouth closes within ten frames:
    after any history, ten or more consecutive frames with raw amplitude 0
    (or below) bring the smoothed amplitude to at most 0.02, so the selector
    is not talking, the selection is cleared and the cadence timer is 0. *)
Theorem silence_closes_mouth_within_ten_frames (history quiet : list Frame) :
  Forall silent quiet ->
  (10 <= length quiet)%nat ->
  let r := runFrames faceMeshes (history ++ quiet) initialRefs in
  0 <= mouthSmooth r <= 0.02
  /\ talking (mouthSmooth r) = false
  /\ currentViseme r = None
  /\ visemeTimer r = 0.
Proof.
  intros Hq Hlen r.
  assert (Hb : 0 <= mouthSmooth r <= 1).
  { apply runFrames_bounds. cbn. lra. }
  set (r0 := runFrames faceMeshes history initialRefs).
  assert (H0 : 0 <= mouthSmooth r0 <= 1).
  { apply runFrames_bounds. cbn. lra. }
  assert (Hr : r = runFrames faceMeshes quiet r0) by apply runFrames_app.
  assert (Hall : Forall (rawIs 0) quiet).
  { eapply Forall_impl; [exact Hq|]. apply silent_rawIs. }
  pose proof (smooth_run_exact 0 quiet r0 Hall) as Hgeo.
  rewrite <- Hr in Hgeo.
  pose proof (decay_antitone 10 (length quiet) Hlen) as Hd.
  pose proof (decay_range (length quiet)) as Hd0.
  assert (Hten : decay 10 <= 0.02) by (vm_compute; discriminate).
  assert (Hv : mouthSmooth r <= 0.02) by nra.
  split; [lra|]. split; [apply gtb_false, Hv|].
  destruct quiet as [|f rest] using rev_ind; [cbn in Hlen; lia|].
  clear IHrest.
  assert (Hlast : r = useFrame faceMeshes (props f) (elapsed f)
                        (runFrames faceMeshes (history ++ rest) initialRefs)).
  { unfold r. rewrite app_assoc, runFrames_app. reflexivity. }
  rewrite Hlast in Hv |- *.
  destruct (useFrame_quiet _ _ _ Hv) as [Ht Hc]. split; assumption.
Qed.

End SelectorRuns.

Lemma selection_stays_in_palette_witness :
  In 5%nat (AvatarCanvas.allShapeIndices Examples.shapeZeroSecond).
Proof.
  apply (selection_stays_in_palette Examples.shapeZeroSecond
           MoreExamples.brightFrames 5%nat).
  reflexivity.
Defined.

Lemma cadence_switch_picks_by_amplitude_witness :
  AvatarCanvas.palettePos
    (AvatarCanvas.mouthSmooth
       (AvatarCanvas.useFrame Examples.shapeZeroSecond Examples.steadyProps
          0.1 Examples.steadyRefs))
    (AvatarCanvas.allShapeIndices Examples.shapeZeroSecond) = 1%Z
  /\ AvatarCanvas.allShapeIndices Examples.shapeZeroSecond !! 1%nat
     = Some 0%nat
  /\ AvatarCanvas.visemeTimer
       (AvatarCanvas.useFrame Examples.shapeZeroSecond Examples.steadyProps
          0.1 Examples.steadyRefs) = 0
  /\ exists entry first : nat,
       AvatarCanvas.allShapeIndices Examples.shapeZeroSecond
         !! Z.to_nat
              (AvatarCanvas.palettePos
                 (AvatarCanvas.mouthSmooth
                    (AvatarCanvas.useFrame Examples.shapeZeroSecond
                       Examples.steadyProps 0.1 Examples.steadyRefs))
                 (AvatarCanvas.allShapeIndices Examples.shapeZeroSecond))
       = Some entry
       /\ AvatarCanvas.allShapeIndices Examples.shapeZeroSecond !! 0%nat
          = Some first
       /\ AvatarCanvas.currentViseme
            (AvatarCanvas.useFrame Examples.shapeZeroSecond
               Examples.steadyProps 0.1 Examples.steadyRefs)
          = Some (if (entry =? 0)%nat then first else entry).
Proof.
  destruct (cadence_switch_picks_by_amplitude Examples.shapeZeroSecond
              Examples.steadyProps 0.1 Examples.steadyRefs)
    as (Ht & _ & Hp).
  - reflexivity.
  - left. vm_compute. discriminate.
  - vm_compute. discriminate.
  - destruct Hp as (_ & _ & Hpick & _); [discriminate|].
    split; [reflexivity|]. split; [reflexivity|]. split; [exact Ht|].
    exact Hpick.
Defined.

Lemma silence_closes_mouth_within_ten_frames_witness :
  0 <= AvatarCanvas.mouthSmooth
         (AvatarCanvas.runFrames Examples.twoShapes
            (MoreExamples.brightFrames ++ repeat MoreExamples.silentFrame 10)
            AvatarCanvas.initialRefs) <= 0.02
  /\ AvatarCanvas.talking
       (AvatarCanvas.mouthSmooth
          (AvatarCanvas.runFrames Examples.twoShapes
             (MoreExamples.brightFrames ++ repeat MoreExamples.silentFrame 10)
             AvatarCanvas.initialRefs)) = false
  /\ AvatarCanvas.currentViseme
       (AvatarCanvas.runFrames Examples.twoShapes
          (MoreExamples.brightFrames ++ repeat MoreExamples.silentFrame 10)
          AvatarCanvas.initialRefs) = None
  /\ AvatarCanvas.visemeTimer
       (AvatarCanvas.runFrames Examples.twoShapes
          (MoreExamples.brightFrames ++ repeat MoreExamples.silentFrame 10)
          AvatarCanvas.initialRefs) = 0.
Proof.
  apply (silence_closes_mouth_within_ten_frames Examples.twoShapes
           MoreExamples.brightFrames (repeat MoreExamples.silentFrame 10)).
  - repeat constructor; vm_compute; discriminate.
  - vm_compute. lia.
Defined.

(** * Properties of the morph target blend *)

Section MorphBlend.

Import AvatarCanvas Morph.

Lemma read_write_eq (a : list Influence) (j : nat) (x : Influence) :
  read (write a j x) j = x.
Proof.
  unfold read, write. destruct (Nat.ltb_spec j (length a)) as [Hlt|Hge].
  - rewrite list_lookup_insert_eq by exact Hlt. reflexivity.
  - rewrite lookup_app_r by exact Hge.
    rewrite lookup_app_r by (rewrite length_replicate; lia).
    rewrite length_replicate, Nat.sub_diag. reflexivity.
Qed.

Lemma read_write_ne (a : list Influence) (j idx : nat) (x : Influence) :
  idx <> j -> read (write a j x) idx = read a idx.
Proof.
  intros Hne. unfold read, write.
  destruct (Nat.ltb_spec j (length a)) as [Hlt|Hge].
  - rewrite list_lookup_insert_ne by congruence. reflexivity.
  - destruct (Nat.lt_ge_cases idx (length a)) as [Hi|Hi].
    + rewrite lookup_app_l by exact Hi. reflexivity.
    + rewrite lookup_app_r by exact Hi.
      rewrite (lookup_ge_None_2 a idx) by exact Hi.
      destruct (Nat.lt_ge_cases (idx - length a) (j - length a)) as [Hk|Hk].
      * rewrite lookup_app_l by (rewrite length_replicate; exact Hk).
        rewrite lookup_replicate_2 by exact Hk. reflexivity.
      * rewrite lookup_app_r by (rewrite length_replicate; exact Hk).
        rewrite length_replicate.
        destruct (idx - length a - (j - length a))%nat as [|k] eqn:E;
          [lia|reflexivity].
Qed.

Lemma length_write (a : list Influence) (j : nat) (x : Influence) :
  length (write a j x) = Nat.max (length a) (S j).
Proof.
  unfold write. destruct (Nat.ltb_spec j (length a)) as [Hlt|Hge].
  - rewrite length_insert. lia.
  - rewrite !length_app, length_replicate. cbn. lia.
Qed.

Lemma fold_blend_outside (r : Refs) (l : list nat) (a : list Influence)
    (idx : nat) :
  ~ In idx l -> read (fold_left (blendShape r) l a) idx = read a idx.
Proof.
  revert a. induction l as [|j rest IH]; intros a Hnot; [reflexivity|].
  cbn [fold_left]. rewrite IH by (intros H; apply Hnot; right; exact H).
  unfold blendShape. apply read_write_ne. intros ->. apply Hnot. left.
  reflexivity.
Qed.

Lemma fold_blend_inside (r : Refs) (l : list nat) (a : list Influence)
    (idx : nat) :
  NoDup l -> In idx l ->
  read (fold_left (blendShape r) l a) idx
  = blend (read a idx) (target r idx).
Proof.
  revert a. induction l as [|j rest IH]; intros a Hnd Hin; [destruct Hin|].
  apply NoDup_cons in Hnd as [Hj Hrest]. cbn [fold_left].
  destruct Hin as [->|Hin].
  - rewrite fold_blend_outside
      by (intros H; apply Hj, list_elem_of_In, H).
    unfold blendShape. apply read_write_eq.
  - rewrite (IH _ Hrest Hin). unfold blendShape at 1.
    rewrite read_write_ne; [reflexivity|].
    intros ->. apply Hj, list_elem_of_In, Hin.
Qed.

(** X14.  A frame changes only the influences the mesh is driven by: with discrete
    shapes, every index outside [shapeIndices] keeps its value, the fallback
    [mouthIndex] included; without discrete shapes, every index other than
    [mouthIndex] keeps its value. *)
Theorem blend_leaves_other_influences (r : Refs) (m : MeshState)
    (a : list Influence) (idx : nat) :
  influences m = Some a ->
  (if (0 <? length (shapeIndices (face m)))%nat
   then ~ In idx (shapeIndices (face m))
   else mouthIndex (face m) <> Some idx) ->
  exists a' : list Influence,
    influences (applyMesh r m) = Some a' /\ read a' idx = read a idx.
Proof.
  intros Ha Hout. unfold applyMesh. rewrite Ha.
  destruct (0 <? length (shapeIndices (face m)))%nat.
  - eexists. split; [reflexivity|]. apply fold_blend_outside, Hout.
  - destruct (mouthIndex (face m)) as [mi|] eqn:E.
    + eexists. split; [reflexivity|]. apply read_write_ne. congruence.
    + exists a. split; [exact Ha|reflexivity].
Qed.

(** X15.  With distinct shape indices, a frame moves every shape's influence one
    interpolation step of factor 0.35: the current viseme's toward the
    smoothed amplitude, every other shape's toward 0, that is to 0.65 times
    its value.  An influence that is not a number stays not a number. *)
Theorem blend_steps_each_shape_once (r : Refs) (m : MeshState)
    (a : list Influence) (idx : nat) :
  influences m = Some a ->
  NoDup (shapeIndices (face m)) ->
  In idx (shapeIndices (face m)) ->
  exists a' : list Influence,
    influences (applyMesh r m) = Some a'
    /\ read a' idx = blend (read a idx) (target r idx)
    /\ (forall q : Q, read a idx = Some q ->
        exists q' : Q,
          read a' idx = Some q'
          /\ (currentViseme r = Some idx ->
              q' == q + 0.35 * (mouthSmooth r - q))
          /\ (currentViseme r <> Some idx -> q' == 0.65 * q))
    /\ (read a idx = None -> read a' idx = None).
Proof.
  intros Ha Hnd Hin. unfold applyMesh. rewrite Ha.
  assert (Hl : (0 <? length (shapeIndices (face m)))%nat = true).
  { apply Nat.ltb_lt. destruct (shapeIndices (face m)); [destruct Hin|cbn; lia]. }
  rewrite Hl. eexists. split; [reflexivity|].
  pose proof (fold_blend_inside r _ a idx Hnd Hin) as Hstep.
  split; [exact Hstep|]. split.
  - intros q Hq. rewrite Hstep, Hq. cbn [blend]. eexists. split; [reflexivity|].
    unfold target. split.
    + intros ->. rewrite Nat.eqb_refl. apply lerp_step.
    + intros Hne. rewrite lerp_step.
      destruct (currentViseme r) as [c|]; [|ring].
      destruct (Nat.eqb_spec c idx) as [->|_]; [congruence|ring].
  - intros Hq. rewrite Hstep, Hq. reflexivity.
Qed.

(** X16.  A shape index at or beyond the end of the influences array makes the
    array grow up to that index, and the entry written there is not a
    number. *)
Theorem blend_beyond_the_end_plants_nan (r : Refs) (a : list Influence)
    (idx : nat) :
  (length a <= idx)%nat ->
  length (blendShape r a idx) = S idx
  /\ read (blendShape r a idx) idx = None
  /\ (forall k : nat, (k < length a)%nat ->
      read (blendShape r a idx) k = read a k).
Proof.
  intros Hge. unfold blendShape. split; [rewrite length_write; lia|]. split.
  - rewrite read_write_eq. unfold read.
    rewrite (lookup_ge_None_2 a idx) by exact Hge. reflexivity.
  - intros k Hk. apply read_write_ne. lia.
Qed.

Lemma blend_unit (x : Influence) (t : Q) :
  unitNumber x -> 0 <= t <= 1 -> unitNumber (blend x t).
Proof.
  destruct x as [q|]; cbn; [|tauto]. intros Hq Ht.
  rewrite lerp_step. split; lra.
Qed.

Lemma target_unit (r : Refs) (idx : nat) :
  0 <= mouthSmooth r <= 1 -> 0 <= target r idx <= 1.
Proof.
  intros Hv. unfold target. destruct (currentViseme r) as [c|]; [|lra].
  destruct (c =? idx)%nat; lra.
Qed.

Lemma read_unit (a : list Influence) (idx : nat) :
  Forall unitNumber a -> (idx < length a)%nat -> unitNumber (read a idx).
Proof.
  intros Ha Hlt. unfold read.
  destruct (lookup_lt_is_Some_2 a idx Hlt) as [x Hx]. rewrite Hx.
  eapply Forall_lookup_1; eassumption.
Qed.

Lemma write_unit (a : list Influence) (idx : nat) (x : Influence) :
  Forall unitNumber a -> (idx < length a)%nat -> unitNumber x ->
  Forall unitNumber (write a idx x) /\ length (write a idx x) = length a.
Proof.
  intros Ha Hlt Hx. split; [|rewrite length_write; lia].
  unfold write. apply Nat.ltb_lt in Hlt. rewrite Hlt.
  apply Forall_insert; assumption.
Qed.

Lemma fold_blend_unit (r : Refs) (l : list nat) (a : list Influence) :
  0 <= mouthSmooth r <= 1 ->
  Forall unitNumber a ->
  Forall (fun idx => (idx < length a)%nat) l ->
  Forall unitNumber (fold_left (blendShape r) l a)
  /\ length (fold_left (blendShape r) l a) = length a.
Proof.
  intros Hv. revert a. induction l as [|j rest IH]; intros a Ha Hl; [auto|].
  apply Forall_cons in Hl as [Hj Hrest]. cbn [fold_left].
  destruct (write_unit a j (blend (read a j) (target r j)) Ha Hj) as [H1 H2].
  { apply blend_unit; [apply read_unit; assumption|apply target_unit, Hv]. }
  destruct (IH (blendShape r a j)) as [H3 H4].
  - exact H1.
  - unfold blendShape. rewrite H2. exact Hrest.
  - split; [exact H3|]. rewrite H4. exact H2.
Qed.

Lemma applyMesh_face (r : Refs) (m : MeshState) :
  face (applyMesh r m) = face m.
Proof.
  unfold applyMesh. destruct (influences m); [|reflexivity].
  destruct (0 <? _)%nat; [reflexivity|].
  destruct (mouthIndex (face m)); reflexivity.
Qed.

Lemma applyMesh_ok (r : Refs) (m : MeshState) :
  0 <= mouthSmooth r <= 1 -> meshOk m -> meshOk (applyMesh r m).
Proof.
  intros Hv. unfold meshOk, applyMesh.
  destruct (influences m) as [a|] eqn:Ea; [|rewrite Ea; auto].
  intros (Ha & Hshapes & Hmouth).
  destruct (0 <? length (shapeIndices (face m)))%nat.
  - cbn [influences face].
    destruct (fold_blend_unit r _ a Hv Ha Hshapes) as [H1 H2].
    rewrite H2. auto.
  - destruct (mouthIndex (face m)) as [mi|] eqn:Em.
    + cbn [influences face]. rewrite Em.
      destruct (write_unit a mi (blend (read a mi) (mouthSmooth r)) Ha Hmouth)
        as [H1 H2].
      { apply blend_unit; [apply read_unit; assumption|exact Hv]. }
      rewrite H2. auto.
    + rewrite Ea, Em. auto.
Qed.

Lemma renderFrame_faces (p : Props) (delta : Q) (st : Refs * list MeshState) :
  map face (snd (renderFrame p delta st)) = map face (snd st).
Proof.
  unfold renderFrame. cbn [snd]. rewrite map_map.
  apply map_ext. intros m. apply applyMesh_face.
Qed.

Lemma applyMesh_sameShape (r : Refs) (m : MeshState) :
  0 <= mouthSmooth r <= 1 -> meshOk m -> sameShape m (applyMesh r m).
Proof.
  intros Hv Hm. unfold sameShape. rewrite applyMesh_face.
  split; [reflexivity|]. revert Hm. unfold meshOk, applyMesh.
  destruct (influences m) as [a|] eqn:Ea; [|rewrite Ea; auto].
  intros (Ha & Hshapes & Hmouth).
  destruct (0 <? length (shapeIndices (face m)))%nat.
  - cbn [influences].
    destruct (fold_blend_unit r _ a Hv Ha Hshapes) as [H1 H2]. auto.
  - destruct (mouthIndex (face m)) as [mi|] eqn:Em.
    + cbn [influences].
      destruct (write_unit a mi (blend (read a mi) (mouthSmooth r)) Ha Hmouth)
        as [H1 H2]; [|auto].
      apply blend_unit; [apply read_unit; assumption|exact Hv].
    + rewrite Ea. auto.
Qed.

Lemma sameShape_refl (m : MeshState) : meshOk m -> sameShape m m.
Proof.
  unfold meshOk, sameShape. intros Hm. split; [reflexivity|].
  destruct (influences m); [|exact I]. split; [reflexivity|apply Hm].
Qed.

Lemma sameShape_trans (m1 m2 m3 : MeshState) :
  sameShape m1 m2 -> sameShape m2 m3 -> sameShape m1 m3.
Proof.
  unfold sameShape. intros [F1 H1] [F2 H2]. split; [congruence|].
  destruct (influences m1), (influences m2), (influences m3);
    try contradiction; try exact I.
  destruct H1 as [L1 _], H2 as [L2 U2]. split; [congruence|exact U2].
Qed.

Lemma renderFrame_shapes (p : Props) (delta : Q) (st : Refs * list MeshState) :
  0 <= mouthSmooth (fst (renderFrame p delta st)) <= 1 ->
  Forall meshOk (snd st) ->
  Forall2 sameShape (snd st) (snd (renderFrame p delta st)).
Proof.
  unfold renderFrame. cbn [fst snd]. intros Hv Hok.
  set (r := useFrame (map face (snd st)) p delta (fst st)) in *.
  clearbody r.
  induction Hok as [|m rest Hm _ IH]; [constructor|].
  cbn [map]. constructor; [apply applyMesh_sameShape; assumption|exact IH].
Qed.

Lemma Forall2_sameShape_trans (l1 l2 l3 : list MeshState) :
  Forall2 sameShape l1 l2 -> Forall2 sameShape l2 l3 ->
  Forall2 sameShape l1 l3.
Proof.
  intros H12. revert l3. induction H12 as [|a b l1 l2 Hab _ IH]; intros l3 H23.
  - inversion H23. constructor.
  - inversion H23 as [|b' c l2' l3' Hbc Hrest]; subst.
    constructor; [eapply sameShape_trans; eassumption|apply IH, Hrest].
Qed.

Lemma render_invariant (frames : list Frame) (st : Refs * list MeshState) :
  0 <= mouthSmooth (fst st) <= 1 ->
  Forall meshOk (snd st) ->
  fst (render frames st) = runFrames (map face (snd st)) frames (fst st)
  /\ map face (snd (render frames st)) = map face (snd st)
  /\ Forall meshOk (snd (render frames st))
  /\ Forall2 sameShape (snd st) (snd (render frames st)).
Proof.
  revert st. induction frames as [|f rest IH]; intros st Hv Hok.
  { cbn. split; [reflexivity|]. split; [reflexivity|]. split; [exact Hok|].
    induction Hok; constructor; [apply sameShape_refl; assumption|assumption]. }
  cbn [render fold_left runFrames].
  fold (render rest (renderFrame (props f) (elapsed f) st)).
  fold (runFrames (map face (snd st)) rest
          (useFrame (map face (snd st)) (props f) (elapsed f) (fst st))).
  pose proof (renderFrame_faces (props f) (elapsed f) st) as Hf.
  assert (Hv' : 0 <= mouthSmooth (fst (renderFrame (props f) (elapsed f) st))
                <= 1).
  { unfold renderFrame. cbn [fst]. rewrite useFrame_mouthSmooth.
    apply smooth_bounds, Hv. }
  pose proof (renderFrame_shapes (props f) (elapsed f) st Hv' Hok) as Hsh.
  assert (Hok' : Forall meshOk (snd (renderFrame (props f) (elapsed f) st))).
  { unfold renderFrame in Hv' |- *. cbn [fst snd] in Hv' |- *.
    apply Forall_map. eapply Forall_impl; [exact Hok|].
    intros m Hm. apply applyMesh_ok; assumption. }
  destruct (IH _ Hv' Hok') as (H1 & H2 & H3 & H4).
  rewrite H1, H2, Hf. split; [reflexivity|]. split; [reflexivity|].
  split; [exact H3|]. eapply Forall2_sameShape_trans; eassumption.
Qed.


End MorphBlend.

Lemma blend_leaves_other_influences_witness :
  exists a' : list Morph.Influence,
    Morph.influences (Morph.applyMesh MoreExamples.hotRefs
                        MoreExamples.restingMesh) = Some a'
    /\ Morph.read a' 2 = Morph.read MoreExamples.restingArray 2.
Proof.
  apply (blend_leaves_other_influences MoreExamples.hotRefs
           MoreExamples.restingMesh MoreExamples.restingArray 2%nat).
  - reflexivity.
  - cbn. lia.
Defined.

Lemma blend_steps_each_shape_once_witness :
  exists a' : list Morph.Influence,
    Morph.influences (Morph.applyMesh MoreExamples.hotRefs
                        MoreExamples.restingMesh) = Some a'
    /\ Morph.read a' 1
       = Morph.blend (Morph.read MoreExamples.restingArray 1)
           (AvatarCanvas.target MoreExamples.hotRefs 1)
    /\ (forall q : Q, Morph.read MoreExamples.restingArray 1 = Some q ->
        exists q' : Q,
          Morph.read a' 1 = Some q'
          /\ (AvatarCanvas.currentViseme MoreExamples.hotRefs = Some 1%nat ->
              q' == q + 0.35
                        * (AvatarCanvas.mouthSmooth MoreExamples.hotRefs - q))
          /\ (AvatarCanvas.currentViseme MoreExamples.hotRefs <> Some 1%nat ->
              q' == 0.65 * q))
    /\ (Morph.read MoreExamples.restingArray 1 = None ->
        Morph.read a' 1 = None).
Proof.
  apply (blend_steps_each_shape_once MoreExamples.hotRefs
           MoreExamples.restingMesh MoreExamples.restingArray 1%nat).
  - reflexivity.
  - cbn. repeat (apply NoDup_cons_2 || apply NoDup_nil_2);
      rewrite ?elem_of_cons, ?elem_of_nil; lia.
  - cbn. lia.
Defined.

Lemma blend_beyond_the_end_plants_nan_witness :
  length (Morph.blendShape MoreExamples.hotRefs MoreExamples.shortArray 3) = 4%nat
  /\ Morph.read (Morph.blendShape MoreExamples.hotRefs MoreExamples.shortArray 3) 3 = None
  /\ (forall k : nat, (k < length MoreExamples.shortArray)%nat ->
      Morph.read (Morph.blendShape MoreExamples.hotRefs MoreExamples.shortArray 3) k
      = Morph.read MoreExamples.shortArray k).
Proof.
  apply (blend_beyond_the_end_plants_nan MoreExamples.hotRefs MoreExamples.shortArray 3%nat).
  cbn. lia.
Defined.


(** * Properties of the body animation switching *)

Section AnimationSwitching.

Import Animation.

Variable actions : list Action.

Lemma pool_member (n : String.string) :
  In n (pool actions) ->
  In n (availableNames actions) /\ isIdleName n = false.
Proof.
  unfold pool. intros H. apply List.filter_In in H as [H1 H2].
  split; [exact H1|]. apply negb_true_iff, H2.
Qed.

Lemma pool_lookup (i : nat) :
  pool actions <> [] ->
  exists n, pool actions !! (Nat.modulo i (length (pool actions))) = Some n
            /\ In n (pool actions).
Proof.
  intros Hne.
  assert (Hlt : (Nat.modulo i (length (pool actions)) < length (pool actions))%nat).
  { apply Nat.mod_upper_bound. destruct (pool actions); [congruence|cbn; lia]. }
  destruct (lookup_lt_is_Some_2 _ _ Hlt) as [n Hn].
  exists n. split; [exact Hn|].
  apply list_elem_of_In. eapply list_elem_of_lookup_2, Hn.
Qed.

Lemma sameClip_true (a b : option String.string) :
  sameClip a b = true -> exists n, a = Some n /\ b = Some n.
Proof.
  destruct a as [x|], b as [y|]; cbn; try discriminate.
  intros H. apply String.eqb_eq in H. subst. eauto.
Qed.

Lemma sameClip_refl (n : String.string) : sameClip (Some n) (Some n) = true.
Proof. cbn. apply String.eqb_refl. Qed.

Lemma pool_nonempty_length :
  pool actions <> [] -> (0 <? length (pool actions))%nat = true.
Proof.
  intros H. apply Nat.ltb_lt. destruct (pool actions); [congruence|cbn; lia].
Qed.

(** What a talking frame does once it has decided to switch. *)
Lemma switch_result (v delta : Q) (r : AnimRefs) :
  AvatarCanvas.talking v = true ->
  onIdleClip (currentAction r)
  || JS.geb (switchTimer r + delta) (animInterval v) = true ->
  pool actions <> [] ->
  exists (n : String.string) (index : nat),
    In n (pool actions)
    /\ (index <= length (pool actions))%nat
    /\ (sameClip (Some n) (currentAction r) = false ->
        animFrame actions v delta r
        = ({| switchTimer := 0; animIndexRef := index;
              currentAction := Some n |},
           crossFade actions (Some n) 0.2))
    /\ (sameClip (Some n) (currentAction r) = true ->
        animFrame actions v delta r
        = ({| switchTimer := 0; animIndexRef := index;
              currentAction := currentAction r |}, [])
        /\ pool actions !! Nat.modulo (animIndexRef r) (length (pool actions))
           = Some n
        /\ pool actions
             !! Nat.modulo
                  (Nat.modulo (animIndexRef r) (length (pool actions)) + 1)
                  (length (pool actions)) = Some n).
Proof.
  intros Hv Htrig Hne. unfold animFrame. rewrite Hv, Htrig.
  rewrite (pool_nonempty_length Hne).
  destruct (pool_lookup (animIndexRef r) Hne) as (n1 & Hn1 & Hin1).
  destruct (pool_lookup
              (Nat.modulo (animIndexRef r) (length (pool actions)) + 1) Hne)
    as (n2 & Hn2 & Hin2).
  assert (Hb1 : (Nat.modulo (animIndexRef r) (length (pool actions))
                 < length (pool actions))%nat).
  { apply Nat.mod_upper_bound. destruct (pool actions); [congruence|cbn; lia]. }
  assert (Hb2 : (Nat.modulo
                   (Nat.modulo (animIndexRef r) (length (pool actions)) + 1)
                   (length (pool actions))
                 < length (pool actions))%nat).
  { apply Nat.mod_upper_bound. destruct (pool actions); [congruence|cbn; lia]. }
  rewrite Hn1. destruct (sameClip (Some n1) (currentAction r)) eqn:E1.
  - rewrite Hn2. exists n2. eexists. split; [exact Hin2|].
    split; [|split].
    + apply Hb2.
    + intros E2. cbv zeta beta iota. rewrite E2. reflexivity.
    + intros E2. cbv zeta beta iota. rewrite E2. split; [reflexivity|].
      apply sameClip_true in E1 as (x & Hx1 & Hx2).
      apply sameClip_true in E2 as (y & Hy1 & Hy2).
      assert (n1 = n2) by congruence. subst n2. split; reflexivity.
  - exists n1. eexists. split; [exact Hin1|]. split; [|split].
    + apply Hb1.
    + intros _. cbv zeta beta iota. rewrite E1. reflexivity.
    + intros E2. congruence.
Qed.

Lemma idle_name_not_empty (c : String.string) :
  isIdleName c = true -> String.eqb c String.EmptyString = false.
Proof. destruct c; [discriminate|reflexivity]. Qed.

(** X18.  While talking, a frame that finds an idle-named clip current switches
    away from it at once, whatever the switch timer says, provided some clip
    is not idle-named: the new clip is not idle-named, it fades in and every
    other clip present fades out. *)
Theorem talking_leaves_idle_clip (v delta : Q) (r : AnimRefs)
    (c : String.string) :
  0.02 < v ->
  currentAction r = Some c ->
  isIdleName c = true ->
  pool actions <> [] ->
  exists n : String.string,
    currentAction (fst (animFrame actions v delta r)) = Some n
    /\ In n (availableNames actions)
    /\ isIdleName n = false
    /\ switchTimer (fst (animFrame actions v delta r)) = 0
    /\ snd (animFrame actions v delta r) = crossFade actions (Some n) 0.2.
Proof.
  intros Hv Hc Hidle Hne. apply gtb_true in Hv. change (AvatarCanvas.talking v = true) in Hv.
  assert (Htrig : onIdleClip (currentAction r)
                  || JS.geb (switchTimer r + delta) (animInterval v) = true).
  { rewrite Hc. cbn [onIdleClip]. rewrite (idle_name_not_empty c Hidle), Hidle.
    reflexivity. }
  destruct (switch_result v delta r Hv Htrig Hne)
    as (n & index & Hin & _ & Hswitch & _).
  destruct (pool_member n Hin) as [Hav Hn].
  assert (Hdiff : sameClip (Some n) (currentAction r) = false).
  { rewrite Hc. cbn. destruct (String.eqb_spec n c) as [->|_]; [congruence|].
    reflexivity. }
  rewrite (Hswitch Hdiff). exists n. cbn. auto.
Qed.

(** X19.  While talking, the current clip changes only to a clip of the pool, that
    is to a clip that is not idle-named, and a change restarts the switch
    timer and cross-fades to the new clip. *)
Theorem talking_switches_within_pool (v delta : Q) (r : AnimRefs) :
  0.02 < v ->
  currentAction (fst (animFrame actions v delta r)) <> currentAction r ->
  exists n : String.string,
    currentAction (fst (animFrame actions v delta r)) = Some n
    /\ In n (pool actions)
    /\ isIdleName n = false
    /\ switchTimer (fst (animFrame actions v delta r)) = 0
    /\ snd (animFrame actions v delta r) = crossFade actions (Some n) 0.2.
Proof.
  intros Hv Hchg. apply gtb_true in Hv. change (AvatarCanvas.talking v = true) in Hv.
  destruct (onIdleClip (currentAction r)
            || JS.geb (switchTimer r + delta) (animInterval v)) eqn:Htrig.
  2:{ exfalso. apply Hchg. unfold animFrame. rewrite Hv, Htrig. reflexivity. }
  destruct (pool actions) as [|p0 rest] eqn:Hpool.
  { exfalso. apply Hchg. unfold animFrame. rewrite Hv, Htrig, Hpool.
    reflexivity. }
  assert (Hne : pool actions <> []) by (rewrite Hpool; discriminate).
  rewrite <- Hpool in *.
  destruct (switch_result v delta r Hv Htrig Hne)
    as (n & index & Hin & _ & Hswitch & Hkeep).
  destruct (sameClip (Some n) (currentAction r)) eqn:E.
  - exfalso. apply Hchg. destruct (Hkeep eq_refl) as [-> _]. reflexivity.
  - rewrite (Hswitch eq_refl). exists n. cbn.
    destruct (pool_member n Hin) as [_ Hn]. auto.
Qed.

(** X20.  While talking, once the switch timer has reached the interval and the
    pool holds at least two clips (the clip names being distinct, as object
    keys are), the frame always moves to a different clip. *)
Theorem due_switch_changes_clip (v delta : Q) (r : AnimRefs) :
  0.02 < v ->
  animInterval v <= switchTimer r + delta ->
  NoDup (availableNames actions) ->
  (2 <= length (pool actions))%nat ->
  currentAction (fst (animFrame actions v delta r)) <> currentAction r
  /\ exists n : String.string,
       currentAction (fst (animFrame actions v delta r)) = Some n
       /\ In n (pool actions).
Proof.
  intros Hv Hdue Hnd Hlen. apply gtb_true in Hv. change (AvatarCanvas.talking v = true) in Hv. apply geb_true in Hdue.
  assert (Htrig : onIdleClip (currentAction r)
                  || JS.geb (switchTimer r + delta) (animInterval v) = true)
    by (rewrite Hdue; apply orb_true_r).
  assert (Hne : pool actions <> []).
  { intros E. rewrite E in Hlen. cbn in Hlen. lia. }
  destruct (switch_result v delta r Hv Htrig Hne)
    as (n & index & Hin & _ & Hswitch & Hkeep).
  destruct (sameClip (Some n) (currentAction r)) eqn:E.
  - exfalso. destruct (Hkeep eq_refl) as (_ & H1 & H2).
    assert (Hndp : NoDup (pool actions)).
    { unfold pool. apply NoDup_ListNoDup, List.NoDup_filter, NoDup_ListNoDup, Hnd. }
    pose proof (NoDup_lookup _ _ _ _ Hndp H1 H2) as Heq.
    set (len := length (pool actions)) in *.
    set (i := Nat.modulo (animIndexRef r) len) in *.
    assert (Hi : (i < len)%nat) by (apply Nat.mod_upper_bound; lia).
    destruct (Nat.eq_dec (i + 1)%nat len) as [Hlast|Hmid].
    + rewrite Hlast, Nat.Div0.mod_same in Heq. lia.
    + rewrite Nat.mod_small in Heq by lia. lia.
  - rewrite (Hswitch eq_refl). cbn. split; [|eauto].
    intros Heq. rewrite <- Heq in E. rewrite sameClip_refl in E. discriminate.
Qed.

(** X21.  When the avatar is not talking and the [Idle] clip exists, the frame
    ends on [Idle] with the switch timer at 0: it cross-fades to [Idle] over
    0.25 s unless [Idle] is current already, in which case it asks nothing of
    the mixer.  Without an [Idle] clip the current clip stays.  Either way a
    further frame without talking changes nothing and asks nothing of the
    mixer. *)
Theorem silence_returns_to_idle (v delta : Q) (r : AnimRefs) :
  v <= 0.02 ->
  switchTimer (fst (animFrame actions v delta r)) = 0
  /\ animIndexRef (fst (animFrame actions v delta r)) = animIndexRef r
  /\ (hasIdle actions = true ->
      currentAction (fst (animFrame actions v delta r)) = Some IdleName
      /\ (currentAction r = Some IdleName ->
          snd (animFrame actions v delta r) = [])
      /\ (currentAction r <> Some IdleName ->
          snd (animFrame actions v delta r)
          = crossFade actions (Some IdleName) 0.25))
  /\ (hasIdle actions = false ->
      currentAction (fst (animFrame actions v delta r)) = currentAction r
      /\ snd (animFrame actions v delta r) = [])
  /\ (forall v' delta' : Q,
        v' <= 0.02 ->
        animFrame actions v' delta' (fst (animFrame actions v delta r))
        = (fst (animFrame actions v delta r), [])).
Proof.
  intros Hv. apply gtb_false in Hv.
  assert (Hfirst :
    switchTimer (fst (animFrame actions v delta r)) = 0
    /\ animIndexRef (fst (animFrame actions v delta r)) = animIndexRef r
    /\ (hasIdle actions = true ->
        currentAction (fst (animFrame actions v delta r)) = Some IdleName
        /\ (currentAction r = Some IdleName ->
            snd (animFrame actions v delta r) = [])
        /\ (currentAction r <> Some IdleName ->
            snd (animFrame actions v delta r)
            = crossFade actions (Some IdleName) 0.25))
    /\ (hasIdle actions = false ->
        currentAction (fst (animFrame actions v delta r)) = currentAction r
        /\ snd (animFrame actions v delta r) = [])).
  { unfold animFrame, AvatarCanvas.talking. rewrite Hv.
    destruct (sameClip (Some IdleName) (currentAction r)) eqn:E;
      destruct (hasIdle actions); cbn [negb andb fst snd switchTimer
                                       animIndexRef currentAction];
      repeat split; try discriminate; try reflexivity.
    - apply sameClip_true in E as (n & [= <-] & ->). reflexivity.
    - intros Hne. apply sameClip_true in E as (n & [= <-] & Hc). congruence.
    - intros Hc. rewrite Hc, sameClip_refl in E. discriminate. }
  destruct Hfirst as (H1 & H2 & H3 & H4).
  split; [exact H1|]. split; [exact H2|]. split; [exact H3|].
  split; [exact H4|].
  intros v' delta' Hv'. apply gtb_false in Hv'.
  set (r1 := fst (animFrame actions v delta r)) in *.
  unfold animFrame at 1. unfold AvatarCanvas.talking. rewrite Hv'.
  destruct (hasIdle actions) eqn:Hidle.
  - destruct (H3 eq_refl) as (Hc & _). rewrite Hc, sameClip_refl.
    cbn [negb andb]. rewrite <- Hc, <- H1. destruct r1; reflexivity.
  - rewrite andb_false_r. rewrite <- H1. destruct r1; reflexivity.
Qed.

Lemma animInterval_range (v : Q) : 2 <= animInterval v <= 4.
Proof.
  unfold animInterval. rewrite lerp_step.
  pose proof (clamp_bounds v 0 1 ltac:(lra)). split; lra.
Qed.

Lemma animFrame_bounds (v delta : Q) (r : AnimRefs) :
  switchTimer r < 4 ->
  (animIndexRef r <= length (pool actions))%nat ->
  switchTimer (fst (animFrame actions v delta r)) < 4
  /\ (animIndexRef (fst (animFrame actions v delta r))
      <= length (pool actions))%nat.
Proof.
  intros Ht Hi.
  destruct (AvatarCanvas.talking v) eqn:Hv.
  - destruct (onIdleClip (currentAction r)
              || JS.geb (switchTimer r + delta) (animInterval v)) eqn:Htrig.
    + destruct (0 <? length (pool actions))%nat eqn:Hl.
      * assert (Hne : pool actions <> []).
        { intros E. rewrite E in Hl. discriminate. }
        destruct (switch_result v delta r Hv Htrig Hne)
          as (n & index & _ & Hidx & Hswitch & Hkeep).
        destruct (sameClip (Some n) (currentAction r)) eqn:E.
        -- destruct (Hkeep eq_refl) as [-> _]. cbn.
           split; [reflexivity|exact Hidx].
        -- rewrite (Hswitch eq_refl). cbn. split; [reflexivity|exact Hidx].
      * unfold animFrame. rewrite Hv, Htrig, Hl. cbn.
        split; [reflexivity|exact Hi].
    + unfold animFrame. rewrite Hv, Htrig. cbn.
      apply orb_false_iff in Htrig as [_ Hg]. apply geb_false in Hg.
      split; [|exact Hi]. pose proof (animInterval_range v). lra.
  - unfold animFrame. rewrite Hv.
    destruct (negb _ && _); cbn; split; try reflexivity; exact Hi.
Qed.

(** X22.  Through any run of frames the switch timer stays below the longest
    switching interval of 4 s and the clip cursor never exceeds the size of
    the pool. *)
Theorem switch_timer_and_cursor_bounded (frames : list (Q * Q)) :
  switchTimer (animRun actions frames initialAnimRefs) < 4
  /\ (animIndexRef (animRun actions frames initialAnimRefs)
      <= length (pool actions))%nat.
Proof.
  assert (H : forall r,
             switchTimer r < 4 ->
             (animIndexRef r <= length (pool actions))%nat ->
             switchTimer (animRun actions frames r) < 4
             /\ (animIndexRef (animRun actions frames r)
                 <= length (pool actions))%nat).
  { induction frames as [|f rest IH]; intros r Ht Hi; [auto|].
    cbn [animRun fold_left].
    destruct (animFrame_bounds (fst f) (snd f) r Ht Hi) as [H1 H2].
    apply IH; assumption. }
  apply H; [reflexivity|cbn; lia].
Qed.

End AnimationSwitching.

Section CrossFade.

Import Animation.

Lemma crossFade_cons (a : Action) (rest : list Action)
    (next : option String.string) (s : Q) :
  crossFade (a :: rest) next s
  = (if negb (present a) then []
     else if sameClip (Some (name a)) next then [FadeIn (name a) s]
     else [FadeOut (name a) s])
    ++ crossFade rest next s.
Proof. reflexivity. Qed.

Lemma crossFade_no_fadeIn (actions : list Action) (next : String.string)
    (s : Q) :
  ~ In next (availableNames actions) ->
  List.filter isFadeIn (crossFade actions (Some next) s) = [].
Proof.
  induction actions as [|a rest IH]; intros Hnot; [reflexivity|].
  rewrite crossFade_cons, List.filter_app, IH
    by (intros H; apply Hnot; right; exact H).
  rewrite app_nil_r. destruct (present a); [|reflexivity]. cbn [negb].
  cbn [sameClip]. destruct (String.eqb_spec (name a) next) as [E|_];
    [|reflexivity].
  exfalso. apply Hnot. left. exact E.
Qed.

(** X23.  A cross-fade asks the mixer for one thing per action object that is
    there: the target clip fades in, every other clip fades out, and an
    action object that is missing is left alone.  With distinct clip names at
    most one clip fades in. *)
Theorem crossFade_fades_in_at_most_one (actions : list Action)
    (next : String.string) (s : Q) :
  NoDup (availableNames actions) ->
  (length (List.filter isFadeIn (crossFade actions (Some next) s)) <= 1)%nat
  /\ (forall a : Action,
        In a actions -> present a = true ->
        In (if String.eqb (name a) next
            then FadeIn (name a) s else FadeOut (name a) s)
           (crossFade actions (Some next) s))
  /\ (forall e : AnimEvent,
        In e (crossFade actions (Some next) s) ->
        exists a : Action,
          In a actions /\ present a = true /\ clipOf e = name a)
  /\ length (crossFade actions (Some next) s)
     = length (List.filter present actions).
Proof.
  induction actions as [|a rest IH]; intros Hnd.
  - cbn. repeat split; try lia; try tauto.
  - cbn [availableNames map] in Hnd. apply NoDup_cons in Hnd as [Ha Hrest].
    destruct (IH Hrest) as (H1 & H2 & H3 & H4).
    rewrite crossFade_cons. split; [|split; [|split]].
    + rewrite List.filter_app, length_app.
      destruct (present a); cbn [negb]; [|cbn; exact H1].
      cbn [sameClip]. destruct (String.eqb_spec (name a) next) as [E|_].
      * rewrite crossFade_no_fadeIn; [cbn; lia|].
        intros Hin. apply Ha. rewrite E. apply list_elem_of_In, Hin.
      * cbn. exact H1.
    + intros b [<-|Hb] Hp.
      * rewrite Hp. cbn [negb sameClip].
        destruct (String.eqb (name a) next); left; reflexivity.
      * apply in_or_app. right. apply H2; assumption.
    + intros e He. apply in_app_or in He as [He|He].
      * exists a. destruct (present a) eqn:Hp; cbn [negb] in He;
          [|destruct He].
        cbn [sameClip] in He.
        destruct (String.eqb (name a) next); destruct He as [<-|[]];
          (split; [left; reflexivity|split; reflexivity]).
      * destruct (H3 e He) as (b & Hb & Hp & Hc).
        exists b. split; [right; exact Hb|auto].
    + rewrite length_app, H4. cbn [List.filter].
      destruct (present a); cbn [negb]; [|reflexivity].
      cbn [sameClip]. destruct (String.eqb (name a) next); reflexivity.
Qed.

End CrossFade.

Lemma talking_leaves_idle_clip_witness :
  exists n : String.string,
    Animation.currentAction
      (fst (Animation.animFrame AnimationExamples.nanami 0.5 0.016
              AnimationExamples.resting)) = Some n
    /\ In n (Animation.availableNames AnimationExamples.nanami)
    /\ Animation.isIdleName n = false
    /\ Animation.switchTimer
         (fst (Animation.animFrame AnimationExamples.nanami 0.5 0.016
                 AnimationExamples.resting)) = 0
    /\ snd (Animation.animFrame AnimationExamples.nanami 0.5 0.016
              AnimationExamples.resting)
       = Animation.crossFade AnimationExamples.nanami (Some n) 0.2.
Proof.
  apply (talking_leaves_idle_clip AnimationExamples.nanami 0.5 0.016
           AnimationExamples.resting Animation.IdleName).
  - reflexivity.
  - reflexivity.
  - reflexivity.
  - vm_compute. discriminate.
Defined.

Lemma talking_switches_within_pool_witness :
  exists n : String.string,
    Animation.currentAction
      (fst (Animation.animFrame AnimationExamples.nanami 0.5 0.016
              AnimationExamples.chatting)) = Some n
    /\ In n (Animation.pool AnimationExamples.nanami)
    /\ Animation.isIdleName n = false
    /\ Animation.switchTimer
         (fst (Animation.animFrame AnimationExamples.nanami 0.5 0.016
                 AnimationExamples.chatting)) = 0
    /\ snd (Animation.animFrame AnimationExamples.nanami 0.5 0.016
              AnimationExamples.chatting)
       = Animation.crossFade AnimationExamples.nanami (Some n) 0.2.
Proof.
  apply (talking_switches_within_pool AnimationExamples.nanami 0.5 0.016
           AnimationExamples.chatting).
  - reflexivity.
  - vm_compute. discriminate.
Defined.

Lemma due_switch_changes_clip_witness :
  Animation.currentAction
    (fst (Animation.animFrame AnimationExamples.nanami 0.5 0.016
            AnimationExamples.chatting))
  <> Animation.currentAction AnimationExamples.chatting
  /\ exists n : String.string,
       Animation.currentAction
         (fst (Animation.animFrame AnimationExamples.nanami 0.5 0.016
                 AnimationExamples.chatting)) = Some n
       /\ In n (Animation.pool AnimationExamples.nanami).
Proof.
  apply (due_switch_changes_clip AnimationExamples.nanami 0.5 0.016
           AnimationExamples.chatting).
  - reflexivity.
  - vm_compute. discriminate.
  - vm_compute.
    repeat (apply NoDup_cons_2 || apply NoDup_nil_2);
      rewrite ?elem_of_cons, ?elem_of_nil; intuition discriminate.
  - vm_compute. lia.
Defined.

Lemma silence_returns_to_idle_witness :
  Animation.switchTimer
    (fst (Animation.animFrame AnimationExamples.nanami 0.01 0.016
            AnimationExamples.chatting)) = 0
  /\ Animation.currentAction
       (fst (Animation.animFrame AnimationExamples.nanami 0.01 0.016
               AnimationExamples.chatting)) = Some Animation.IdleName
  /\ snd (Animation.animFrame AnimationExamples.nanami 0.01 0.016
            AnimationExamples.chatting)
     = Animation.crossFade AnimationExamples.nanami (Some Animation.IdleName)
         0.25.
Proof.
  destruct (silence_returns_to_idle AnimationExamples.nanami 0.01 0.016
              AnimationExamples.chatting) as (Ht & _ & Hidle & _).
  - vm_compute. discriminate.
  - destruct (Hidle eq_refl) as (Hc & _ & He).
    split; [exact Ht|]. split; [exact Hc|].
    apply He. vm_compute. discriminate.
Defined.

Lemma crossFade_fades_in_at_most_one_witness :
  (length (List.filter Animation.isFadeIn
             (Animation.crossFade AnimationExamples.nanami
                (Some AnimationExamples.talkingClip) 0.2)) <= 1)%nat
  /\ length (Animation.crossFade AnimationExamples.nanami
               (Some AnimationExamples.talkingClip) 0.2)
     = length (List.filter Animation.present AnimationExamples.nanami).
Proof.
  destruct (crossFade_fades_in_at_most_one AnimationExamples.nanami
              AnimationExamples.talkingClip 0.2) as (H1 & _ & _ & H4).
  - vm_compute.
    repeat (apply NoDup_cons_2 || apply NoDup_nil_2);
      rewrite ?elem_of_cons, ?elem_of_nil; intuition discriminate.
  - split; assumption.
Defined.

(** * Properties of the face mesh discovery *)

Section FaceMeshDiscovery.

Import AvatarCanvas Morph FaceMeshes.

Lemma get_member (d : Dict) (k : String.string) (v : nat) :
  get d k = Some v -> In (k, v) d.
Proof.
  unfold get. destruct (List.find _ d) as [[k' v']|] eqn:E; [|discriminate].
  intros [= <-]. apply List.find_some in E as [Hin Hk].
  cbn in Hk. apply String.eqb_eq in Hk. subst. exact Hin.
Qed.

Lemma get_index (d : Dict) (k : String.string) (v : nat) :
  get d k = Some v -> In v (indicesOf d).
Proof.
  intros H. apply get_member in H. unfold indicesOf.
  apply (in_map snd) in H. exact H.
Qed.

Lemma omap_get_indices (d : Dict) (keys : list String.string) :
  Forall (fun i => In i (indicesOf d)) (omap (get d) keys).
Proof.
  induction keys as [|k rest IH]; [constructor|].
  cbn [omap list_omap]. destruct (get d k) as [v|] eqn:E; [|exact IH].
  constructor; [apply (get_index _ _ _ E)|exact IH].
Qed.

Lemma fallback_indices (d d0 : Dict) :
  Forall (fun i => In i (indicesOf d0))
    (omap (fun e => if shapeKey (fst e) then get d0 (fst e) else None) d).
Proof.
  induction d as [|e rest IH]; [constructor|].
  cbn [omap list_omap]. destruct (shapeKey (fst e)); [|exact IH].
  destruct (get d0 (fst e)) as [v|] eqn:E; [|exact IH].
  constructor; [apply (get_index _ _ _ E)|exact IH].
Qed.

Lemma shapeIndicesOf_indices (d : Dict) :
  Forall (fun i => In i (indicesOf d)) (shapeIndicesOf d).
Proof.
  unfold shapeIndicesOf.
  pose proof (omap_get_indices d TALKING_SHAPES) as Ht.
  fold (talkingIndices d) in Ht.
  destruct (talkingIndices d); [apply fallback_indices|exact Ht].
Qed.

Lemma mouthIndexOf_index (d : Dict) (mi : nat) :
  mouthIndexOf d = Some mi -> In mi (indicesOf d).
Proof.
  unfold mouthIndexOf. intros H.
  pose proof (omap_get_indices d mouthCandidates) as Hall.
  destruct (omap (get d) mouthCandidates) as [|x rest]; [discriminate|].
  cbn in H. injection H as <-. apply Forall_cons in Hall as [Hx _]. exact Hx.
Qed.

Lemma faceMeshOf_ok (obj : SceneObject) (m : MeshState) :
  sceneObjectOk obj -> faceMeshOf obj = Some m ->
  meshOk m /\ drivesSomething m
  /\ influences m = morphTargetInfluences obj
  /\ is_Some (influences m).
Proof.
  unfold sceneObjectOk, faceMeshOf. intros Hok.
  destruct (isMesh obj); [|discriminate]. cbn [negb].
  destruct (morphTargetDictionary obj) as [d|]; [|discriminate].
  destruct (morphTargetInfluences obj) as [a|]; [|discriminate].
  destruct Hok as [Hunit Hrange].
  destruct ((0 <? length (shapeIndicesOf d))%nat
            || bool_decide (is_Some (mouthIndexOf d))) eqn:E; [|discriminate].
  intros [= <-]. cbn [face influences mouthIndex shapeIndices].
  assert (Hlt : forall i, In i (indicesOf d) -> (i < length a)%nat).
  { intros i Hi. rewrite Forall_forall in Hrange. apply Hrange.
    apply list_elem_of_In, Hi. }
  split; [|split; [|split; [reflexivity|eauto]]].
  - unfold meshOk. cbn [face influences mouthIndex shapeIndices].
    split; [exact Hunit|]. split.
    + eapply Forall_impl; [apply shapeIndicesOf_indices|]. exact Hlt.
    + destruct (mouthIndexOf d) as [mi|] eqn:Em; [|exact I].
      apply Hlt, mouthIndexOf_index, Em.
  - unfold drivesSomething. cbn [face mouthIndex shapeIndices].
    apply orb_true_iff in E as [E|E].
    + left. apply Nat.ltb_lt in E. intros Hnil. rewrite Hnil in E.
      cbn in E. lia.
    + right. apply bool_decide_eq_true in E as [x Hx]. congruence.
Qed.

Lemma faceMeshOf_recorded (obj : SceneObject) (m : MeshState) :
  faceMeshOf obj = Some m ->
  drivesSomething m
  /\ exists (d : Dict) (a : list Influence),
       isMesh obj = true
       /\ morphTargetDictionary obj = Some d
       /\ morphTargetInfluences obj = Some a
       /\ influences m = Some a
       /\ Forall (fun i => In i (indicesOf d)) (shapeIndices (face m))
       /\ match mouthIndex (face m) with
          | Some mi => In mi (indicesOf d)
          | None => True
          end.
Proof.
  unfold faceMeshOf.
  destruct (isMesh obj); [|discriminate]. cbn [negb].
  destruct (morphTargetDictionary obj) as [d|]; [|discriminate].
  destruct (morphTargetInfluences obj) as [a|]; [|discriminate].
  destruct ((0 <? length (shapeIndicesOf d))%nat
            || bool_decide (is_Some (mouthIndexOf d))) eqn:E; [|discriminate].
  intros [= <-]. cbn [face influences mouthIndex shapeIndices]. split.
  - unfold drivesSomething. cbn [face mouthIndex shapeIndices].
    apply orb_true_iff in E as [E|E].
    + left. apply Nat.ltb_lt in E. intros Hnil. rewrite Hnil in E.
      cbn in E. lia.
    + right. apply bool_decide_eq_true in E as [x Hx]. congruence.
  - exists d, a. repeat split.
    + apply shapeIndicesOf_indices.
    + destruct (mouthIndexOf d) as [mi|] eqn:Em; [|exact I].
      apply mouthIndexOf_index, Em.
Qed.

Lemma buildFaceMeshes_recorded (scene : list SceneObject) :
  Forall (fun m => drivesSomething m /\ recordedFrom scene m)
    (buildFaceMeshes scene).
Proof.
  apply Forall_forall. intros m Hm. unfold buildFaceMeshes in Hm.
  apply list_elem_of_omap in Hm as (obj & Hobj & E).
  destruct (faceMeshOf_recorded obj m E)
    as (Hd & d & a & H1 & H2 & H3 & H4 & H5 & H6).
  split; [exact Hd|]. exists obj, d, a.
  split; [apply list_elem_of_In, Hobj|]. auto 10.
Qed.

Lemma sameShape_keeps_arrays (l1 l2 : list MeshState) :
  Forall2 sameShape l1 l2 ->
  Forall (fun m => is_Some (influences m)) l1 ->
  Forall meshOk l2 ->
  Forall (fun m => is_Some (influences m) /\ meshOk m) l2.
Proof.
  induction 1 as [|m m' l1 l2 Hmm _ IH]; intros Hsome Hok; [constructor|].
  apply Forall_cons in Hsome as [[a Ha] Hrest].
  apply Forall_cons in Hok as [Hm Hok].
  constructor; [|apply IH; assumption].
  split; [|exact Hm].
  destruct Hmm as [_ Hmm]. rewrite Ha in Hmm.
  destruct (influences m'); [eauto|contradiction].
Qed.

(** X24.  Every entry the traversal records was pushed for a mesh of the
    scene that has a dictionary and an influences array; it carries that
    array, it has something to drive (a discrete shape or the fallback mouth
    index), and every index it drives is one the dictionary hands out.
    When, in addition, the dictionaries hand out positions of their arrays
    and the arrays start with numbers in [[0,1]], then through any run of
    frames every recorded mesh keeps its shape table and an influences array
    of the same length holding numbers in [[0,1]]. *)
Theorem discovered_meshes_stay_drivable (scene : list SceneObject)
    (frames : list Frame) :
  Forall (fun m => drivesSomething m
                   /\ is_Some (influences m)
                   /\ recordedFrom scene m)
    (buildFaceMeshes scene)
  /\ (Forall sceneObjectOk scene ->
      Forall meshOk (buildFaceMeshes scene)
      /\ Forall2 sameShape (buildFaceMeshes scene)
           (snd (render frames (initialRefs, buildFaceMeshes scene)))
      /\ Forall (fun m => is_Some (influences m) /\ meshOk m)
           (snd (render frames (initialRefs, buildFaceMeshes scene)))).
Proof.
  split.
  { eapply Forall_impl; [apply buildFaceMeshes_recorded|].
    intros m [Hd Hr]. split; [exact Hd|]. split; [|exact Hr].
    destruct Hr as (obj & d & a & _ & _ & _ & _ & _ & Ha & _).
    rewrite Ha. eauto. }
  intros Hscene.
  assert (Hok : Forall meshOk (buildFaceMeshes scene)).
  { unfold buildFaceMeshes. induction Hscene as [|obj rest Hobj _ IH];
      [constructor|].
    cbn [omap list_omap]. destruct (faceMeshOf obj) as [m|] eqn:E; [|exact IH].
    constructor; [|exact IH].
    destruct (faceMeshOf_ok obj m Hobj E) as (H1 & _). exact H1. }
  split; [exact Hok|].
  destruct (render_invariant frames (initialRefs, buildFaceMeshes scene))
    as (_ & _ & H3 & H4); [cbn; lra|exact Hok|].
  cbn [snd] in H4. split; [exact H4|].
  apply (sameShape_keeps_arrays _ _ H4); [|exact H3].
  eapply Forall_impl; [apply buildFaceMeshes_recorded|].
  intros m [_ (obj & d & a & _ & _ & _ & _ & _ & Ha & _)].
  rewrite Ha. eauto.
Qed.

Lemma NoDup_omap_injective {A B : Type} (f : A -> option B) (l : list A) :
  NoDup l ->
  (forall x y v, In x l -> In y l -> f x = Some v -> f y = Some v -> x = y) ->
  NoDup (omap f l).
Proof.
  induction 1 as [|x rest Hx Hnd IH]; intros Hinj; [constructor|].
  cbn [omap list_omap]. destruct (f x) as [v|] eqn:E.
  - apply NoDup_cons_2.
    + intros Hin. apply list_elem_of_omap in Hin as (y & Hy & Hfy).
      apply list_elem_of_In in Hy.
      assert (x = y) by (apply (Hinj x y v); [left; reflexivity|right; exact Hy|exact E|exact Hfy]).
      subst y. apply Hx, list_elem_of_In, Hy.
    + apply IH. intros a b w Ha Hb. apply Hinj; right; assumption.
  - apply IH. intros a b w Ha Hb. apply Hinj; right; assumption.
Qed.

Lemma same_index_same_key (d : Dict) (k1 k2 : String.string) (v : nat) :
  NoDup (indicesOf d) -> In (k1, v) d -> In (k2, v) d -> k1 = k2.
Proof.
  induction d as [|[k w] rest IH]; intros Hnd H1 H2; [destruct H1|].
  cbn [indicesOf map snd] in Hnd. apply NoDup_cons in Hnd as [Hw Hrest].
  assert (Hout : forall k', In (k', w) rest -> False).
  { intros k' Hin. apply Hw, list_elem_of_In.
    apply (in_map snd) in Hin. exact Hin. }
  destruct H1 as [E1|H1], H2 as [E2|H2].
  - congruence.
  - injection E1 as <- <-. destruct (Hout _ H2).
  - injection E2 as <- <-. destruct (Hout _ H1).
  - apply IH; assumption.
Qed.

Lemma same_key_same_index (d : Dict) (k : String.string) (v w : nat) :
  NoDup (keysOf d) -> In (k, v) d -> In (k, w) d -> v = w.
Proof.
  induction d as [|[k' u] rest IH]; intros Hnd H1 H2; [destruct H1|].
  cbn [keysOf map fst] in Hnd. apply NoDup_cons in Hnd as [Hk Hrest].
  assert (Hout : forall u', In (k', u') rest -> False).
  { intros u' Hin. apply Hk, list_elem_of_In.
    apply (in_map fst) in Hin. exact Hin. }
  destruct H1 as [E1|H1], H2 as [E2|H2].
  - congruence.
  - injection E1 as <- <-. destruct (Hout _ H2).
  - injection E2 as <- <-. destruct (Hout _ H1).
  - apply IH; assumption.
Qed.

Lemma NoDup_entries (d : Dict) : NoDup (keysOf d) -> NoDup d.
Proof.
  induction d as [|[k v] rest IH]; intros Hnd; [constructor|].
  cbn [keysOf map fst] in Hnd. apply NoDup_cons in Hnd as [Hk Hrest].
  apply NoDup_cons_2; [|apply IH, Hrest].
  intros Hin. apply Hk, list_elem_of_In. apply list_elem_of_In in Hin.
  apply (in_map fst) in Hin. exact Hin.
Qed.

Lemma TALKING_SHAPES_distinct : NoDup TALKING_SHAPES.
Proof.
  unfold TALKING_SHAPES.
  repeat (apply NoDup_cons_2 || apply NoDup_nil_2);
    rewrite ?elem_of_cons, ?elem_of_nil; intuition discriminate.
Qed.

Lemma get_own_entry (d : Dict) (e : String.string * nat) :
  NoDup (keysOf d) -> In e d -> get d (fst e) = Some (snd e).
Proof.
  intros Hnd Hin. destruct e as [k v]. cbn [fst snd].
  destruct (get d k) as [w|] eqn:E.
  - apply get_member in E. f_equal.
    apply (same_key_same_index d k w v Hnd E Hin).
  - exfalso. unfold get in E.
    destruct (List.find (fun e => String.eqb (fst e) k) d) eqn:F;
      [discriminate|].
    pose proof (List.find_none _ _ F (k, v) Hin) as Hk. cbn in Hk.
    rewrite String.eqb_refl in Hk. discriminate.
Qed.

(** X25.  The shapes of a mesh whose dictionary has distinct names and distinct
    indices: no shape index occurs twice, each is an index of the
    dictionary, there are at most twelve when they come from the numeric
    speaking shapes, which take precedence whenever one of them exists, and
    otherwise they are exactly the indices of the keys that look like mouth
    shapes. *)
Theorem shape_indices_are_distinct (d : Dict) :
  NoDup (keysOf d) ->
  NoDup (indicesOf d) ->
  NoDup (shapeIndicesOf d)
  /\ Forall (fun i => In i (indicesOf d)) (shapeIndicesOf d)
  /\ (length (talkingIndices d) <= 12)%nat
  /\ (talkingIndices d <> [] -> shapeIndicesOf d = talkingIndices d)
  /\ (talkingIndices d = [] ->
      forall i : nat,
        In i (shapeIndicesOf d)
        <-> exists k : String.string, In (k, i) d /\ shapeKey k = true).
Proof.
  intros Hkeys Hvals.
  assert (Htalk : NoDup (talkingIndices d)).
  { apply NoDup_omap_injective; [apply TALKING_SHAPES_distinct|].
    intros k1 k2 v _ _ H1 H2.
    apply (same_index_same_key d k1 k2 v Hvals);
      apply get_member; assumption. }
  assert (Hfall : NoDup (fallbackIndices d)).
  { apply NoDup_omap_injective; [apply NoDup_entries, Hkeys|].
    intros e1 e2 v H1 H2 F1 F2.
    destruct (shapeKey (fst e1)); [|discriminate].
    destruct (shapeKey (fst e2)); [|discriminate].
    rewrite (get_own_entry d e1 Hkeys H1) in F1.
    rewrite (get_own_entry d e2 Hkeys H2) in F2.
    destruct e1 as [k1 v1], e2 as [k2 v2]. cbn [snd] in F1, F2.
    injection F1 as ->. injection F2 as ->.
    f_equal. apply (same_index_same_key d k1 k2 v Hvals H1 H2). }
  split; [|split; [apply shapeIndicesOf_indices|split; [|split]]].
  - unfold shapeIndicesOf. destruct (talkingIndices d); assumption.
  - unfold talkingIndices.
    assert (Hlen : forall (f : String.string -> option nat) l,
               (length (omap f l) <= length l)%nat).
    { intros f l. induction l as [|x l IH]; [cbn; lia|].
      cbn [omap list_omap length]. destruct (f x); cbn [length]; lia. }
    apply (Hlen (get d) TALKING_SHAPES).
  - unfold shapeIndicesOf. destruct (talkingIndices d); congruence.
  - intros Hnone i. unfold shapeIndicesOf. rewrite Hnone.
    unfold fallbackIndices. rewrite <- list_elem_of_In, list_elem_of_omap.
    split.
    + intros ([k v] & Hin & Hf). apply list_elem_of_In in Hin.
      cbn [fst] in Hf. destruct (shapeKey k) eqn:Hk; [|discriminate].
      pose proof (get_own_entry d (k, v) Hkeys Hin) as Hown.
      cbn [fst snd] in Hown. rewrite Hown in Hf.
      injection Hf as ->. eauto.
    + intros (k & Hin & Hk). exists (k, i).
      split; [apply list_elem_of_In, Hin|]. cbn [fst]. rewrite Hk.
      apply (get_own_entry d (k, i) Hkeys Hin).
Qed.

End FaceMeshDiscovery.

Lemma discovered_meshes_stay_drivable_witness :
  Forall (fun m => FaceMeshes.drivesSomething m
                   /\ is_Some (Morph.influences m)
                   /\ FaceMeshes.recordedFrom [FaceMeshExamples.head] m)
    (FaceMeshes.buildFaceMeshes [FaceMeshExamples.head])
  /\ Forall Morph.meshOk (FaceMeshes.buildFaceMeshes [FaceMeshExamples.head])
  /\ Forall2 Morph.sameShape
       (FaceMeshes.buildFaceMeshes [FaceMeshExamples.head])
       (snd (Morph.render MoreExamples.brightFrames
               (AvatarCanvas.initialRefs,
                FaceMeshes.buildFaceMeshes [FaceMeshExamples.head])))
  /\ Forall (fun m => is_Some (Morph.influences m) /\ Morph.meshOk m)
       (snd (Morph.render MoreExamples.brightFrames
               (AvatarCanvas.initialRefs,
                FaceMeshes.buildFaceMeshes [FaceMeshExamples.head]))).
Proof.
  destruct (discovered_meshes_stay_drivable [FaceMeshExamples.head]
              MoreExamples.brightFrames) as [H1 H2].
  split; [exact H1|]. apply H2.
  repeat constructor; cbn; try lra; try lia.
Defined.

Lemma shape_indices_are_distinct_witness :
  NoDup (FaceMeshes.shapeIndicesOf FaceMeshExamples.visemeDict)
  /\ FaceMeshes.shapeIndicesOf FaceMeshExamples.visemeDict = [1; 2; 4]%nat
  /\ FaceMeshes.shapeIndicesOf FaceMeshExamples.headDict = [2; 3]%nat.
Proof.
  destruct (shape_indices_are_distinct FaceMeshExamples.visemeDict)
    as (H1 & _).
  - vm_compute.
    repeat (apply NoDup_cons_2 || apply NoDup_nil_2);
      rewrite ?elem_of_cons, ?elem_of_nil; intuition discriminate.
  - vm_compute.
    repeat (apply NoDup_cons_2 || apply NoDup_nil_2);
      rewrite ?elem_of_cons, ?elem_of_nil; lia.
  - split; [exact H1|]. split; reflexivity.
Defined.

(** * Properties of the chat box's text helpers *)

Section ChatText.

Import ChatBox.

Lemma replaceAll_app (c : N) (rep s t : Text) :
  replaceAll c rep (s ++ t) = replaceAll c rep s ++ replaceAll c rep t.
Proof. unfold replaceAll. apply flat_map_app. Qed.

Lemma esc_app (s t : Text) : esc (s ++ t) = esc s ++ esc t.
Proof. unfold esc. rewrite !replaceAll_app. reflexivity. Qed.

Lemma esc_cons (c : N) (s : Text) : esc (c :: s) = escUnit c ++ esc s.
Proof.
  change (c :: s) with ([c] ++ s). rewrite esc_app. f_equal.
  unfold esc, escUnit, replaceAll, AMP, LT, GT. cbn [flat_map app].
  destruct (N.eqb_spec c 38) as [->|H1]; [reflexivity|].
  cbn [flat_map app].
  destruct (N.eqb_spec c 60) as [->|H2]; [reflexivity|].
  cbn [flat_map app].
  destruct (N.eqb_spec c 62) as [->|H3]; reflexivity.
Qed.

Lemma escUnit_head (c : N) :
  exists h rest, escUnit c = h :: rest
                 /\ h <> LT /\ h <> GT
                 /\ ~ In LT rest /\ ~ In GT rest
                 /\ (h = AMP <-> (c = AMP \/ c = LT \/ c = GT)).
Proof.
  unfold escUnit, AMP, LT, GT, ampEntity, ltEntity, gtEntity.
  destruct (N.eqb_spec c 38) as [->|H1];
    [|destruct (N.eqb_spec c 60) as [->|H2];
      [|destruct (N.eqb_spec c 62) as [->|H3]]];
    eexists; eexists; (split; [reflexivity|]); cbn;
    repeat split; try lia; try tauto; intuition lia.
Qed.

Lemma esc_no_angle (s : Text) : ~ In LT (esc s) /\ ~ In GT (esc s).
Proof.
  induction s as [|c rest [IH1 IH2]]; [cbn; tauto|].
  rewrite esc_cons.
  destruct (escUnit_head c) as (h & t & -> & H1 & H2 & H3 & H4 & _).
  split; intros Hin; apply in_app_or in Hin as [[E|Hin]|Hin];
    try congruence; tauto.
Qed.

Lemma esc_injective (s t : Text) : esc s = esc t -> s = t.
Proof.
  revert t. induction s as [|c s IH]; intros [|d t] H.
  - reflexivity.
  - rewrite esc_cons in H.
    destruct (escUnit_head d) as (h & r & E & _). rewrite E in H. discriminate.
  - rewrite esc_cons in H.
    destruct (escUnit_head c) as (h & r & E & _). rewrite E in H. discriminate.
  - rewrite !esc_cons in H.
    assert (Hcd : c = d /\ esc s = esc t).
    { unfold escUnit, AMP, LT, GT, ampEntity, ltEntity, gtEntity in H.
      destruct (N.eqb_spec c 38) as [->|C1];
        [|destruct (N.eqb_spec c 60) as [->|C2];
          [|destruct (N.eqb_spec c 62) as [->|C3]]];
        (destruct (N.eqb_spec d 38) as [->|D1];
         [|destruct (N.eqb_spec d 60) as [->|D2];
           [|destruct (N.eqb_spec d 62) as [->|D3]]]);
        cbn [app] in H; try (injection H as H; congruence);
        try (split; [reflexivity|]; congruence);
        try congruence.
      all: injection H as H0 H; try congruence; split; congruence. }
    destruct Hcd as [-> Hrest]. f_equal. apply IH, Hrest.
Qed.

(** X26.  [esc] leaves no angle bracket in its result, keeps apart any two
    different texts, leaves a text without [&], [<] and [>] as it is, and
    works piece by piece. *)
Theorem esc_removes_angle_brackets :
  (forall s : Text, ~ In LT (esc s) /\ ~ In GT (esc s))
  /\ (forall s t : Text, esc s = esc t -> s = t)
  /\ (forall s : Text,
        ~ In AMP s -> ~ In LT s -> ~ In GT s -> esc s = s)
  /\ (forall s t : Text, esc (s ++ t) = esc s ++ esc t).
Proof.
  split; [apply esc_no_angle|]. split; [apply esc_injective|].
  split; [|apply esc_app].
  induction s as [|c rest IH]; intros Ha Hl Hg; [reflexivity|].
  rewrite esc_cons, IH;
    [|intros H; apply Ha; right; exact H
     |intros H; apply Hl; right; exact H
     |intros H; apply Hg; right; exact H].
  unfold escUnit.
  destruct (N.eqb_spec c AMP) as [->|_]; [exfalso; apply Ha; left; reflexivity|].
  destruct (N.eqb_spec c LT) as [->|_]; [exfalso; apply Hl; left; reflexivity|].
  destruct (N.eqb_spec c GT) as [->|_]; [exfalso; apply Hg; left; reflexivity|].
  reflexivity.
Qed.

End ChatText.

Section ReplyLimit.

Import ChatBox.

Lemma splitLines_not_nil (s : Text) : splitLines s <> [].
Proof.
  destruct s as [|c rest]; [discriminate|]. cbn [splitLines].
  destruct (c =? LF)%N; [discriminate|].
  destruct (splitLines rest); discriminate.
Qed.

Lemma splitLines_single (l : Text) : ~ In LF l -> splitLines l = [l].
Proof.
  induction l as [|c rest IH]; intros Hno; [reflexivity|].
  cbn [splitLines]. destruct (N.eqb_spec c LF) as [->|_].
  - exfalso. apply Hno. left. reflexivity.
  - rewrite IH by (intros H; apply Hno; right; exact H). reflexivity.
Qed.

Lemma splitLines_line (l x : Text) :
  ~ In LF l -> splitLines (l ++ LF :: x) = l :: splitLines x.
Proof.
  induction l as [|c rest IH]; intros Hno.
  - cbn [app splitLines]. rewrite N.eqb_refl. reflexivity.
  - cbn [app splitLines]. destruct (N.eqb_spec c LF) as [->|_].
    + exfalso. apply Hno. left. reflexivity.
    + rewrite IH by (intros H; apply Hno; right; exact H). reflexivity.
Qed.

Lemma splitLines_no_LF (s : Text) :
  Forall (fun l => ~ In LF l) (splitLines s).
Proof.
  induction s as [|c rest IH]; [repeat constructor; intros []|].
  cbn [splitLines]. destruct (N.eqb_spec c LF) as [->|Hc].
  - constructor; [intros []|exact IH].
  - destruct (splitLines rest) as [|l ls]; [repeat constructor; cbn; tauto|].
    apply Forall_cons in IH as [Hl Hls]. constructor; [|exact Hls].
    cbn. intros [E|H]; [congruence|tauto].
Qed.

Lemma split_join (lines : list Text) :
  lines <> [] -> Forall (fun l => ~ In LF l) lines ->
  splitLines (joinLines lines) = lines.
Proof.
  induction lines as [|l rest IH]; intros Hne Hall; [congruence|].
  apply Forall_cons in Hall as [Hl Hrest].
  destruct rest as [|l2 rest'].
  - cbn [joinLines]. apply splitLines_single, Hl.
  - change (joinLines (l :: l2 :: rest'))
      with (l ++ LF :: joinLines (l2 :: rest')).
    rewrite (splitLines_line _ _ Hl), IH; [reflexivity|discriminate|exact Hrest].
Qed.

Lemma filter_all {A : Type} (f : A -> bool) (l : list A) :
  Forall (fun x => f x = true) l -> List.filter f l = l.
Proof.
  induction 1 as [|x rest Hx _ IH]; [reflexivity|].
  cbn [List.filter]. rewrite Hx, IH. reflexivity.
Qed.

Lemma replyLines_notBlank (text : Text) :
  Forall (fun l => notBlank l = true) (replyLines text)
  /\ Forall (fun l => ~ In LF l) (replyLines text).
Proof.
  unfold replyLines. split.
  - apply Forall_forall. intros l Hl. apply list_elem_of_In in Hl.
    apply List.filter_In in Hl. apply Hl.
  - pose proof (splitLines_no_LF text) as H. rewrite Forall_forall in H.
    apply Forall_forall. intros l Hl. apply H.
    apply list_elem_of_In. apply list_elem_of_In in Hl.
    apply List.filter_In in Hl. apply Hl.
Qed.

Lemma replyLines_join (lines : list Text) :
  Forall (fun l => notBlank l = true) lines ->
  Forall (fun l => ~ In LF l) lines ->
  replyLines (joinLines lines) = lines.
Proof.
  intros Hnb Hno. unfold replyLines. destruct lines as [|l rest].
  - reflexivity.
  - rewrite split_join; [|discriminate|exact Hno]. apply filter_all, Hnb.
Qed.

Lemma count_LF_join (lines : list Text) :
  Forall (fun l => ~ In LF l) lines ->
  count_occ N.eq_dec (joinLines lines) LF = Nat.pred (length lines).
Proof.
  induction 1 as [|l rest Hl Hrest IH]; [reflexivity|].
  destruct rest as [|l2 rest'].
  - cbn [joinLines length Nat.pred]. apply count_occ_not_In, Hl.
  - change (joinLines (l :: l2 :: rest'))
      with (l ++ LF :: joinLines (l2 :: rest')).
    rewrite count_occ_app, count_occ_cons_eq by reflexivity.
    rewrite IH. rewrite (proj1 (count_occ_not_In N.eq_dec l LF) Hl).
    cbn [length Nat.pred]. lia.
Qed.

(** X27.  The limited reply consists of the first 5 (15 when brief) non-blank lines
    of the text and of nothing else: reading its non-blank lines back gives
    exactly those, it holds no blank line and fewer line feeds than the
    limit, limiting it again changes nothing, and the short form is what is
    left of the brief form when that is limited to 5 lines. *)
Theorem limitReplyLines_keeps_first_lines (text : Text) (isBrief : bool) :
  let max := if isBrief then 15%nat else 5%nat in
  replyLines (limitReplyLines text isBrief) = take max (replyLines text)
  /\ (length (replyLines (limitReplyLines text isBrief)) <= max)%nat
  /\ (count_occ N.eq_dec (limitReplyLines text isBrief) LF < max)%nat
  /\ splitLines (limitReplyLines text isBrief)
     = (if length (replyLines text) =? 0 then [[]]
        else take max (replyLines text))%nat
  /\ limitReplyLines (limitReplyLines text isBrief) isBrief
     = limitReplyLines text isBrief
  /\ limitReplyLines (limitReplyLines text true) false
     = limitReplyLines text false.
Proof.
  intros max.
  destruct (replyLines_notBlank text) as [Hnb Hno].
  assert (Hnb' : forall k, Forall (fun l => notBlank l = true)
                             (take k (replyLines text)))
    by (intros k; apply Forall_take, Hnb).
  assert (Hno' : forall k, Forall (fun l => ~ In LF l)
                             (take k (replyLines text)))
    by (intros k; apply Forall_take, Hno).
  assert (Hback : forall k,
             replyLines (joinLines (take k (replyLines text)))
             = take k (replyLines text))
    by (intros k; apply replyLines_join; auto).
  assert (Hlim : forall b,
             limitReplyLines text b
             = joinLines (take (if b then 15 else 5)%nat (replyLines text)))
    by reflexivity.
  assert (Hagain : forall b t,
             limitReplyLines t b
             = joinLines (take (if b then 15 else 5)%nat (replyLines t)))
    by reflexivity.
  split; [rewrite Hlim; apply Hback|].
  split; [rewrite Hlim, Hback, length_take; unfold max; lia|].
  split.
  { rewrite Hlim, count_LF_join by apply Hno'. rewrite length_take.
    unfold max. destruct isBrief; lia. }
  split.
  { rewrite Hlim. fold max.
    destruct (length (replyLines text) =? 0)%nat eqn:E.
    - apply Nat.eqb_eq, length_zero_iff_nil in E. rewrite E, take_nil.
      reflexivity.
    - apply split_join; [|apply Hno'].
      destruct (replyLines text); [discriminate|].
      unfold max. destruct isBrief; discriminate. }
  split.
  - rewrite (Hagain isBrief (limitReplyLines text isBrief)), Hlim, Hback.
    rewrite take_take, Nat.min_id. reflexivity.
  - rewrite (Hagain false (limitReplyLines text true)), (Hlim true), Hback.
    rewrite take_take. reflexivity.
Qed.

End ReplyLimit.

(** * Properties of the binary64 arithmetic *)

Section Rounding.

Import Binary64.

Lemma pow2_pos (e : Z) : 0 < pow2 e.
Proof. apply Qpower_0_lt. reflexivity. Qed.

Lemma pow2_add (a b : Z) : pow2 (a + b) == pow2 a * pow2 b.
Proof. apply Qpower_plus. discriminate. Qed.

Lemma pow2_sub (a b : Z) : pow2 (a - b) == pow2 a / pow2 b.
Proof. apply Qpower_minus. discriminate. Qed.

Lemma pow2_inject (n : Z) : (0 <= n)%Z -> pow2 n == inject_Z (2 ^ n).
Proof.
  intros H. unfold pow2. rewrite Zpower_Qpower by exact H. reflexivity.
Qed.

Lemma pow2_lt_inv (a b : Z) : pow2 a < pow2 b -> (a < b)%Z.
Proof.
  intros H. apply (Qpower_lt_compat_l_inv 2); [exact H|reflexivity].
Qed.

Lemma pow2_half (e : Z) : (1 # 2) * pow2 e == pow2 (e - 1).
Proof.
  replace e with ((e - 1) + 1)%Z at 1 by lia. rewrite pow2_add.
  change (pow2 1) with 2. ring.
Qed.

Lemma div_lt_div (a b c d : Q) :
  0 < b -> 0 < d -> a * d < c * b -> a / b < c / d.
Proof.
  intros Hb Hd H. apply Qlt_shift_div_l; [exact Hd|].
  assert (E : a / b * d == a * d / b) by (field; lra).
  rewrite E. apply Qlt_shift_div_r; [exact Hb|exact H].
Qed.

Lemma div_le_div (a b c d : Q) :
  0 < b -> 0 < d -> a * d <= c * b -> a / b <= c / d.
Proof.
  intros Hb Hd H. apply Qle_shift_div_l; [exact Hd|].
  assert (E : a / b * d == a * d / b) by (field; lra).
  rewrite E. apply Qle_shift_div_r; [exact Hb|exact H].
Qed.

(** [ilog2] is the floor of the binary logarithm. *)
Lemma ilog2_bounds (q : Q) :
  0 < q -> pow2 (ilog2 q) <= q /\ q < pow2 (ilog2 q + 1).
Proof.
  intros Hq. destruct q as [n d]. unfold ilog2. cbn [Qnum Qden].
  assert (Hn : (0 < n)%Z).
  { unfold Qlt in Hq. cbn in Hq. lia. }
  pose proof (Z.log2_spec n Hn) as [Hn1 Hn2].
  pose proof (Z.log2_spec (Zpos d) (Pos2Z.is_pos d)) as [Hd1 Hd2].
  pose proof (Z.log2_nonneg n) as Hln.
  pose proof (Z.log2_nonneg (Zpos d)) as Hld.
  set (ln := Z.log2 n) in *. set (ld := Z.log2 (Zpos d)) in *.
  unfold Z.succ in Hn2, Hd2.
  assert (Hq' : n # d == inject_Z n / inject_Z (Zpos d)) by apply Qmake_Qdiv.
  assert (Hdpos : 0 < inject_Z (Zpos d)) by (unfold Qlt; cbn; lia).
  assert (Hnpos : 0 < inject_Z n) by (unfold Qlt; cbn; lia).
  rewrite Zle_Qle in Hn1, Hd1. rewrite Zlt_Qlt in Hn2, Hd2.
  rewrite <- pow2_inject in Hn1, Hn2, Hd1, Hd2 by lia.
  pose proof (pow2_pos ln). pose proof (pow2_pos ld).
  pose proof (pow2_pos (ln + 1)). pose proof (pow2_pos (ld + 1)).
  destruct (Qle_bool (pow2 (ln - ld)) (n # d)) eqn:Hb.
  - split; [apply Qle_bool_iff; exact Hb|].
    replace (ln - ld + 1)%Z with ((ln + 1) - ld)%Z by lia.
    rewrite pow2_sub, Hq'.
    apply div_lt_div; [assumption..|]. nra.
  - assert (Hlt : n # d < pow2 (ln - ld)).
    { apply Qnot_le_lt. intro Hc. apply Qle_bool_iff in Hc. congruence. }
    split.
    + replace (ln - ld - 1)%Z with (ln - (ld + 1))%Z by lia.
      rewrite pow2_sub, Hq'.
      apply div_le_div; [assumption..|]. nra.
    + replace (ln - ld - 1 + 1)%Z with (ln - ld)%Z by lia. exact Hlt.
Qed.

Lemma nearest_error (x : Q) :
  - (1 # 2) <= inject_Z (nearest x) - x <= 1 # 2.
Proof.
  unfold nearest.
  pose proof (Qfloor_le x) as Hlo. pose proof (Qlt_floor x) as Hhi.
  rewrite inject_Z_plus in Hhi. change (inject_Z 1) with 1 in Hhi.
  destruct (Qcompare_spec (x - inject_Z (Qfloor x)) (1 # 2)) as [E|L|G].
  - destruct (Z.even (Qfloor x)); rewrite ?inject_Z_plus;
      change (inject_Z 1) with 1; lra.
  - lra.
  - rewrite inject_Z_plus. change (inject_Z 1) with 1. lra.
Qed.

Lemma ulp_pos (q : Q) : 0 < ulp q.
Proof. apply pow2_pos. Qed.

(** Rounding moves a value by at most half a unit in the last place. *)
Lemma round_ulp (q : Q) :
  - ((1 # 2) * ulp q) <= round q - q <= (1 # 2) * ulp q.
Proof.
  unfold round. destruct (Qeq_bool q 0) eqn:Hz.
  - apply Qeq_bool_iff in Hz. pose proof (ulp_pos q). lra.
  - rewrite Qred_correct.
    pose proof (ulp_pos q) as Hu.
    pose proof (nearest_error (q / ulp q)) as Hn.
    set (m := inject_Z (nearest (q / ulp q))) in *.
    assert (E : q == q / ulp q * ulp q) by (field; lra).
    set (y := q / ulp q) in *. set (w := ulp q) in *.
    destruct Hn as [Hn1 Hn2].
    assert (H1 : (m - y) * w <= (1 # 2) * w)
      by (apply Qmult_le_compat_r; lra).
    assert (H2 : - (1 # 2) * w <= (m - y) * w)
      by (apply Qmult_le_compat_r; lra).
    assert (E' : (m - y) * w == m * w - y * w) by ring.
    split; lra.
Qed.

Lemma Qabs_gt_0 (q : Q) : ~ q == 0 -> 0 < Qabs q.
Proof.
  intros Hq. pose proof (Qabs_nonneg q) as H.
  destruct (Qeq_dec (Qabs q) 0) as [E|E].
  - exfalso. apply Hq. revert E. apply Qabs_case; intros; lra.
  - lra.
Qed.

Lemma ulp_bound (q : Q) :
  ~ q == 0 -> (1 # 2) * ulp q <= u * Qabs q + eta.
Proof.
  intros Hq. unfold ulp, u, eta.
  pose proof (ilog2_bounds (Qabs q) (Qabs_gt_0 q Hq)) as [Hlo _].
  set (e := ilog2 (Qabs q)) in *.
  rewrite pow2_half.
  pose proof (pow2_pos (-1075)). pose proof (pow2_pos (-53)).
  destruct (Z.max_spec e (-1022)) as [[Hlt ->]|[Hle ->]].
  - change (-1022 - 52 - 1)%Z with (-1075)%Z.
    pose proof (Qabs_nonneg q).
    assert (0 <= pow2 (-53) * Qabs q) by (apply Qmult_le_0_compat; lra).
    lra.
  - replace (e - 52 - 1)%Z with (-53 + e)%Z by lia. rewrite pow2_add.
    assert (pow2 (-53) * pow2 e <= pow2 (-53) * Qabs q)
      by (apply Qmult_le_l; lra).
    lra.
Qed.

Lemma ulp_bound_normal (q : Q) :
  pow2 (-1022) <= Qabs q -> (1 # 2) * ulp q <= u * Qabs q.
Proof.
  intros Hq. unfold ulp, u.
  pose proof (pow2_pos (-1022)).
  assert (Hpos : 0 < Qabs q) by lra.
  pose proof (ilog2_bounds (Qabs q) Hpos) as [Hlo Hhi].
  set (e := ilog2 (Qabs q)) in *.
  assert (He : (-1022 < e + 1)%Z) by (apply pow2_lt_inv; lra).
  rewrite pow2_half, Z.max_l by lia.
  replace (e - 52 - 1)%Z with (-53 + e)%Z by lia. rewrite pow2_add.
  apply Qmult_le_l; [apply pow2_pos|exact Hlo].
Qed.

(** The rounding error: at most [u] times the magnitude, plus [eta] in the
    subnormal range. *)
Lemma round_error (q : Q) :
  - (u * Qabs q + eta) <= round q - q <= u * Qabs q + eta.
Proof.
  destruct (Qeq_dec q 0) as [Hz|Hnz].
  - unfold round. apply Qeq_bool_iff in Hz as Hb. rewrite Hb.
    rewrite Hz. change (Qabs 0) with 0.
    pose proof (pow2_pos (-1075)). unfold eta. lra.
  - pose proof (round_ulp q). pose proof (ulp_bound q Hnz). lra.
Qed.

Lemma u_value : u == 1 # 9007199254740992.
Proof. reflexivity. Qed.

Lemma eta_small : 0 < eta /\ eta <= (1 # 1000000) * u.
Proof. split; [apply pow2_pos|]. unfold Qle. vm_compute. discriminate. Qed.

Lemma round_within (q B : Q) :
  - B <= q <= B ->
  - (u * B + eta) <= round q - q <= u * B + eta.
Proof.
  intros H. pose proof (round_error q) as He.
  assert (Ha : Qabs q <= B) by (apply Qabs_Qle_condition; exact H).
  assert (Hu : 0 < u) by apply pow2_pos.
  assert (u * Qabs q <= u * B) by (apply Qmult_le_l; assumption).
  lra.
Qed.

(** A result of moderate size does not overflow. *)
Lemma fin_within (q B : Q) :
  - B <= q <= B -> B <= pow2 1000 -> fin q = Fin (round q).
Proof.
  intros H HB. pose proof (round_within q B H) as He.
  pose proof eta_small as [He1 He2]. pose proof u_value as Hu.
  assert (Hbig : pow2 1000 + pow2 1000 + 1 <= pow2 1024).
  { unfold Qle. vm_compute. discriminate. }
  assert (HuB : u * B <= B).
  { assert (0 <= B) by lra. rewrite Hu.
    assert ((1 # 9007199254740992) * B <= 1 * B)
      by (apply Qmult_le_compat_r;
          [unfold Qle; vm_compute; discriminate|assumption]).
    lra. }
  unfold fin.
  destruct (Qle_bool (pow2 1024) (round q)) eqn:E1.
  { apply Qle_bool_iff in E1. lra. }
  destruct (Qle_bool (round q) (- pow2 1024)) eqn:E2.
  { apply Qle_bool_iff in E2. lra. }
  reflexivity.
Qed.

(** In the normal range the error is relative. *)
Lemma round_rel (q : Q) :
  q == 0 \/ pow2 (-1022) <= q ->
  (1 - u) * q <= round q <= (1 + u) * q.
Proof.
  intros [Hz|Hn].
  - unfold round. apply Qeq_bool_iff in Hz as Hb. rewrite Hb, Hz. lra.
  - pose proof (pow2_pos (-1022)).
    assert (Ha : Qabs q == q) by (apply Qabs_pos; lra).
    pose proof (round_ulp q). pose proof (ulp_bound_normal q) as Hb.
    rewrite Ha in Hb. specialize (Hb Hn). lra.
Qed.

(** The rounding at work: [0.1 + 0.2] is [0.30000000000000004]; a tie goes
    to the even neighbour, both down ([1 + 2 ^ -53] is 1) and up
    ([1 + 3 * 2 ^ -53] is [1 + 2 ^ -51]); [1 / 3] is
    [0.3333333333333333]; twice [2 ^ 1023] overflows; half the least
    subnormal is 0 and three quarters of it is the least subnormal. *)
Lemma round_examples :
  add (lit 0.1) (lit 0.2) = Fin (1351079888211149 # 4503599627370496)
  /\ add (Fin 1) (Fin (pow2 (-53))) = Fin 1
  /\ add (Fin 1) (Fin (3 * pow2 (-53))) = add (Fin 1) (Fin (pow2 (-51)))
  /\ div (Fin 1) (Fin 3) = Fin (6004799503160661 # 18014398509481984)
  /\ mul (Fin (pow2 1023)) (Fin 2) = PInf
  /\ div (Fin (pow2 (-1074))) (Fin 2) = Fin 0
  /\ mul (Fin (pow2 (-1074))) (Fin (3 # 4)) = fin (pow2 (-1074)).
Proof.
  vm_compute. repeat split.
Qed.

Lemma fin_rel (q : Q) :
  0 <= q -> q <= pow2 1000 -> fin q = Fin (round q).
Proof.
  intros H0 H1. apply (fin_within q (pow2 1000)); [|lra].
  pose proof (pow2_pos 1000). lra.
Qed.

End Rounding.

(** * The cadence interval in binary64 *)

Section CadenceInterval64.

Import Binary64.

Lemma clamp_unit (v : Q) :
  exists t, clamp (Fin v) (Fin 0) (Fin 1) = Fin t
            /\ t == MathUtils.clamp v 0 1 /\ 0 <= t <= 1.
Proof.
  unfold clamp, Math_min, Math_max, ltb, MathUtils.clamp, JS.Math_max,
    JS.Math_min.
  destruct (Qle_bool 1 v) eqn:E1; cbn [negb].
  - apply Qle_bool_iff in E1. exists 1. cbn.
    rewrite (Q.min_l 1 v) by exact E1. rewrite Q.max_r by lra.
    repeat split; lra.
  - assert (H1 : v < 1).
    { apply Qnot_le_lt. intro Hc. apply Qle_bool_iff in Hc. congruence. }
    destruct (Qle_bool v 0) eqn:E2; cbn [negb].
    + apply Qle_bool_iff in E2. exists 0.
      rewrite (Q.min_r 1 v) by lra. rewrite Q.max_l by lra.
      repeat split; lra.
    + assert (H0 : 0 < v).
      { apply Qnot_le_lt. intro Hc. apply Qle_bool_iff in Hc. congruence. }
      exists v. rewrite (Q.min_r 1 v) by lra. rewrite Q.max_r by lra.
      repeat split; lra.
Qed.

Lemma lit_024 : lit 0.24 = Fin (1080863910568919 # 4503599627370496).
Proof. vm_compute. reflexivity. Qed.

Lemma lit_006 : lit 0.06 = Fin (1080863910568919 # 18014398509481984).
Proof. vm_compute. reflexivity. Qed.

(** The binary64 interval is within one unit roundoff of the exact linear
    interpolation. *)
Lemma interval_close (v : Q) :
  exists a, interval (Fin v) = Fin a
            /\ - u <= a - AvatarCanvas.interval v <= u.
Proof.
  destruct (clamp_unit v) as (t & Ht & Hc & H0 & H1).
  unfold interval, AvatarCanvas.interval. rewrite Ht, lit_024, lit_006.
  unfold MathUtils.lerp. clear Ht.
  set (tq := MathUtils.clamp v 0 1) in *. clearbody tq.
  pose proof eta_small as [He1 He2]. pose proof u_value as Hu.
  assert (HB : 2 <= pow2 1000) by (unfold Qle; vm_compute; discriminate).
  unfold lerp, sub, neg, add, mul.
  rewrite (fin_within (1 + - t) 2) by lra.
  pose proof (round_within (1 + - t) 1 ltac:(lra)) as Hs.
  set (s := round (1 + - t)) in *.
  set (c24 := 1080863910568919 # 4503599627370496) in *.
  set (c06 := 1080863910568919 # 18014398509481984) in *.
  rewrite (fin_within (s * c24) 2) by (subst c24; lra).
  pose proof (round_within (s * c24) (1 # 4) ltac:(subst c24; lra)) as Hp.
  set (p := round (s * c24)) in *.
  rewrite (fin_within (t * c06) 2) by (subst c06; lra).
  pose proof (round_within (t * c06) (6 # 100) ltac:(subst c06; lra)) as Hq.
  set (q := round (t * c06)) in *.
  rewrite (fin_within (p + q) 2) by (subst c24 c06; lra).
  pose proof (round_within (p + q) (32 # 100) ltac:(subst c24 c06; lra))
    as Hr.
  set (r := round (p + q)) in *.
  exists r. split; [reflexivity|].
  subst c24 c06. lra.
Qed.

(** C6.  In binary64 the interval is not antitone.  The engine publishes
    the loudness [1467 / 32768] for a window whose deviations sum to 1467; a
    hundred frames at that loudness leave [mouthSmooth] at
    [0.044769287109374986] when they start from the initial refs and at
    [0.044769287109375] when a hundred frames at full loudness came first.
    Both amplitudes are above [0.02], and the louder one gets the longer
    interval, [0.2319415283203125] against [0.23194152832031248].  The same
    happens between the adjacent amplitudes [0.33732] and
    [0.33732000000000006].  The ends and the middle are as the linear
    interpolation has them: [0.24] at 0, [0.06] at 1 and [0.15] at [0.5]. *)
Theorem interval_longer_for_louder_amplitude :
  MouthSync.amp Binary64Examples.faintWindow == Binary64Examples.faintMouth
  /\ smoothRun Binary64Examples.fromSilence (Fin 0)
     = Fin Binary64Examples.quieter
  /\ smoothRun Binary64Examples.fromLoud (Fin 0)
     = Fin Binary64Examples.louder
  /\ 0.02 < Binary64Examples.quieter
  /\ Binary64Examples.quieter < Binary64Examples.louder
  /\ interval (Fin Binary64Examples.quieter)
     = Fin Binary64Examples.quieterInterval
  /\ interval (Fin Binary64Examples.louder)
     = Fin Binary64Examples.louderInterval
  /\ Binary64Examples.quieterInterval < Binary64Examples.louderInterval
  /\ lit 0.33732 = Fin Binary64Examples.below
  /\ Binary64Examples.below < Binary64Examples.above
  /\ interval (Fin Binary64Examples.below)
     = Fin Binary64Examples.belowInterval
  /\ interval (Fin Binary64Examples.above)
     = Fin Binary64Examples.aboveInterval
  /\ Binary64Examples.belowInterval < Binary64Examples.aboveInterval
  /\ interval (Fin 0) = lit 0.24
  /\ interval (Fin 1) = lit 0.06
  /\ interval (lit 0.5) = lit 0.15.
Proof.
  vm_compute. repeat split.
Qed.

(** X28.  The binary64 interval is, for every amplitude, within [2 ^ -53]
    of the exact linear interpolation from [0.24] down to [0.06]; so a
    louder amplitude lengthens the interval by at most [2 ^ -52], and not at
    all when the two amplitudes lie in [[0,1]] and are [2 ^ -49] or more
    apart. *)
Theorem interval_antitone_up_to_rounding (v1 v2 : Q) :
  v1 < v2 ->
  exists a1 a2,
    interval (Fin v1) = Fin a1
    /\ interval (Fin v2) = Fin a2
    /\ - pow2 (-53) <= a1 - AvatarCanvas.interval v1 <= pow2 (-53)
    /\ - pow2 (-53) <= a2 - AvatarCanvas.interval v2 <= pow2 (-53)
    /\ a2 <= a1 + pow2 (-52)
    /\ (0 <= v1 -> v2 <= 1 -> v1 + pow2 (-49) <= v2 -> a2 <= a1).
Proof.
  intros Hlt.
  destruct (interval_close v1) as (a1 & E1 & H1).
  destruct (interval_close v2) as (a2 & E2 & H2).
  exists a1, a2. fold u. pose proof u_value as Hu.
  assert (Hu2 : pow2 (-52) == 2 * u) by reflexivity.
  assert (Hu3 : pow2 (-49) == 16 * u) by reflexivity.
  split; [exact E1|]. split; [exact E2|].
  split; [exact H1|]. split; [exact H2|].
  pose proof (interval_linear v1) as L1.
  pose proof (interval_linear v2) as L2.
  pose proof (clamp_monotone v1 v2 0 1 ltac:(lra)) as Hm.
  split.
  - lra.
  - intros H0 Hv2 Hgap.
    assert (C1 : MathUtils.clamp v1 0 1 == v1).
    { unfold MathUtils.clamp, JS.Math_max, JS.Math_min.
      rewrite (Q.min_r 1 v1) by lra. apply Q.max_r. lra. }
    assert (C2 : MathUtils.clamp v2 0 1 == v2).
    { unfold MathUtils.clamp, JS.Math_max, JS.Math_min.
      rewrite (Q.min_r 1 v2) by lra. apply Q.max_r. lra. }
    lra.
Qed.

End CadenceInterval64.

Lemma interval_antitone_up_to_rounding_witness :
  exists a1 a2,
    Binary64.interval (Binary64.Fin Binary64Examples.quieter)
    = Binary64.Fin a1
    /\ Binary64.interval (Binary64.Fin Binary64Examples.louder)
       = Binary64.Fin a2
    /\ a2 <= a1 + Binary64.pow2 (-52).
Proof.
  destruct (interval_antitone_up_to_rounding Binary64Examples.quieter
              Binary64Examples.louder) as (a1 & a2 & E1 & E2 & _ & _ & H & _).
  - reflexivity.
  - exists a1, a2. repeat split; assumption.
Defined.

(** * The spectral centroid in binary64 *)

Section Centroid64.

Import Binary64.


End Centroid64.

(** * The smoothing in binary64 *)

Section Smoothing64.

Import Binary64 SelectorRuns.

Lemma lit_035 : lit 0.35 = Fin (3152519739159347 # 9007199254740992).
Proof. vm_compute. reflexivity. Qed.

(** [1 - 0.35] is a binary64 value as it stands. *)
Lemma one_minus_035 :
  sub (Fin 1) (lit 0.35) = Fin (5854679515581645 # 9007199254740992).
Proof. vm_compute. reflexivity. Qed.

(** One frame moves the smoothed amplitude to within three unit roundoffs of
    the exact step. *)
Lemma smooth_step (v raw : Q) :
  - (1 # 8) <= v <= 9 # 8 ->
  exists v', smooth (Fin v) (Fin raw) = Fin v'
             /\ - (4 * u) <= v' - AvatarCanvas.smooth v raw <= 4 * u.
Proof.
  intros Hv.
  destruct (clamp_unit raw) as (t & Ht & Hc & H0 & H1).
  unfold smooth, AvatarCanvas.smooth, MathUtils.lerp, lerp.
  rewrite Ht, one_minus_035, lit_035. clear Ht.
  set (tq := MathUtils.clamp raw 0 1) in *. clearbody tq.
  pose proof eta_small as [He1 He2]. pose proof u_value as Hu.
  assert (HB : 2 <= pow2 1000) by (unfold Qle; vm_compute; discriminate).
  unfold add, mul.
  set (a65 := 5854679515581645 # 9007199254740992) in *.
  set (c35 := 3152519739159347 # 9007199254740992) in *.
  rewrite (fin_within (a65 * v) 2) by (subst a65; lra).
  pose proof (round_within (a65 * v) (3 # 4) ltac:(subst a65; lra)) as Hp.
  set (p := round (a65 * v)) in *.
  rewrite (fin_within (c35 * t) 2) by (subst c35; lra).
  pose proof (round_within (c35 * t) (35 # 100) ltac:(subst c35; lra)) as Hq.
  set (q := round (c35 * t)) in *.
  rewrite (fin_within (p + q) 2) by (subst a65 c35; lra).
  pose proof (round_within (p + q) (111 # 100) ltac:(subst a65 c35; lra))
    as Hr.
  set (r := round (p + q)) in *.
  exists r. split; [reflexivity|].
  subst a65 c35. lra.
Qed.

Lemma smooth_run_close (c : Q) (raws : list Q) (v0 D : Q) :
  Forall (fun raw => MathUtils.clamp raw 0 1 == c) raws ->
  0 <= c <= 1 ->
  - (1 # 8) <= v0 <= 9 # 8 ->
  - D <= v0 - c <= D ->
  exists v, smoothRun (map Fin raws) (Fin v0) = Fin v
            /\ - (decay (length raws) * D
                  + 12 * u * (1 - decay (length raws)))
               <= v - c
               <= decay (length raws) * D
                  + 12 * u * (1 - decay (length raws)).
Proof.
  intros Hall Hc. revert v0 D.
  induction Hall as [|raw rest Hraw _ IH]; intros v0 D Hr Hv.
  - exists v0. split; [reflexivity|]. cbn [length decay]. lra.
  - cbn [map smoothRun fold_left length].
    fold (smoothRun (map Fin rest) (smooth (Fin v0) (Fin raw))).
    pose proof u_value as Hu.
    destruct (smooth_step v0 raw ltac:(lra)) as (v1 & E1 & H1).
    rewrite E1.
    unfold AvatarCanvas.smooth in H1. rewrite lerp_step, Hraw in H1.
    assert (HD0 : 0 <= D) by lra.
    destruct (IH v1 (0.65 * D + 4 * u)) as (v & E & H).
    + lra.
    + lra.
    + exists v. split; [exact E|].
      cbn [decay]. pose proof (decay_range (length rest)) as [Hd0 Hd1].
      set (d := decay (length rest)) in *.
      assert (P1 : d * (0.65 * D + 4 * u) == 0.65 * d * D + 4 * u * d)
        by ring.
      assert (P2 : 12 * u * (1 - 0.65 * d) == 12 * u - (78 # 10) * u * d)
        by ring.
      assert (P3 : 12 * u * (1 - d) == 12 * u - 12 * u * d) by ring.
      assert (P4 : 0 <= u * d) by (apply Qmult_le_0_compat; lra).
      lra.
Qed.

(** X12.  In binary64, while the raw amplitude clamps to the same value [c]
    on every frame, the smoothed amplitude approaches [c] geometrically up
    to rounding: from any amplitude in [[0,1]], after [n] frames its
    distance from [c] is at most [0.65 ^ n] times the distance it started
    with, plus [2 ^ -49]. *)
Theorem smoothing_converges_up_to_rounding (c v0 : Q) (raws : list Q) :
  Forall (fun raw => MathUtils.clamp raw 0 1 == c) raws ->
  0 <= c <= 1 -> 0 <= v0 <= 1 ->
  exists v,
    smoothRun (map Fin raws) (Fin v0) = Fin v
    /\ Qabs (v - c) <= decay (length raws) * Qabs (v0 - c) + pow2 (-49).
Proof.
  intros Hall Hc Hv0.
  assert (HD : - Qabs (v0 - c) <= v0 - c <= Qabs (v0 - c)).
  { split; [|apply Qle_Qabs].
    pose proof (Qle_Qabs (- (v0 - c))) as H. rewrite Qabs_opp in H. lra. }
  destruct (smooth_run_close c raws v0 (Qabs (v0 - c)) Hall Hc
              ltac:(lra) HD) as (v & E & H).
  exists v. split; [exact E|].
  pose proof (decay_range (length raws)) as [Hd0 Hd1].
  pose proof u_value as Hu.
  assert (Hp : pow2 (-49) == 16 * u) by reflexivity.
  set (d := decay (length raws)) in *.
  assert (P3 : 12 * u * (1 - d) == 12 * u - 12 * u * d) by ring.
  assert (P4 : 0 <= u * d) by (apply Qmult_le_0_compat; lra).
  apply Qabs_Qle_condition. lra.
Qed.

End Smoothing64.

Lemma smoothing_converges_up_to_rounding_witness :
  exists v,
    Binary64.smoothRun (map Binary64.Fin [0.5; 0.5]) (Binary64.Fin 0)
    = Binary64.Fin v
    /\ Qabs (v - 0.5)
       <= SelectorRuns.decay 2 * Qabs (0 - 0.5) + Binary64.pow2 (-49).
Proof.
  apply (smoothing_converges_up_to_rounding 0.5 0 [0.5; 0.5]).
  - repeat constructor.
  - split; discriminate.
  - split; discriminate.
Defined.

(** * The spectral centroid in binary64: the distance from the exact value *)

Section CentroidRounding.

Import Binary64.

Lemma ofNat_le (a b : nat) : (a <= b)%nat -> JS.ofNat a <= JS.ofNat b.
Proof.
  intros H. unfold JS.ofNat. rewrite <- Zle_Qle. lia.
Qed.

Lemma ofNat_double (k : nat) : JS.ofNat (2 * k) == 2 * JS.ofNat k.
Proof.
  unfold JS.ofNat. rewrite Nat2Z.inj_mul, inject_Z_mult. reflexivity.
Qed.

(** [Math.max(0, freqData[i])] on a bin of the Float32 range. *)
Lemma max0_number (x : MouthSync.Decibel) :
  float32Bin x ->
  exists v, Math_max (Fin 0) (ofDecibel x) = Fin v
            /\ v == MouthSync.max0 x
            /\ (v == 0 \/ pow2 (-149) <= v <= pow2 128).
Proof.
  destruct x as [q|]; cbn [float32Bin ofDecibel MouthSync.max0].
  - intros Hq. unfold Math_max, ltb, JS.Math_max.
    destruct (Qle_bool q 0) eqn:E; cbn [negb].
    + apply Qle_bool_iff in E. exists 0.
      split; [reflexivity|]. split; [|left; reflexivity].
      rewrite Q.max_l by exact E. reflexivity.
    + assert (H0 : 0 < q).
      { apply Qnot_le_lt. intro Hc. apply Qle_bool_iff in Hc. congruence. }
      exists q. split; [reflexivity|]. split.
      * rewrite Q.max_r by lra. reflexivity.
      * right. destruct Hq as [Hq|Hq]; [lra|exact Hq].
  - intros _. exists 0. split; [reflexivity|]. split; [reflexivity|].
    left. reflexivity.
Qed.

Lemma loopInv_proper (i : nat) (n d W E W' E' : Q) :
  W == W' -> E == E' -> loopInv i n d W E -> loopInv i n d W' E'.
Proof.
  unfold loopInv. intros HW HE. rewrite HW, HE. auto.
Qed.

Lemma loopInv_start : loopInv 0 0 0 0 0.
Proof.
  unfold loopInv, lo, up.
  change (JS.ofNat (2 * 0)) with 0. change (JS.ofNat 0) with 0.
  repeat split; try lra; left; reflexivity.
Qed.

(** One turn of the loop. *)
Lemma loop_step (i : nat) (n d W E : Q) (x : MouthSync.Decibel) :
  (i < 1024)%nat -> float32Bin x -> loopInv i n d W E ->
  exists n' d',
    add (Fin n) (mul (Math_max (Fin 0) (ofDecibel x)) (ofNat i)) = Fin n'
    /\ add (Fin d) (Math_max (Fin 0) (ofDecibel x)) = Fin d'
    /\ loopInv (S i) n' d' (W + JS.ofNat i * MouthSync.max0 x)
         (E + MouthSync.max0 x).
Proof.
  intros Hi Hx (Hd & Hn & HE & HW & HEu & HWu).
  destruct (max0_number x Hx) as (v & -> & Hv & Hvr).
  unfold ofNat, mul, add.
  pose proof u_value as Hu.
  pose proof (ofNat_nonneg i) as HI0.
  pose proof (ofNat_le i 1023 ltac:(lia)) as HI1.
  change (JS.ofNat 1023) with 1023 in HI1.
  assert (F1 : 0 < pow2 (-149)) by apply pow2_pos.
  assert (F2 : pow2 (-1022) <= (1 # 4) * pow2 (-149))
    by (unfold Qle; vm_compute; discriminate).
  assert (F3 : 4194304 * pow2 128 <= pow2 1000)
    by (unfold Qle; vm_compute; discriminate).
  assert (F4 : 0 < pow2 128) by apply pow2_pos.
  assert (F5 : 0 < pow2 (-1022)) by apply pow2_pos.
  unfold lo, up in Hd, Hn. rewrite ofNat_double in Hn.
  rewrite Hu in Hd, Hn.
  set (I := JS.ofNat i) in *.
  assert (Hv0 : 0 <= v) by (destruct Hvr; lra).
  assert (HvU : v <= pow2 128).
  { destruct Hvr as [Hz|Hr]; lra. }
  assert (HE0 : 0 <= E) by (destruct HE; lra).
  assert (HW0 : 0 <= W) by (destruct HW; lra).
  (* the monomials *)
  assert (MIv0 : 0 <= I * v) by (apply Qmult_le_0_compat; lra).
  assert (MIv1 : I * v <= 1023 * v) by (apply Qmult_le_compat_r; lra).
  assert (MIE0 : 0 <= I * E) by (apply Qmult_le_0_compat; lra).
  assert (MIE1 : I * E <= 1023 * E) by (apply Qmult_le_compat_r; lra).
  assert (MIW0 : 0 <= I * W) by (apply Qmult_le_0_compat; lra).
  assert (MIW1 : I * W <= 1023 * W) by (apply Qmult_le_compat_r; lra).
  assert (MIIv0 : 0 <= I * (I * v)) by (apply Qmult_le_0_compat; lra).
  assert (MIP : I * pow2 128 <= 1023 * pow2 128)
    by (apply Qmult_le_compat_r; lra).
  assert (Hd0 : 0 <= d) by lra.
  assert (Hn0 : 0 <= n) by lra.
  (* the product *)
  assert (Hpr : v * I == 0 \/ pow2 (-149) <= v * I).
  { destruct Hvr as [Hz|Hr].
    - left. rewrite Hz. ring.
    - destruct i as [|k].
      + left. subst I. change (JS.ofNat 0) with 0. ring.
      + right. assert (1 <= I).
        { subst I. rewrite ofNat_S. pose proof (ofNat_nonneg k). lra. }
        assert (1 * v <= I * v) by (apply Qmult_le_compat_r; lra).
        lra. }
  rewrite (fin_rel (v * I)) by lra.
  assert (Hm : (1 - u) * (v * I) <= round (v * I) <= (1 + u) * (v * I)).
  { apply round_rel. destruct Hpr; [left; assumption|right; lra]. }
  rewrite Hu in Hm.
  set (m := round (v * I)) in *.
  assert (Hm0 : 0 <= m) by lra.
  (* the numerator *)
  assert (Hsr : n + m == 0 \/ pow2 (-1022) <= n + m).
  { destruct HW as [Hz|Hr].
    - assert (n == 0).
      { assert (Z1 : I * W == 0) by (rewrite Hz; ring). lra. }
      destruct Hpr as [Hpz|Hpn].
      + left. lra.
      + right. lra.
    - right. lra. }
  rewrite (fin_rel (n + m)) by lra.
  pose proof (round_rel (n + m) Hsr) as Hn'. rewrite Hu in Hn'.
  set (n' := round (n + m)) in *.
  (* the denominator *)
  assert (Htr : d + v == 0 \/ pow2 (-1022) <= d + v).
  { destruct HE as [Hz|Hr].
    - assert (d == 0).
      { assert (Z1 : I * E == 0) by (rewrite Hz; ring). lra. }
      destruct Hvr as [Hvz|Hvn]; [left; lra|right; lra].
    - right. lra. }
  rewrite (fin_rel (d + v)) by lra.
  pose proof (round_rel (d + v) Htr) as Hd'. rewrite Hu in Hd'.
  set (d' := round (d + v)) in *.
  exists n', d'. split; [reflexivity|]. split; [reflexivity|].
  apply (loopInv_proper (S i) n' d' (W + I * v) (E + v));
    [rewrite Hv; reflexivity|rewrite Hv; reflexivity|].
  unfold loopInv, lo, up.
  replace (2 * S i)%nat with (S (S (2 * i))) by lia.
  rewrite !ofNat_S, ofNat_double, Hu. fold I.
  repeat split.
  - lra.
  - lra.
  - lra.
  - lra.
  - destruct HE as [Hz|Hr]; destruct Hvr as [Hvz|Hvn];
      [left; lra|right; lra|right; lra|right; lra].
  - destruct HW as [Hz|Hr].
    + destruct Hvr as [Hvz|Hvn].
      * left. assert (I * v == 0) by (rewrite Hvz; ring). lra.
      * destruct i as [|k].
        -- left. subst I. change (JS.ofNat 0) with 0 in *. lra.
        -- right. assert (1 <= I).
           { subst I. rewrite ofNat_S. pose proof (ofNat_nonneg k). lra. }
           assert (1 * v <= I * v) by (apply Qmult_le_compat_r; lra).
           lra.
    + right. lra.
  - lra.
  - lra.
Qed.

(** The whole loop. *)
Lemma loop_inv (l : list MouthSync.Decibel) (i : nat) (n d W E : Q) :
  (i + length l <= 1024)%nat -> Forall float32Bin l -> loopInv i n d W E ->
  exists n' d',
    centroidLoop (map ofDecibel l) i (Fin n) (Fin d) = (Fin n', Fin d')
    /\ loopInv (i + length l) n' d' (W + MouthSync.weightedFrom i l)
         (E + MouthSync.totalEnergy l).
Proof.
  revert i n d W E.
  induction l as [|x rest IH]; intros i n d W E Hlen Hall Hinv.
  - exists n, d. split; [reflexivity|]. cbn [length].
    rewrite Nat.add_0_r.
    apply (loopInv_proper i n d W E); [| |exact Hinv].
    + unfold MouthSync.weightedFrom. cbn. ring.
    + unfold MouthSync.totalEnergy. cbn. ring.
  - apply Forall_cons in Hall as [Hx Hrest]. cbn [length] in Hlen.
    destruct (loop_step i n d W E x ltac:(lia) Hx Hinv)
      as (n1 & d1 & En & Ed & Hinv1).
    cbn [map centroidLoop]. rewrite En, Ed.
    destruct (IH (S i) n1 d1 _ _ ltac:(lia) Hrest Hinv1)
      as (n' & d' & Eloop & Hinv').
    exists n', d'. split; [exact Eloop|].
    cbn [length]. replace (i + S (length rest))%nat
      with (S i + length rest)%nat by lia.
    eapply loopInv_proper; [| |exact Hinv'].
    + rewrite weightedFrom_cons. ring.
    + rewrite totalEnergy_cons. ring.
Qed.

(** The divisor [Math.max(1, freqData.length - 1)] is exact. *)
Lemma divisor_exact (N : nat) :
  (N <= 1024)%nat ->
  exists D, Math_max (Fin 1) (sub (ofNat N) (Fin 1)) = Fin D
            /\ D == JS.Math_max 1 (JS.ofNat N - 1).
Proof.
  intros HN.
  assert (Hall : forallb
            (fun k => match Math_max (Fin 1) (sub (ofNat k) (Fin 1)) with
                      | Fin D => Qeq_bool D (JS.Math_max 1 (JS.ofNat k - 1))
                      | _ => false
                      end) (seq 0 1025) = true)
    by (vm_compute; reflexivity).
  rewrite forallb_forall in Hall.
  specialize (Hall N ltac:(apply in_seq; lia)).
  destruct (Math_max (Fin 1) (sub (ofNat N) (Fin 1))) as [D| | |];
    try discriminate.
  exists D. split; [reflexivity|]. apply Qeq_bool_iff, Hall.
Qed.

Lemma quot_le (a b c d : Q) :
  0 <= a -> a <= c -> 0 < d -> d <= b -> a / b <= c / d.
Proof.
  intros Ha Hac Hd Hdb. apply div_le_div; [lra|exact Hd|].
  assert (d * a <= b * a) by (apply Qmult_le_compat_r; lra).
  assert (a * b <= c * b) by (apply Qmult_le_compat_r; lra).
  lra.
Qed.

Lemma ratio_le (n d W E A B : Q) :
  0 <= n -> n <= A * W -> 0 < B -> 0 < E -> B * E <= d ->
  B * (n / d) <= A * (W / E).
Proof.
  intros Hn HnA HB HE Hd.
  assert (HBE : 0 < B * E) by (apply Qmult_lt_0_compat; assumption).
  pose proof (quot_le n d (A * W) (B * E) Hn HnA HBE Hd) as H.
  assert (E1 : B * (A * W / (B * E)) == A * (W / E)) by (field; lra).
  rewrite <- E1. apply Qmult_le_l; assumption.
Qed.

Lemma ratio_ge (n d W E A B : Q) :
  0 <= A * W -> A * W <= n -> 0 < d -> d <= B * E -> 0 < B -> 0 < E ->
  A * (W / E) <= B * (n / d).
Proof.
  intros HW HWn Hd HdB HB HE.
  pose proof (quot_le (A * W) (B * E) n d HW HWn Hd HdB) as H.
  assert (E1 : B * (A * W / (B * E)) == A * (W / E)) by (field; lra).
  rewrite <- E1. apply Qmult_le_l; assumption.
Qed.

Lemma div_le_compat (a b D : Q) : 0 < D -> a <= b -> a / D <= b / D.
Proof.
  intros HD Hab. unfold Qdiv. apply Qmult_le_compat_r; [exact Hab|].
  apply Qlt_le_weak, Qinv_lt_0_compat, HD.
Qed.

(** X29.  On a buffer of at most 1024 bins that are minus infinity or finite
    values of the Float32 range, the binary64 centroid is a finite number
    within the relative distance [2 ^ -40] of the exact one, which is
    [sum(i * max(0, m_i)) / sum(max(0, m_i)) / max(1, bins - 1)] when there
    is energy; so it lies in [[0, 1 + 2 ^ -40]].  It is exactly 0 when the
    energy is zero, and it is the value [tick] passes to [setViseme]. *)
Theorem centroid_within_rounding (freqData : list MouthSync.Decibel) :
  (length freqData <= 1024)%nat ->
  Forall float32Bin freqData ->
  exists c,
    spectralCentroid (map ofDecibel freqData) = Fin c
    /\ (1 - eps) * MouthSync.spectralCentroid freqData <= c
    /\ c <= (1 + eps) * MouthSync.spectralCentroid freqData
    /\ 0 <= c <= 1 + eps
    /\ (MouthSync.totalEnergy freqData == 0 -> c = 0)
    /\ (Forall (fun m => MouthSync.max0 m == 0) freqData -> c = 0)
    /\ (~ MouthSync.totalEnergy freqData == 0 ->
        MouthSync.spectralCentroid freqData
        == MouthSync.weightedEnergy freqData / MouthSync.totalEnergy freqData
           / JS.Math_max 1 (JS.ofNat (length freqData) - 1))
    /\ tickViseme {| MouthSync.hasSetViseme := true |}
         (Fills (map ofDecibel freqData))
       = [Fin c].
Proof.
  intros Hlen Hall.
  assert (Hmain : exists c,
            spectralCentroid (map ofDecibel freqData) = Fin c
            /\ (1 - eps) * MouthSync.spectralCentroid freqData <= c
            /\ c <= (1 + eps) * MouthSync.spectralCentroid freqData
            /\ (MouthSync.totalEnergy freqData == 0 -> c = 0)).
  { destruct (loop_inv freqData 0 0 0 0 0 ltac:(cbn; lia) Hall loopInv_start)
      as (n & d & Eloop & Hinv).
    cbn [Nat.add] in Hinv.
    apply (loopInv_proper _ _ _ _ _ (MouthSync.weightedEnergy freqData)
             (MouthSync.totalEnergy freqData)) in Hinv;
      [|rewrite weightedFrom_0; ring|ring].
    unfold spectralCentroid. rewrite Eloop, length_map.
    pose proof (spectralCentroid_bounds freqData) as [HX0 HX1].
    pose proof u_value as Hu.
    assert (Heps : eps == 1 # 1099511627776) by reflexivity.
    destruct Hinv as (Hd & Hn & HE & HW & HEu & HWu).
    unfold lo, up in Hd, Hn. rewrite ofNat_double, Hu in Hn.
    rewrite Hu in Hd.
    pose proof (ofNat_nonneg (length freqData)) as HI0.
    pose proof (ofNat_le _ 1024 Hlen) as HI1.
    change (JS.ofNat 1024) with 1024 in HI1.
    set (N := length freqData) in *. set (I := JS.ofNat N) in *.
    set (W := MouthSync.weightedEnergy freqData) in *.
    set (E := MouthSync.totalEnergy freqData) in *.
    set (X := MouthSync.spectralCentroid freqData) in *.
    assert (F1 : 0 < pow2 (-149)) by apply pow2_pos.
    assert (F4 : 0 < pow2 128) by apply pow2_pos.
    assert (HE0 : 0 <= E) by (destruct HE; lra).
    assert (HW0 : 0 <= W) by (destruct HW; lra).
    assert (MIE0 : 0 <= I * E) by (apply Qmult_le_0_compat; lra).
    assert (MIE1 : I * E <= 1024 * E) by (apply Qmult_le_compat_r; lra).
    assert (MIW0 : 0 <= I * W) by (apply Qmult_le_0_compat; lra).
    assert (MIW1 : I * W <= 1024 * W) by (apply Qmult_le_compat_r; lra).
    assert (MIP : I * pow2 128 <= 1024 * pow2 128)
      by (apply Qmult_le_compat_r; lra).
    destruct HE as [Hz|HEpos].
    { (* no energy *)
      assert (Hd0 : d == 0).
      { assert (Z1 : I * E == 0) by (rewrite Hz; ring). lra. }
      cbn [falsy]. apply Qeq_bool_iff in Hd0. rewrite Hd0.
      exists 0. split; [reflexivity|].
      subst X. rewrite (spectralCentroid_zero freqData Hz).
      repeat split; try lra. }
    (* energy *)
    assert (Hdpos : 0 < d) by lra.
    assert (Hdz : Qeq_bool d 0 = false).
    { destruct (Qeq_bool d 0) eqn:Ed; [|reflexivity].
      apply Qeq_bool_iff in Ed. lra. }
    cbn [falsy]. rewrite Hdz. unfold div at 2. rewrite Hdz.
    assert (HEne : ~ E == 0) by lra.
    assert (HXr : X == W / E / JS.Math_max 1 (I - 1)).
    { subst X W E I N. apply spectralCentroid_nonzero. exact HEne. }
    set (r := W / E) in *.
    assert (Hr0 : 0 <= r) by (apply div_nonneg; lra).
    assert (Hr1 : r <= 1024).
    { subst r. apply Qle_shift_div_r; lra. }
    set (x := n / d) in *.
    assert (Hn0 : 0 <= n) by lra.
    assert (Hx0 : 0 <= x) by (apply div_nonneg; lra).
    assert (Hxu : (1 - 1024 * (1 # 9007199254740992)) * x
                  <= (1 + 4096 * (1 # 9007199254740992)) * r).
    { apply ratio_le; lra. }
    assert (Hxl : (1 - 2048 * (1 # 9007199254740992)) * r
                  <= (1 + 2048 * (1 # 9007199254740992)) * x).
    { apply ratio_ge; lra. }
    assert (F2 : pow2 (-1022)
                 <= (1 # 16384) * (pow2 (-149) / (1024 * pow2 128)))
      by (unfold Qle; vm_compute; discriminate).
    assert (G0 : 0 < pow2 (-149) / (1024 * pow2 128)).
    { apply Qlt_shift_div_l; lra. }
    assert (F3 : 8192 <= pow2 1000) by (unfold Qle; vm_compute; discriminate).
    assert (F5 : 0 < pow2 (-1022)) by apply pow2_pos.
    assert (Hxr : x == 0 \/ pow2 (-149) / (1024 * pow2 128) <= 2 * x).
    { destruct HW as [Hwz|Hwp].
      - left. assert (Hnz : n == 0).
        { assert (Z1 : I * W == 0) by (rewrite Hwz; ring). lra. }
        subst x. rewrite Hnz. unfold Qdiv. ring.
      - right.
        assert (pow2 (-149) / (1024 * pow2 128) <= r).
        { subst r. apply quot_le; lra. }
        lra. }
    rewrite (fin_rel x) by lra.
    assert (Hc1 : (1 - u) * x <= round x <= (1 + u) * x).
    { apply round_rel. destruct Hxr; [left; assumption|right; lra]. }
    rewrite Hu in Hc1. set (c1 := round x) in *.
    destruct (divisor_exact N Hlen) as (Dv & -> & HDv).
    fold I in HDv.
    assert (HD1 : 1 <= Dv) by (rewrite HDv; apply Q.le_max_l).
    assert (HD2 : Dv <= 1024).
    { rewrite HDv. unfold JS.Math_max. apply Q.max_lub; lra. }
    assert (HDz : Qeq_bool Dv 0 = false).
    { destruct (Qeq_bool Dv 0) eqn:Ed; [|reflexivity].
      apply Qeq_bool_iff in Ed. lra. }
    unfold div. rewrite HDz.
    rewrite <- HDv in HXr.
    set (y := c1 / Dv) in *. set (X' := r / Dv) in *.
    assert (HX'0 : 0 <= X') by (apply div_nonneg; lra).
    assert (Hy0 : 0 <= y) by (apply div_nonneg; lra).
    assert (Hyu : (1 - 1024 * (1 # 9007199254740992)) * y
                  <= (1 + (1 # 9007199254740992))
                     * (1 + 4096 * (1 # 9007199254740992)) * X').
    { assert (K : (1 - 1024 * (1 # 9007199254740992)) * c1
                  <= (1 + (1 # 9007199254740992))
                     * (1 + 4096 * (1 # 9007199254740992)) * r) by lra.
      apply (div_le_compat _ _ Dv ltac:(lra)) in K.
      subst y X'. unfold Qdiv in *. lra. }
    assert (Hyl : (1 - (1 # 9007199254740992))
                  * (1 - 2048 * (1 # 9007199254740992)) * X'
                  <= (1 + 2048 * (1 # 9007199254740992)) * y).
    { assert (K : (1 - (1 # 9007199254740992))
                  * (1 - 2048 * (1 # 9007199254740992)) * r
                  <= (1 + 2048 * (1 # 9007199254740992)) * c1) by lra.
      apply (div_le_compat _ _ Dv ltac:(lra)) in K.
      subst y X'. unfold Qdiv in *. lra. }
    assert (Hyr : y == 0 \/ pow2 (-1022) <= y).
    { destruct Hxr as [Hxz|Hxp].
      - left. assert (Hcz : c1 == 0) by lra.
        subst y. rewrite Hcz. unfold Qdiv. ring.
      - right.
        assert (c1 / 1024 <= y).
        { subst y. apply quot_le; lra. }
        change (c1 / 1024) with (c1 * (1 # 1024)) in H. lra. }
    assert (Hyu2 : y <= c1).
    { subst y. apply Qle_shift_div_r; [lra|].
      assert (1 * c1 <= Dv * c1) by (apply Qmult_le_compat_r; lra). lra. }
    rewrite (fin_rel y) by lra.
    pose proof (round_rel y Hyr) as Hc. rewrite Hu in Hc.
    set (c := round y) in *.
    exists c. split; [reflexivity|]. rewrite Heps.
    repeat split; lra. }
  destruct Hmain as (c & Ec & H1 & H2 & H3).
  exists c. split; [exact Ec|]. split; [exact H1|]. split; [exact H2|].
  pose proof (spectralCentroid_bounds freqData) as [HX0 HX1].
  assert (Heps : eps == 1 # 1099511627776) by reflexivity.
  rewrite Heps in H1, H2 |- *.
  split; [split; lra|]. split; [exact H3|].
  split; [intros Hz; apply H3, totalEnergy_all_zero, Hz|].
  split; [apply spectralCentroid_nonzero|].
  unfold tickViseme. cbn [MouthSync.hasSetViseme computeSpectralCentroid].
  rewrite Ec. reflexivity.
Qed.

End CentroidRounding.

Lemma centroid_within_rounding_witness :
  exists c,
    Binary64.spectralCentroid (map Binary64.ofDecibel Examples.fourBins)
    = Binary64.Fin c
    /\ 0 <= c <= 1 + Binary64.eps.
Proof.
  destruct (centroid_within_rounding Examples.fourBins)
    as (c & Ec & _ & _ & Hb & _).
  - vm_compute. lia.
  - apply Forall_cons. split; [left; lra|].
    apply Forall_cons. split;
      [right; split; unfold Qle; vm_compute; discriminate|].
    apply Forall_cons. split; [exact I|].
    apply Forall_cons. split;
      [right; split; unfold Qle; vm_compute; discriminate|].
    apply Forall_nil. exact I.
  - exists c. split; assumption.
Defined.
